(** * aptproxies: the apt.conf proxy parser and rewriter

    A shallow embedding of [src/aptproxies.py]: the entry model
    ([ProxyEntry]), the loader ([ProxyManager.load_proxies_from_conf]) with
    its whitespace corrector, the serializer
    ([ProxyManager.save_proxies_to_conf]), the backup helper and the edit
    boundary ([ProxyDialog.validate] and the two dialog flows).

    Text is a [list ascii]: a Python [str] whose code points are below 256.
    On that range [str.isspace], the regular expression class [\s] and the
    Unicode case folding of [re.IGNORECASE] are the ones written out below.
    Characters above U+00FF are outside the model.  Four of them (U+0130,
    U+0131, U+017F and U+212A) are matched by letters of the patterns under
    [re.IGNORECASE] and are left as they are by [str.upper], so in the
    program a kind read from a file need not be spelled in ASCII letters,
    while here it always is. *)

From Stdlib Require Import Ascii String Bool Arith Lia List.
Import ListNotations.

Local Open Scope list_scope.

Set Implicit Arguments.

(** ** Text *)

Module Text.

Definition str := list ascii.

(** A string literal of the source. *)
Definition lit (s : string) : str := list_ascii_of_string s.

Definition LF : ascii := "010"%char.
Definition CR : ascii := "013"%char.
Definition QUOTE : ascii := "034"%char.
Definition HASH : ascii := "#"%char.
Definition SEMI : ascii := ";"%char.
Definition SPACE : ascii := " "%char.

(** [str.isspace] on one character, which is also the class [\s] of [re] on
    [str] patterns: TAB, LF, VT, FF, CR, FS, GS, RS, US, SPACE, NEL, NBSP. *)
Definition is_space (c : ascii) : bool :=
  let n := nat_of_ascii c in
  ((9 <=? n) && (n <=? 13)) || ((28 <=? n) && (n <=? 32))
  || (n =? 133) || (n =? 160).

Definition is_crlf (c : ascii) : bool :=
  Ascii.eqb c CR || Ascii.eqb c LF.

(** ASCII case mapping; the only letters the source compares or converts
    are those of the keywords and of the four kinds. *)
Definition lower_char (c : ascii) : ascii :=
  let n := nat_of_ascii c in
  if (65 <=? n) && (n <=? 90) then ascii_of_nat (n + 32) else c.

Definition upper_char (c : ascii) : ascii :=
  let n := nat_of_ascii c in
  if (97 <=? n) && (n <=? 122) then ascii_of_nat (n - 32) else c.

Definition upper (s : str) : str := map upper_char s.

(** Equality of two characters under [re.IGNORECASE]. *)
Definition ci_eqb (a b : ascii) : bool :=
  Ascii.eqb (lower_char a) (lower_char b).

Fixpoint str_eqb (a b : str) : bool :=
  match a, b with
  | [], [] => true
  | x :: a', y :: b' => Ascii.eqb x y && str_eqb a' b'
  | _, _ => false
  end.

Fixpoint dropwhile (p : ascii -> bool) (s : str) : str :=
  match s with
  | [] => []
  | c :: t => if p c then dropwhile p t else s
  end.

Definition lstrip (s : str) : str := dropwhile is_space s.
Definition rstrip_with (p : ascii -> bool) (s : str) : str :=
  rev (dropwhile p (rev s)).
Definition rstrip (s : str) : str := rstrip_with is_space s.

(** [s.strip()] *)
Definition strip (s : str) : str := rstrip (lstrip s).

(** [s.rstrip('\r\n')] *)
Definition rstrip_crlf (s : str) : str := rstrip_with is_crlf s.

(** [s.startswith(p)] *)
Fixpoint startswith (p s : str) : bool :=
  match p, s with
  | [], _ => true
  | x :: p', y :: s' => Ascii.eqb x y && startswith p' s'
  | _ :: _, [] => false
  end.

(** [p in s] *)
Fixpoint contains (p s : str) : bool :=
  startswith p s ||
  match s with
  | [] => false
  | _ :: t => contains p t
  end.

(** Truthiness of a [str]. *)
Definition nonempty (s : str) : bool :=
  match s with [] => false | _ :: _ => true end.

(** Universal newlines of a text-mode [open(path, 'r')]: CR LF and a lone CR
    are read as LF. *)
Fixpoint universal_newlines (s : str) : str :=
  match s with
  | [] => []
  | c :: t =>
      if Ascii.eqb c CR then
        match t with
        | d :: t' => if Ascii.eqb d LF then LF :: universal_newlines t'
                     else LF :: universal_newlines t
        | [] => [LF]
        end
      else c :: universal_newlines t
  end.

(** Splitting a text into lines that keep their terminator, as [readlines]
    and iteration over a file do. *)
Fixpoint split_lines (s : str) : list str :=
  match s with
  | [] => []
  | c :: t =>
      if Ascii.eqb c LF then [c] :: split_lines t
      else match split_lines t with
           | [] => [[c]]
           | l :: ls => (c :: l) :: ls
           end
  end.

Definition readlines (content : str) : list str :=
  split_lines (universal_newlines content).

End Text.

Import Text.

(** ** Regular expressions, as Python's backtracking matcher runs them *)

Module Re.

(** Capture groups: group number to matched text, [None] when the group
    did not take part in the match. *)
Definition caps := nat -> option str.

Definition no_caps : caps := fun _ => None.

Definition set_cap (n : nat) (v : str) (c : caps) : caps :=
  fun i => if Nat.eqb i n then Some v else c i.

Inductive regex : Type :=
| Eps
| Chr (a : ascii)               (* a literal character, under IGNORECASE *)
| Cls (p : ascii -> bool)       (* one character of a class *)
| Seq (r1 r2 : regex)
| Alt (r1 r2 : regex)           (* r1|r2, left first *)
| Opt (r : regex)               (* r?, greedy *)
| Star (p : ascii -> bool)      (* greedy repetition of a class *)
| Grp (n : nat) (r : regex)     (* capture group n *)
| Eol.                          (* $ without MULTILINE *)

(** A literal word of the pattern. *)
Definition Lit (s : str) : regex :=
  fold_right (fun a r => Seq (Chr a) r) Eps s.

(** Concatenation of the parts of a pattern, left to right. *)
Definition seqs (rs : list regex) : regex := fold_right Seq Eps rs.

(** [p+], greedy. *)
Definition Plus (p : ascii -> bool) : regex := Seq (Cls p) (Star p).

Section Matcher.

Variable A : Type.

Fixpoint star_m (p : ascii -> bool) (s : str) (k : str -> option A)
  : option A :=
  match s with
  | x :: t =>
      if p x then
        match star_m p t k with
        | Some r => Some r
        | None => k s
        end
      else k s
  | [] => k s
  end.

(** [m r s c k]: match [r] at the head of [s] with captures [c], then
    continue with [k] on the rest; alternatives are tried in Python's order
    and the first overall success wins. *)
Fixpoint m (r : regex) (s : str) (c : caps) (k : str -> caps -> option A)
  : option A :=
  match r with
  | Eps => k s c
  | Chr a =>
      match s with
      | x :: t => if ci_eqb a x then k t c else None
      | [] => None
      end
  | Cls p =>
      match s with
      | x :: t => if p x then k t c else None
      | [] => None
      end
  | Seq r1 r2 => m r1 s c (fun s' c' => m r2 s' c' k)
  | Alt r1 r2 =>
      match m r1 s c k with
      | Some x => Some x
      | None => m r2 s c k
      end
  | Opt r1 =>
      match m r1 s c k with
      | Some x => Some x
      | None => k s c
      end
  | Star p => star_m p s (fun s' => k s' c)
  | Grp n r1 =>
      m r1 s c (fun s' c' =>
        k s' (set_cap n (firstn (length s - length s') s) c'))
  | Eol =>
      match s with
      | [] => k s c
      | [x] => if Ascii.eqb x LF then k s c else None
      | _ => None
      end
  end.

End Matcher.

(** [re.compile(r).match(s)]: anchored at the start, any rest allowed. *)
Definition re_match (r : regex) (s : str) : option caps :=
  m r s no_caps (fun _ c => Some c).

(** Declarative reading: [run r s c s' c'] when [r] can consume a prefix of
    [s] leaving [s'] and turning the captures [c] into [c']. *)
Inductive run : regex -> str -> caps -> str -> caps -> Prop :=
| run_eps s c : run Eps s c s c
| run_chr a x t c : ci_eqb a x = true -> run (Chr a) (x :: t) c t c
| run_cls p x t c : p x = true -> run (Cls p) (x :: t) c t c
| run_seq r1 r2 s c s1 c1 s2 c2 :
    run r1 s c s1 c1 -> run r2 s1 c1 s2 c2 -> run (Seq r1 r2) s c s2 c2
| run_alt_l r1 r2 s c s' c' : run r1 s c s' c' -> run (Alt r1 r2) s c s' c'
| run_alt_r r1 r2 s c s' c' : run r2 s c s' c' -> run (Alt r1 r2) s c s' c'
| run_opt_some r s c s' c' : run r s c s' c' -> run (Opt r) s c s' c'
| run_opt_none r s c : run (Opt r) s c s c
| run_star_nil p s c : run (Star p) s c s c
| run_star_cons p x t c s' :
    p x = true -> run (Star p) t c s' c -> run (Star p) (x :: t) c s' c
| run_grp n r s c s' c' :
    run r s c s' c' ->
    run (Grp n r) s c s' (set_cap n (firstn (length s - length s') s) c')
| run_eol_nil c : run Eol [] c [] c
| run_eol_lf c : run Eol [LF] c [LF] c.

End Re.

Import Re.

(** ** Global configuration and the patterns of the source *)

Definition NAME_COMMENT_PREFIX : str := lit "## APT Proxy Editor Name: ".

Definition standard_types : list str :=
  [lit "HTTP"; lit "HTTPS"; lit "FTP"; lit "SOCKS"].

Definition not_quote (c : ascii) : bool := negb (Ascii.eqb c QUOTE).

(** The class of [.] without DOTALL. *)
Definition not_newline (c : ascii) : bool := negb (Ascii.eqb c LF).

(** [(?:HTTP|HTTPS|FTP|SOCKS)] *)
Definition kind_alt : regex :=
  Alt (Lit (lit "HTTP"))
    (Alt (Lit (lit "HTTPS")) (Alt (Lit (lit "FTP")) (Lit (lit "SOCKS")))).

(** [#\s*] *)
Definition comment_mark : regex := Seq (Chr HASH) (Star is_space).

(** The correction pattern of [load_proxies_from_conf]; groups
    1 = core_proxy_line, 2 = problematic_spacing, 3 = semicolon_part. *)
Definition correction_pattern : regex :=
  seqs [ Grp 1 (seqs [ Opt comment_mark; Lit (lit "Acquire::"); kind_alt;
                       Lit (lit "::Proxy"); Plus is_space; Chr QUOTE;
                       Plus not_quote; Chr QUOTE ]);
         Grp 2 (Plus is_space);
         Grp 3 (Seq (Chr SEMI) (Star is_space));
         Eol ].

(** [parsing_regex_str]: the common part, then [;$] when the corrections
    were made and saved (strict) and [\s*;] otherwise (lenient). *)
Definition proxy_parser (corrections_made_and_saved : bool) : regex :=
  seqs [ Opt (Grp 1 comment_mark); Lit (lit "Acquire::"); Grp 2 kind_alt;
         Lit (lit "::Proxy"); Plus is_space; Chr QUOTE;
         Grp 3 (Plus not_quote); Chr QUOTE;
         if corrections_made_and_saved then Seq (Chr SEMI) Eol
         else Seq (Star is_space) (Chr SEMI) ].

(** [name_comment_parser] of the loader: the stripped prefix, [\s*], then
    group 1 holding [.*]. *)
Definition name_comment_parser : regex :=
  seqs [ Lit (strip NAME_COMMENT_PREFIX); Star is_space;
         Grp 1 (Star not_newline) ].

(** [proxy_line_parser] of the serializer. *)
Definition proxy_line_parser : regex :=
  seqs [ Opt (Grp 1 comment_mark); Lit (lit "Acquire::"); kind_alt;
         Lit (lit "::Proxy"); Plus is_space; Chr QUOTE;
         Plus not_quote; Chr QUOTE; Star is_space; Chr SEMI ].

(** [name_comment_parser] of the serializer: the stripped prefix only. *)
Definition save_name_comment_parser : regex :=
  Lit (strip NAME_COMMENT_PREFIX).

Definition matches (r : regex) (s : str) : bool :=
  match re_match r s with Some _ => true | None => false end.

(** [match.group(n)], with the empty string standing for an absent group
    where the source only tests or reads a group that took part. *)
Definition group (c : caps) (n : nat) : str :=
  match c n with Some v => v | None => [] end.

(** ** Data structures *)

(** [id] is the counter value whose decimal text the source uses as the
    identifier ([str(self.next_id)]); that text is never empty. *)
Record ProxyEntry : Type := mkProxyEntry {
  id : nat;
  proxy_type : str;
  url : str;
  enabled : bool;
  name : str;
  original_lines : list str
}.

(** [ProxyEntry.__init__] *)
Definition new_ProxyEntry (line_id : nat) (ptype u : str) (en : bool)
    (nm : str) (orig : list str) : ProxyEntry :=
  mkProxyEntry line_id (upper ptype) u en nm orig.

(** [ProxyEntry.to_conf_strings] *)
Definition to_conf_strings (p : ProxyEntry) : list str :=
  let strings :=
    if nonempty (name p) then [NAME_COMMENT_PREFIX ++ name p] else [] in
  let proxy_line_content :=
    lit "Acquire::" ++ proxy_type p ++ lit "::Proxy " ++ [QUOTE] ++ url p
      ++ [QUOTE] ++ [SEMI] in
  if enabled p then strings ++ [proxy_line_content]
  else strings ++ [lit "# " ++ proxy_line_content].

(** The diagnostics joined into [initial_syntax_error], oldest first; the
    empty list is the source's [None].  The texts of the input/output
    errors carry the operating system's message and are kept abstract. *)
Inductive diag : Type :=
| IOErrorReading
| IOErrorWriting
| BackupFailed
| Malformed (line_no : nat) (shown : str).

Record ProxyManager : Type := mkProxyManager {
  proxies : list ProxyEntry;
  next_id : nat;
  initial_syntax_error : list diag;
  apt_conf_exists : bool
}.

Definition new_ProxyManager : ProxyManager := mkProxyManager [] 0 [] false.

(** ** The configuration file and its directory *)

(** How an [open(path, 'w')] followed by writes can go: all of it succeeds,
    the open is refused (the file is untouched), or the open truncates the
    file, [k] characters of the text written reach it and [IOError] is
    raised.  The writes go through the buffer of the file object, which is
    flushed when it is full and when the file is closed, so the place
    where the text is cut has nothing to do with where one [write] ends
    and the next begins; the error comes out of the [write] or the close
    that could not put its part into the file, inside the [try] in both
    cases, and with [k] at or over the length of the text it comes after
    the last character. *)
Inductive fault : Type :=
| NoFault
| OpenFails
| WriteFails (k : nat).

Record filesys : Type := mkFilesys {
  file : option str;            (* content of the target, [None] if absent *)
  can_read : bool;              (* [open(path, 'r')] succeeds *)
  file_writable : bool;         (* [os.access(path, W_OK)] *)
  dir_writable : bool;          (* [os.access(parent, W_OK)] *)
  copy_ok : bool;               (* [shutil.copy2] succeeds *)
  write_fault : fault;
  backups : list (str * str)    (* suffix and content of each backup made *)
}.

Definition set_file (fs : filesys) (c : option str) : filesys :=
  mkFilesys c (can_read fs) (file_writable fs) (dir_writable fs)
    (copy_ok fs) (write_fault fs) (backups fs).

Definition is_some {T : Type} (o : option T) : bool :=
  match o with Some _ => true | None => false end.

(** [with open(path, 'w') as f:] followed by the given writes, in order.
    The file holds the text written, or the first [k] characters of it
    when the fault cuts it short. *)
Definition write_all (fs : filesys) (writes : list str) : bool * filesys :=
  match write_fault fs with
  | NoFault => (true, set_file fs (Some (concat writes)))
  | OpenFails => (false, fs)
  | WriteFails k => (false, set_file fs (Some (firstn k (concat writes))))
  end.

(** [ProxyManager.create_backup] *)
Definition create_backup (fs : filesys) (suffix : str) : bool * filesys :=
  match file fs with
  | None => (true, fs)
  | Some c =>
      if copy_ok fs
      then (true, mkFilesys (file fs) (can_read fs) (file_writable fs)
                    (dir_writable fs) (copy_ok fs) (write_fault fs)
                    (backups fs ++ [(suffix, c)]))
      else (false, fs)
  end.

(** [ProxyManager.can_write_to_conf] *)
Definition can_write_to_conf (fs : filesys) : bool :=
  if is_some (file fs) then file_writable fs else dir_writable fs.

(** ** Proxy management logic *)

Definition set_proxies (mg : ProxyManager) (ps : list ProxyEntry)
  : ProxyManager :=
  mkProxyManager ps (next_id mg) (initial_syntax_error mg)
    (apt_conf_exists mg).

Definition set_exists (mg : ProxyManager) (b : bool) : ProxyManager :=
  mkProxyManager (proxies mg) (next_id mg) (initial_syntax_error mg) b.

(** Appending one message to [initial_syntax_error]. *)
Definition add_error (mg : ProxyManager) (d : diag) : ProxyManager :=
  mkProxyManager (proxies mg) (next_id mg) (initial_syntax_error mg ++ [d])
    (apt_conf_exists mg).

(** [ProxyManager._generate_id] *)
Definition _generate_id (mg : ProxyManager) : nat * ProxyManager :=
  (S (next_id mg),
   mkProxyManager (proxies mg) (S (next_id mg)) (initial_syntax_error mg)
     (apt_conf_exists mg)).

Definition append_proxy (mg : ProxyManager) (p : ProxyEntry) : ProxyManager :=
  set_proxies mg (proxies mg ++ [p]).

Definition mem_str (x : str) (l : list str) : bool := existsb (str_eqb x) l.

Definition has_url_or_name (p : ProxyEntry) : bool :=
  nonempty (url p) || nonempty (name p).

(** The body of the [for std_type in standard_types] loop of
    [_add_placeholder_proxies_if_needed]. *)
Definition placeholder_step (existing_types_with_entries : list str)
    (mg : ProxyManager) (std_type : str) : ProxyManager :=
  if negb (mem_str std_type existing_types_with_entries) then
    if negb (existsb
               (fun p => str_eqb (upper (proxy_type p)) std_type
                         && negb (nonempty (url p))
                         && negb (nonempty (name p)))
               (proxies mg))
    then let '(entry_id, mg1) := _generate_id mg in
         append_proxy mg1 (new_ProxyEntry entry_id std_type [] false [] [])
    else mg
  else mg.

(** [ProxyManager._add_placeholder_proxies_if_needed] *)
Definition _add_placeholder_proxies_if_needed (mg : ProxyManager)
  : ProxyManager :=
  let existing_types_with_entries :=
    map (fun p => upper (proxy_type p)) (filter has_url_or_name (proxies mg)) in
  fold_left (placeholder_step existing_types_with_entries) standard_types mg.

(** *** The whitespace corrector *)

(** One line of the correction loop: the line kept for
    [temp_corrected_lines] and whether it changed. *)
Definition correct_line (line_content : str) : str * bool :=
  let stripped_for_match := rstrip_crlf line_content in
  match re_match correction_pattern stripped_for_match with
  | Some c =>
      if nonempty (group c 2) then
        let corrected_line_segment := group c 1 ++ [SEMI] in
        if negb (str_eqb stripped_for_match corrected_line_segment)
        then (corrected_line_segment ++ [LF], true)
        else (line_content, false)
      else (line_content, false)
  | None => (line_content, false)
  end.

Definition temp_corrected_lines (lines : list str) : list str :=
  map (fun l => fst (correct_line l)) lines.

Definition any_line_changed_in_memory (lines : list str) : bool :=
  existsb (fun l => snd (correct_line l)) lines.

(** *** The parse walk *)

Record walk : Type := mkWalk {
  w_mgr : ProxyManager;
  last_seen_name : option str;
  collected_original_lines_for_entry : list str
}.

(** The body of the [for line_num, current_line_content in enumerate(...)]
    loop. *)
Definition parse_step (strict : bool) (w : walk) (numbered : nat * str)
  : walk :=
  let '(line_num, current_line_content) := numbered in
  let stripped_line := strip current_line_content in
  let collected :=
    collected_original_lines_for_entry w ++ [current_line_content] in
  match re_match name_comment_parser stripped_line with
  | Some nc => mkWalk (w_mgr w) (Some (strip (group nc 1))) collected
  | None =>
      match re_match (proxy_parser strict) stripped_line with
      | Some pc =>
          let is_commented_proxy_line := is_some (pc 1) in
          let ptype := upper (group pc 2) in
          let u := group pc 3 in
          let '(entry_id, mg1) := _generate_id (w_mgr w) in
          let actual_enabled_status := negb is_commented_proxy_line in
          let current_name :=
            match last_seen_name w with
            | Some n => n
            | None => []
            end in
          mkWalk (append_proxy mg1
                    (new_ProxyEntry entry_id ptype u actual_enabled_status
                       current_name collected))
                 None []
      | None =>
          if nonempty stripped_line
             && negb (startswith [HASH] stripped_line) then
            let mg1 :=
              if contains (lit "::Proxy") stripped_line
              then add_error (w_mgr w)
                     (Malformed (line_num + 1) (firstn 70 stripped_line))
              else w_mgr w in
            mkWalk mg1 None []
          else if negb (nonempty stripped_line) then
            mkWalk (w_mgr w) None []
          else mkWalk (w_mgr w) (last_seen_name w) collected
      end
  end.

Fixpoint enumerate_from {T : Type} (n : nat) (l : list T) : list (nat * T) :=
  match l with
  | [] => []
  | x :: t => (n, x) :: enumerate_from (S n) t
  end.

Definition parse_lines (strict : bool) (mg : ProxyManager) (lines : list str)
  : walk :=
  fold_left (parse_step strict) (enumerate_from 0 lines) (mkWalk mg None []).

(** The [if can_write and self.apt_conf_exists:] block of
    [load_proxies_from_conf]: the lines to process, the flag
    [corrections_made_and_saved], the manager and the file system. *)
Definition correction_pass (mg0 : ProxyManager) (fs : filesys)
    (original_lines_from_file : list str)
  : list str * bool * ProxyManager * filesys :=
  if can_write_to_conf fs && apt_conf_exists mg0 then
    if any_line_changed_in_memory original_lines_from_file then
      let '(backed_up, fsb) :=
        create_backup fs (lit "pre_whitespace_correction") in
      if backed_up then
        let '(written, fsw) :=
          write_all fsb (temp_corrected_lines original_lines_from_file) in
        if written
        then (temp_corrected_lines original_lines_from_file, true, mg0, fsw)
        else (original_lines_from_file, false,
              add_error mg0 IOErrorWriting, fsw)
      else (original_lines_from_file, false, add_error mg0 BackupFailed, fsb)
    else (original_lines_from_file, false, mg0, fs)
  else (original_lines_from_file, false, mg0, fs).

(** [ProxyManager.load_proxies_from_conf]: the returned flag
    [corrections_made_and_saved], the manager and the file system after
    the call. *)
Definition load_proxies_from_conf (mg : ProxyManager) (fs : filesys)
  : bool * ProxyManager * filesys :=
  let mg0 := mkProxyManager [] 0 [] (is_some (file fs)) in
  match file fs with
  | None => (false, _add_placeholder_proxies_if_needed mg0, fs)
  | Some content =>
      if negb (can_read fs) then (false, add_error mg0 IOErrorReading, fs)
      else
        let '(lines_to_process, corrections_made_and_saved, mg1, fs1) :=
          correction_pass mg0 fs (readlines content) in
        let w := parse_lines corrections_made_and_saved mg1 lines_to_process in
        (corrections_made_and_saved,
         _add_placeholder_proxies_if_needed (w_mgr w), fs1)
  end.

(** *** The serializer *)

(** The test [proxy.url or proxy.name or (proxy.enabled and
    proxy.proxy_type)] of [save_proxies_to_conf]. *)
Definition is_written (p : ProxyEntry) : bool :=
  nonempty (url p) || nonempty (name p)
  || (enabled p && nonempty (proxy_type p)).

(** The test that keeps a line of the original file. *)
Definition is_other_line (line : str) : bool :=
  let stripped := strip line in
  negb (matches proxy_line_parser stripped)
  && negb (matches save_name_comment_parser stripped).

Definition other_lines_to_preserve (fs : filesys) : list str :=
  match file fs with
  | Some content =>
      if can_read fs then filter is_other_line (readlines content) else []
  | None => []
  end.

(** The separator written after the preserved lines. *)
Definition separator_writes (preserved : list str) (ps : list ProxyEntry)
  : list str :=
  match preserved, ps with
  | _ :: _, _ :: _ =>
      if nonempty (strip (last preserved [])) then [[LF]] else []
  | _, _ => []
  end.

(** The writes of the [for proxy_idx, proxy in enumerate(self.proxies)]
    loop. *)
Fixpoint proxy_writes (ps : list ProxyEntry) : list str :=
  match ps with
  | [] => []
  | proxy :: rest =>
      (if is_written proxy then
         map (fun line_to_write => line_to_write ++ [LF])
           (to_conf_strings proxy)
         ++ (if nonempty (name proxy) then
               match rest with
               | next_proxy :: _ =>
                   if is_written next_proxy then [[LF]] else []
               | [] => []
               end
             else [])
       else [])
      ++ proxy_writes rest
  end.

(** Every write of one save, in program order. *)
Definition save_writes (preserved : list str) (ps : list ProxyEntry)
  : list str :=
  preserved ++ separator_writes preserved ps ++ proxy_writes ps.

(** [ProxyManager.save_proxies_to_conf]; [save_anyway] is the answer to the
    question asked when the backup fails. *)
Definition save_proxies_to_conf (mg : ProxyManager) (fs : filesys)
    (save_anyway : bool) : bool * ProxyManager * filesys :=
  let mg0 := set_exists mg (is_some (file fs)) in
  if negb (can_write_to_conf fs) then (false, mg0, fs)
  else
    let '(backed_up, fsb) := create_backup fs (lit "pre_manual_save") in
    if negb backed_up && negb save_anyway then (false, mg0, fsb)
    else
      let preserved :=
        if apt_conf_exists mg0 then other_lines_to_preserve fsb else [] in
      let '(written, fsw) :=
        write_all fsb (save_writes preserved (proxies mg0)) in
      (written, mg0, fsw).

(** *** The operations of the model *)

(** [ProxyManager.get_proxy_by_id] *)
Definition get_proxy_by_id (mg : ProxyManager) (entry_id : nat)
  : option ProxyEntry :=
  find (fun p => Nat.eqb (id p) entry_id) (proxies mg).

(** [ProxyManager.add_proxy] *)
Definition add_proxy (mg : ProxyManager) (nm ptype u : str) (en : bool)
  : nat * ProxyManager :=
  let '(new_id, mg1) := _generate_id mg in
  (new_id, append_proxy mg1 (new_ProxyEntry new_id ptype u en nm [])).

Fixpoint update_first (entry_id : nat) (f : ProxyEntry -> ProxyEntry)
    (ps : list ProxyEntry) : list ProxyEntry :=
  match ps with
  | [] => []
  | p :: t => if Nat.eqb (id p) entry_id then f p :: t
              else p :: update_first entry_id f t
  end.

(** [ProxyManager.update_proxy] *)
Definition update_proxy (mg : ProxyManager) (entry_id : nat)
    (nm new_type new_url : str) (new_enabled : bool) : bool * ProxyManager :=
  match get_proxy_by_id mg entry_id with
  | Some _ =>
      (true,
       set_proxies mg
         (update_first entry_id
            (fun p => mkProxyEntry (id p) (upper new_type) new_url new_enabled
                        nm (original_lines p))
            (proxies mg)))
  | None => (false, mg)
  end.

Fixpoint remove_first (entry_id : nat) (ps : list ProxyEntry)
  : list ProxyEntry :=
  match ps with
  | [] => []
  | p :: t => if Nat.eqb (id p) entry_id then t
              else p :: remove_first entry_id t
  end.

(** [ProxyManager.remove_proxy] *)
Definition remove_proxy (mg : ProxyManager) (entry_id : nat)
  : bool * ProxyManager :=
  match get_proxy_by_id mg entry_id with
  | Some _ => (true, set_proxies mg (remove_first entry_id (proxies mg)))
  | None => (false, mg)
  end.

(** [ProxyManager.is_proxy_type_unique]; [current_proxy_id] is [None] for
    the source's default. *)
Definition is_proxy_type_unique (mg : ProxyManager)
    (proxy_type_to_check : str) (current_proxy_id : option nat) : bool :=
  Nat.eqb
    (length
       (filter
          (fun p =>
             str_eqb (upper (proxy_type p)) (upper proxy_type_to_check)
             && enabled p
             && match current_proxy_id with
                | None => true
                | Some i => negb (Nat.eqb (id p) i)
                end)
          (proxies mg)))
    0.

(** ** The edit boundary *)

(** What the user typed into a [ProxyDialog] when pressing OK. *)
Record dialog_vars : Type := mkDialogVars {
  name_var : str;
  proxy_type_var : str;
  url_var : str;
  enabled_var : bool
}.

(** [ProxyDialog.validate] *)
Definition validate (manager : option ProxyManager) (id_to_edit : option nat)
    (v : dialog_vars) : bool :=
  let nm := strip (name_var v) in
  let ptype := upper (strip (proxy_type_var v)) in
  let u := strip (url_var v) in
  let en := enabled_var v in
  if contains NAME_COMMENT_PREFIX nm then false
  else if negb (nonempty ptype) then false
  else if negb (nonempty u) && en then false
  else if contains [SPACE] u then false
  else if match manager with
          | Some mg => en && negb (is_proxy_type_unique mg ptype id_to_edit)
          | None => false
          end then false
  else true.

(** [dialog.result]: set by [apply] only once [validate] has accepted. *)
Definition dialog_result (manager : option ProxyManager)
    (id_to_edit : option nat) (v : dialog_vars) : option dialog_vars :=
  if validate manager id_to_edit v
  then Some (mkDialogVars (strip (name_var v))
               (upper (strip (proxy_type_var v))) (strip (url_var v))
               (enabled_var v))
  else None.

(** [AptProxyEditorApp.add_new_proxy_dialog] *)
Definition add_new_proxy_dialog (is_read_only : bool) (mg : ProxyManager)
    (v : dialog_vars) : ProxyManager :=
  if is_read_only then mg
  else match dialog_result (Some mg) None v with
       | Some r =>
           snd (add_proxy mg (name_var r) (proxy_type_var r) (url_var r)
                  (enabled_var r))
       | None => mg
       end.

(** [AptProxyEditorApp.edit_selected_proxy_dialog] *)
Definition edit_selected_proxy_dialog (is_read_only : bool)
    (mg : ProxyManager) (selected_id : option nat) (v : dialog_vars)
  : ProxyManager :=
  if is_read_only then mg
  else match selected_id with
       | None => mg
       | Some sid =>
           match get_proxy_by_id mg sid with
           | None => mg
           | Some proxy_to_edit =>
               match dialog_result (Some mg) (Some (id proxy_to_edit)) v with
               | Some r =>
                   snd (update_proxy mg sid (name_var r) (proxy_type_var r)
                          (url_var r) (enabled_var r))
               | None => mg
               end
           end
       end.

(** ** Shapes of lines, for stating what the patterns accept *)

(** Two texts equal up to the case of their letters. *)
Fixpoint ci_str (w s : str) : bool :=
  match w, s with
  | [], [] => true
  | a :: w', x :: s' => ci_eqb a x && ci_str w' s'
  | _, _ => false
  end.

(** One of the four kinds, in any case. *)
Definition is_kind_word (k : str) : bool :=
  existsb (fun w => ci_str w k) standard_types.

(** A comment marker in front of a directive: nothing, or [#] and
    whitespace. *)
Definition is_mark (mk : str) : bool :=
  match mk with
  | [] => true
  | x :: ws => Ascii.eqb x HASH && forallb is_space ws
  end.

(** The part every directive pattern of the source shares, up to and
    including the closing quote. *)
Definition core_shape (mk kw1 kind kw2 sp1 target : str) : Prop :=
  is_mark mk = true /\
  ci_str (lit "Acquire::") kw1 = true /\
  is_kind_word kind = true /\
  ci_str (lit "::Proxy") kw2 = true /\
  sp1 <> [] /\ forallb is_space sp1 = true /\
  target <> [] /\ forallb not_quote target = true.

Definition core_text (mk kw1 kind kw2 sp1 target : str) : str :=
  mk ++ kw1 ++ kind ++ kw2 ++ sp1 ++ [QUOTE] ++ target ++ [QUOTE].

(** What the loader accepts as a directive, on the stripped line: lenient
    mode allows whitespace between the closing quote and the semicolon and
    anything after the semicolon; strict mode allows neither. *)
Definition directive_shape (strict : bool) (s : str) : Prop :=
  exists mk kw1 kind kw2 sp1 target sp2 rest,
    s = core_text mk kw1 kind kw2 sp1 target ++ sp2 ++ [SEMI] ++ rest /\
    core_shape mk kw1 kind kw2 sp1 target /\
    forallb is_space sp2 = true /\
    (strict = true -> sp2 = [] /\ rest = []).

(** The lenient directive line in the specification's words: the canonical
    pattern with the semicolon right after the closing quote and at most
    whitespace after the semicolon. *)
Definition spec_lenient_line : regex :=
  seqs [ Opt comment_mark; Lit (lit "Acquire::"); kind_alt;
         Lit (lit "::Proxy"); Plus is_space; Chr QUOTE; Plus not_quote;
         Chr QUOTE; Chr SEMI; Star is_space; Eol ].

(** A directive line with text after its semicolon. *)
Definition line_with_trailing_text : str :=
  lit "Acquire::HTTP::Proxy " ++ [QUOTE] ++ lit "x" ++ [QUOTE] ++ lit "; foo".

(** The walk state at the start of a file. *)
Definition walk0 : walk := mkWalk (mkProxyManager [] 0 [] true) None [].

(** A synthesized placeholder: one of the four kinds, no target, no label,
    disabled, no source lines. *)
Definition is_placeholder (p : ProxyEntry) : Prop :=
  In (proxy_type p) standard_types /\ url p = [] /\ name p = [] /\
  enabled p = false /\ original_lines p = [].

(** A file system in which everything is allowed and succeeds. *)
Definition plain_fs (content : option str) : filesys :=
  mkFilesys content true true true true NoFault [].

(** A comment line that is neither an annotation nor a directive. *)
Definition ordinary_comment (strict : bool) (line : str) : Prop :=
  startswith [HASH] (strip line) = true /\
  re_match name_comment_parser (strip line) = None /\
  re_match (proxy_parser strict) (strip line) = None.

(** The walk after an annotation line naming the next entry [A]. *)
Definition annotation_line : str := NAME_COMMENT_PREFIX ++ lit "A" ++ [LF].

Definition walk_after_annotation : walk :=
  parse_step false walk0 (0, annotation_line).

(** A comment line holding a broken directive, and a plain comment. *)
Definition broken_commented_directive : str :=
  lit "# Acquire::HTTP::Proxy BAD" ++ [LF].

Definition plain_comment : str := lit "# note" ++ [LF].

(** A directive line in canonical form. *)
Definition canonical_http_line : str :=
  lit "Acquire::HTTP::Proxy " ++ [QUOTE] ++ lit "x" ++ [QUOTE] ++ [SEMI; LF].

(** A line with the whitespace defect the corrector removes. *)
Definition defective_line : str :=
  lit "Acquire::HTTPS::Proxy " ++ [QUOTE] ++ lit "https://p:443" ++ [QUOTE]
    ++ lit " ;".

(** A manager holding one enabled HTTP entry, and a dialog asking for
    another enabled HTTP entry. *)
Definition one_http_enabled : ProxyManager :=
  mkProxyManager [new_ProxyEntry 1 (lit "HTTP") (lit "old") true [] []] 1 []
    true.

Definition second_http_request : dialog_vars :=
  mkDialogVars [] (lit "HTTP") (lit "a") true.

(** Every write a save of [mg] over [fs] issues, in order, and the complete
    new content they add up to. *)
Definition writes_of_save (mg : ProxyManager) (fs : filesys) : list str :=
  save_writes (if is_some (file fs) then other_lines_to_preserve fs else [])
    (proxies mg).

Definition complete_new_content (mg : ProxyManager) (fs : filesys) : str :=
  concat (writes_of_save mg fs).

(** A file with a directive and an unrelated line, held by a manager that
    has loaded it; the save is cut short after ten characters. *)
Definition mixed_content : str :=
  lit "Acquire::HTTP::Proxy " ++ [QUOTE] ++ lit "x" ++ [QUOTE] ++ [SEMI; LF]
    ++ lit "keep" ++ [LF].



(** One load followed by one save with nothing edited in between. *)
Definition load_then_save (st : ProxyManager * filesys)
  : ProxyManager * filesys :=
  let '(_, mg1, fs1) := load_proxies_from_conf (fst st) (snd st) in
  let '(_, mg2, fs2) := save_proxies_to_conf mg1 fs1 false in
  (mg2, fs2).

(** A named entry followed by another entry. *)
Definition named_pair_content : str :=
  NAME_COMMENT_PREFIX ++ lit "A" ++ [LF]
    ++ lit "Acquire::HTTP::Proxy " ++ [QUOTE] ++ lit "x" ++ [QUOTE]
    ++ [SEMI; LF]
    ++ lit "Acquire::FTP::Proxy " ++ [QUOTE] ++ lit "y" ++ [QUOTE]
    ++ [SEMI; LF].

(** A file that exists and cannot be opened for reading. *)
Definition unreadable_fs : filesys :=
  mkFilesys (Some canonical_http_line) false false true true NoFault [].

(** Some entry of the list has the given kind. *)
Definition kind_covered (ps : list ProxyEntry) (t : str) : Prop :=
  exists p, In p ps /\ proxy_type p = t.

(** ** Lines as a text file holds them *)

Definition not_cr (c : ascii) : bool := negb (Ascii.eqb c CR).

(** A terminated line: text without a line feed, then one line feed. *)
Definition complete_line (l : str) : Prop :=
  exists body, l = body ++ [LF] /\ forallb not_newline body = true.

(** The lines of a text: all terminated, except that the last may be a
    non-empty text without a line feed. *)
Fixpoint file_lines (ls : list str) : Prop :=
  match ls with
  | [] => True
  | l :: rest =>
      match rest with
      | [] => complete_line l \/ (l <> [] /\ forallb not_newline l = true)
      | _ :: _ => complete_line l /\ file_lines rest
      end
  end.

(** ** What an entry records, apart from its identifier and source lines *)

Definition entry_data (p : ProxyEntry) : str * str * bool * str :=
  (proxy_type p, url p, enabled p, name p).

Definition not_colon (c : ascii) : bool := negb (Ascii.eqb c ":"%char).

Definition is_nil (s : str) : bool := negb (nonempty s).

(** An entry whose rendering the loader reads back: a standard kind, a
    non-empty target without a quote, and a label that is trimmed and on
    one line. *)
Definition readable_entry (p : ProxyEntry) : Prop :=
  In (proxy_type p) standard_types /\
  url p <> [] /\ forallb not_quote (url p) = true /\
  strip (name p) = name p /\ forallb not_newline (name p) = true.

(** The lines of an entry as the serializer writes them. *)
Definition written_lines (p : ProxyEntry) : list str :=
  map (fun line_to_write => line_to_write ++ [LF]) (to_conf_strings p).

(** An example entry: a disabled, labelled FTP proxy. *)
Definition office_ftp : ProxyEntry :=
  mkProxyEntry 7 (lit "FTP") (lit "ftp://x") false (lit "Office") [].

(** An entry the serializer can store in a text file: readable, and with
    no line end inside its target or label. *)
Definition storable_entry (p : ProxyEntry) : Prop :=
  readable_entry p /\
  forallb not_newline (url p) = true /\ forallb not_cr (url p) = true /\
  forallb not_cr (name p) = true.

(** An unwritten placeholder next to the example entry. *)
Definition socks_placeholder : ProxyEntry :=
  new_ProxyEntry 8 (lit "SOCKS") [] false [] [].

(** A manager holding the example entry and a placeholder, as after an
    edit, and a file with one unrelated line. *)
Definition edited_manager : ProxyManager :=
  mkProxyManager [office_ftp; socks_placeholder] 8 [] true.

Definition keep_only_fs : filesys := plain_fs (Some (lit "keep" ++ [LF])).

(** Identifiers in use are distinct and not above the counter. *)
Definition ids_fresh (mg : ProxyManager) : Prop :=
  NoDup (map id (proxies mg)) /\
  Forall (fun p => id p <= next_id mg) (proxies mg).

(** The fields [update_proxy] writes into the entry it finds. *)
Definition updated_entry (nm new_type new_url : str) (new_enabled : bool)
    (p : ProxyEntry) : ProxyEntry :=
  mkProxyEntry (id p) (upper new_type) new_url new_enabled nm
    (original_lines p).

(** A manager with two entries, as after a load and an addition. *)
Definition two_entries : ProxyManager :=
  mkProxyManager
    [new_ProxyEntry 1 (lit "HTTP") (lit "old") true [] [];
     new_ProxyEntry 2 (lit "FTP") (lit "ftp://x") false (lit "Office") []]
    2 [] true.

(** No two enabled entries share a kind (kinds compared in upper case, as
    [is_proxy_type_unique] compares them). *)
Definition one_enabled_per_kind (mg : ProxyManager) : Prop :=
  forall p q, In p (proxies mg) -> In q (proxies mg) ->
    enabled p = true -> enabled q = true ->
    upper (proxy_type p) = upper (proxy_type q) -> id p = id q.

(** What the user typed to turn the second entry of [two_entries] into an
    enabled FTP proxy. *)
Definition enable_ftp_request : dialog_vars :=
  mkDialogVars (lit "Office") (lit "ftp") (lit "ftp://x") true.

(** The test of [_add_placeholder_proxies_if_needed] for an entry of the
    kind with neither target nor label. *)
Definition is_empty_entry_of (std_type : str) (p : ProxyEntry) : bool :=
  str_eqb (upper (proxy_type p)) std_type
  && negb (nonempty (url p)) && negb (nonempty (name p)).

(** A line the walk reports: not a comment, holding the directive keyword,
    and not a directive of the mode in force. *)
Definition reported_line (strict : bool) (line : str) : bool :=
  negb (is_some (re_match (proxy_parser strict) (strip line)))
  && negb (startswith [HASH] (strip line))
  && contains (lit "::Proxy") (strip line).

(** The diagnostics of the reported lines among [lines], numbered from
    [k], in file order. *)
Definition diagnostics_from (strict : bool) (k : nat) (lines : list str)
  : list diag :=
  map (fun nl => Malformed (fst nl + 1) (firstn 70 (strip (snd nl))))
    (filter (fun nl => reported_line strict (snd nl))
       (enumerate_from k lines)).

(** Every entry is of one of the four kinds, as the loader and the kind
    selector of the dialog make them. *)
Definition standard_kinds (mg : ProxyManager) : Prop :=
  Forall (fun p => In (proxy_type p) standard_types) (proxies mg).

(** What the editor relies on between two operations. *)
Definition editor_invariant (mg : ProxyManager) : Prop :=
  ids_fresh mg /\ standard_kinds mg /\ one_enabled_per_kind mg.

(** Text on one line: no line feed and no carriage return. *)
Definition plain_text (s : str) : Prop :=
  forallb not_newline s = true /\ forallb not_cr s = true.

(** A pending label fit for an entry: trimmed and on one line. *)
Definition label_ok (o : option str) : Prop :=
  match o with
  | None => True
  | Some nm => strip nm = nm /\ plain_text nm
  end.

(** A line as [readlines] gives it: no carriage return, and no line feed
    but at its end. *)
Definition read_line (l : str) : Prop :=
  forallb not_cr l = true /\ forallb not_newline (strip l) = true.

(** The characters of a text that are not whitespace, in order. *)
Definition visible (s : str) : str := filter (fun c => negb (is_space c)) s.

(** A file whose only line has the whitespace defect. *)
Definition defective_fs : filesys :=
  plain_fs (Some (defective_line ++ [LF])).

(** A file with a directive the corrector repairs, a directive with text
    after its semicolon, and an unrelated line; everything is allowed. *)
Definition strict_loss_content : str :=
  defective_line ++ [LF] ++ line_with_trailing_text ++ [LF]
    ++ lit "keep" ++ [LF].

(** A line of a text, as reading the text line by line gives it. *)
Definition line_of (l content : str) : Prop := In l (readlines content).

(** An entry read from a line of a file: a non-empty target without a
    quote, a label that is trimmed, and both on one line. *)
Definition read_entry (p : ProxyEntry) : Prop :=
  url p <> [] /\ forallb not_quote (url p) = true /\ plain_text (url p) /\
  strip (name p) = name p /\ plain_text (name p).

(* ================================================================== *)
(** * Properties *)

(** ** The matcher against its declarative reading *)

Section MatcherFacts.

Variable A : Type.

Lemma star_m_sound (p : ascii -> bool) (c : caps) :
  forall (s : str) (k : str -> option A) (res : A),
    star_m p s k = Some res ->
    exists s', run (Star p) s c s' c /\ k s' = Some res.
Proof.
  induction s as [|x t IH]; intros k res H; simpl in H.
  - exists []. split; [constructor | assumption].
  - destruct (p x) eqn:Hp.
    + destruct (star_m p t k) as [r|] eqn:Ht.
      * inversion H; subst r. destruct (IH k res Ht) as (s' & Hr & Hk).
        exists s'. split; [now constructor | assumption].
      * exists (x :: t). split; [constructor | assumption].
    + exists (x :: t). split; [constructor | assumption].
Qed.

(** A successful match follows one of the declarative runs. *)
Lemma m_sound (r : regex) :
  forall (s : str) (c : caps) (k : str -> caps -> option A) (res : A),
    m r s c k = Some res ->
    exists s' c', run r s c s' c' /\ k s' c' = Some res.
Proof.
  induction r as [ | a | p | r1 IH1 r2 IH2 | r1 IH1 r2 IH2 | r1 IH1 | p
                 | n r1 IH1 | ]; intros s c k res H; simpl in H.
  - exists s, c. split; [constructor | assumption].
  - destruct s as [|x t]; [discriminate|].
    destruct (ci_eqb a x) eqn:E; [|discriminate].
    exists t, c. split; [now constructor | assumption].
  - destruct s as [|x t]; [discriminate|].
    destruct (p x) eqn:E; [|discriminate].
    exists t, c. split; [now constructor | assumption].
  - destruct (IH1 _ _ _ _ H) as (s1 & c1 & Hr1 & H1).
    destruct (IH2 _ _ _ _ H1) as (s2 & c2 & Hr2 & H2).
    exists s2, c2. split; [econstructor; eassumption | assumption].
  - destruct (m r1 s c k) as [x|] eqn:E.
    + inversion H; subst x. destruct (IH1 _ _ _ _ E) as (s' & c' & Hr & Hk).
      exists s', c'. split; [now apply run_alt_l | assumption].
    + destruct (IH2 _ _ _ _ H) as (s' & c' & Hr & Hk).
      exists s', c'. split; [now apply run_alt_r | assumption].
  - destruct (m r1 s c k) as [x|] eqn:E.
    + inversion H; subst x. destruct (IH1 _ _ _ _ E) as (s' & c' & Hr & Hk).
      exists s', c'. split; [now apply run_opt_some | assumption].
    + exists s, c. split; [apply run_opt_none | assumption].
  - destruct (star_m_sound p c s _ H) as (s' & Hr & Hk).
    exists s', c. split; assumption.
  - destruct (IH1 _ _ _ _ H) as (s' & c' & Hr & Hk).
    eexists s', _. split; [apply run_grp; eassumption | exact Hk].
  - destruct s as [|x [|y t]]; try discriminate.
    + exists [], c. split; [constructor | assumption].
    + destruct (Ascii.eqb x LF) eqn:E; [|discriminate].
      apply Ascii.eqb_eq in E; subst x.
      exists [LF], c. split; [constructor | assumption].
Qed.

(** Backtracking is exhaustive: a run whose continuation succeeds is never
    missed. *)
Lemma m_complete (r : regex) (s : str) (c : caps) (s' : str) (c' : caps) :
  run r s c s' c' ->
  forall k : str -> caps -> option A,
    k s' c' <> None -> m r s c k <> None.
Proof.
  induction 1; intros k Hk; simpl.
  - assumption.
  - rewrite H. assumption.
  - rewrite H. assumption.
  - apply IHrun1. apply IHrun2. assumption.
  - specialize (IHrun k Hk). destruct (m r1 s c k); [discriminate | contradiction].
  - destruct (m r1 s c k); [discriminate | now apply IHrun].
  - specialize (IHrun k Hk). destruct (m r s c k); [discriminate | contradiction].
  - destruct (m r s c k); [discriminate | assumption].
  - destruct s as [|x t]; simpl; [assumption|].
    destruct (p x); [|assumption].
    destruct (star_m p t (fun s'0 => k s'0 c)); [discriminate | assumption].
  - rewrite H. specialize (IHrun k Hk). simpl in IHrun.
    destruct (star_m p t (fun s'0 => k s'0 c)); [discriminate | contradiction].
  - apply IHrun. assumption.
  - assumption.
  - assumption.
Qed.

End MatcherFacts.

Lemma re_match_run (r : regex) (s : str) (c : caps) :
  re_match r s = Some c -> exists s', run r s no_caps s' c.
Proof.
  intros H. destruct (m_sound r s no_caps _ H) as (s' & c' & Hr & Hk).
  inversion Hk; subst c'. now exists s'.
Qed.

Lemma run_re_match (r : regex) (s s' : str) (c : caps) :
  run r s no_caps s' c -> re_match r s <> None.
Proof.
  intros H. unfold re_match.
  apply (m_complete H (fun _ c0 => Some c0)). discriminate.
Qed.

Lemma matches_iff_run (r : regex) (s : str) :
  matches r s = true <-> exists s' c, run r s no_caps s' c.
Proof.
  unfold matches. split.
  - destruct (re_match r s) as [c|] eqn:E; [|discriminate].
    intros _. destruct (re_match_run _ _ E) as (s' & Hr). now exists s', c.
  - intros (s' & c & Hr). apply run_re_match in Hr.
    destruct (re_match r s); [reflexivity | contradiction].
Qed.

(** ** Reading runs of the pattern combinators *)

Lemma firstn_prefix (pre s' : str) :
  firstn (length (pre ++ s') - length s') (pre ++ s') = pre.
Proof.
  rewrite length_app, Nat.add_sub.
  rewrite firstn_app, Nat.sub_diag, firstn_all. simpl. apply app_nil_r.
Qed.

Lemma run_Lit_inv (w : str) :
  forall s c s' c',
    run (Lit w) s c s' c' ->
    c' = c /\ exists pre, s = pre ++ s' /\ ci_str w pre = true.
Proof.
  induction w as [|a w IH]; intros s c s' c' H; unfold Lit in *; simpl in H.
  - inversion H; subst. split; [reflexivity|]. now exists [].
  - inversion H; subst.
    match goal with Hc : run (Chr _) _ _ _ _ |- _ => inversion Hc; subst end.
    match goal with Hr : run (fold_right _ _ _) _ _ _ _ |- _ =>
      destruct (IH _ _ _ _ Hr) as (-> & pre & -> & Hci) end.
    split; [reflexivity|]. exists (x :: pre). split; [reflexivity|].
    simpl. now rewrite Hci, andb_true_r.
Qed.

Lemma run_Lit_intro (w : str) :
  forall pre s' c, ci_str w pre = true -> run (Lit w) (pre ++ s') c s' c.
Proof.
  induction w as [|a w IH]; intros pre s' c H; unfold Lit in *; simpl.
  - destruct pre; [constructor | discriminate].
  - destruct pre as [|x pre]; [discriminate|]. simpl in H.
    apply andb_true_iff in H as [Hx Hw]. simpl.
    eapply run_seq; [now constructor | now apply IH].
Qed.

Lemma run_Star_inv (p : ascii -> bool) s c s' c' :
  run (Star p) s c s' c' ->
  c' = c /\ exists pre, s = pre ++ s' /\ forallb p pre = true.
Proof.
  intros H. remember (Star p) as r eqn:Er.
  induction H; try discriminate; inversion Er; subst.
  - split; [reflexivity|]. now exists [].
  - destruct (IHrun eq_refl) as (_ & pre & -> & Hp).
    split; [reflexivity|]. exists (x :: pre). split; [reflexivity|].
    simpl. now rewrite H, Hp.
Qed.

Lemma run_Star_intro (p : ascii -> bool) :
  forall pre s' c, forallb p pre = true -> run (Star p) (pre ++ s') c s' c.
Proof.
  induction pre as [|x pre IH]; intros s' c H; simpl.
  - constructor.
  - simpl in H. apply andb_true_iff in H as [Hx Hp].
    apply run_star_cons; [assumption | now apply IH].
Qed.

Lemma run_Plus_inv (p : ascii -> bool) s c s' c' :
  run (Plus p) s c s' c' ->
  c' = c /\ exists pre, s = pre ++ s' /\ pre <> [] /\ forallb p pre = true.
Proof.
  intros H. unfold Plus in H. inversion H; subst.
  match goal with Hc : run (Cls _) _ _ _ _ |- _ => inversion Hc; subst end.
  match goal with Hs : run (Star _) _ _ _ _ |- _ =>
    apply run_Star_inv in Hs; destruct Hs as (-> & pre & -> & Hp) end.
  split; [reflexivity|]. exists (x :: pre). repeat split.
  - discriminate.
  - simpl. now rewrite Hp, andb_true_r.
Qed.

Lemma run_Plus_intro (p : ascii -> bool) :
  forall pre s' c,
    pre <> [] -> forallb p pre = true -> run (Plus p) (pre ++ s') c s' c.
Proof.
  intros [|x pre] s' c Hne H; [contradiction|].
  simpl in H. apply andb_true_iff in H as [Hx Hp].
  unfold Plus. simpl. eapply run_seq; [now constructor|].
  now apply run_Star_intro.
Qed.

Lemma run_Seq_inv r1 r2 s c s' c' :
  run (Seq r1 r2) s c s' c' ->
  exists s1 c1, run r1 s c s1 c1 /\ run r2 s1 c1 s' c'.
Proof. intros H. inversion H; subst. eauto. Qed.

Lemma run_Alt_inv r1 r2 s c s' c' :
  run (Alt r1 r2) s c s' c' -> run r1 s c s' c' \/ run r2 s c s' c'.
Proof. intros H. inversion H; subst; auto. Qed.

Lemma run_Opt_inv r s c s' c' :
  run (Opt r) s c s' c' -> run r s c s' c' \/ (s' = s /\ c' = c).
Proof. intros H. inversion H; subst; auto. Qed.

Lemma run_Grp_inv n r s c s' c' :
  run (Grp n r) s c s' c' ->
  exists c1, run r s c s' c1 /\
             c' = set_cap n (firstn (length s - length s') s) c1.
Proof. intros H. inversion H; subst. eauto. Qed.

Lemma run_Chr_inv a s c s' c' :
  run (Chr a) s c s' c' -> c' = c /\ exists x, s = x :: s' /\ ci_eqb a x = true.
Proof. intros H. inversion H; subst. eauto. Qed.

Lemma run_Eps_inv s c s' c' : run Eps s c s' c' -> c' = c /\ s' = s.
Proof. intros H. inversion H; subst. auto. Qed.

Lemma run_Eol_inv s c s' c' :
  run Eol s c s' c' -> c' = c /\ s' = s /\ (s = [] \/ s = [LF]).
Proof. intros H. inversion H; subst; auto. Qed.

Lemma run_kind_alt_inv s c s' c' :
  run kind_alt s c s' c' ->
  c' = c /\ exists kind, s = kind ++ s' /\ is_kind_word kind = true.
Proof.
  intros H. unfold kind_alt in H.
  assert (W : forall w, In w standard_types -> run (Lit w) s c s' c' ->
            c' = c /\ exists kind, s = kind ++ s' /\ is_kind_word kind = true).
  { intros w Hw Hl. apply run_Lit_inv in Hl. destruct Hl as (-> & pre & -> & Hci).
    split; [reflexivity|]. exists pre. split; [reflexivity|].
    unfold is_kind_word. apply existsb_exists. now exists w. }
  apply run_Alt_inv in H as [H|H]; [apply (W _ (or_introl eq_refl) H)|].
  apply run_Alt_inv in H as [H|H];
    [apply (W _ (or_intror (or_introl eq_refl)) H)|].
  apply run_Alt_inv in H as [H|H].
  - apply (W (lit "FTP")); [simpl; tauto | assumption].
  - apply (W (lit "SOCKS")); [simpl; tauto | assumption].
Qed.

Lemma run_kind_alt_intro kind s' c :
  is_kind_word kind = true -> run kind_alt (kind ++ s') c s' c.
Proof.
  unfold is_kind_word, standard_types. simpl. rewrite orb_false_r.
  intros H. unfold kind_alt.
  apply orb_true_iff in H as [H|H]; [apply run_alt_l; now apply run_Lit_intro|].
  apply run_alt_r.
  apply orb_true_iff in H as [H|H]; [apply run_alt_l; now apply run_Lit_intro|].
  apply run_alt_r.
  apply orb_true_iff in H as [H|H]; [apply run_alt_l; now apply run_Lit_intro|].
  apply run_alt_r. now apply run_Lit_intro.
Qed.

Lemma ci_eqb_HASH x : ci_eqb HASH x = true -> x = HASH.
Proof.
  unfold ci_eqb. intros Hx. apply Ascii.eqb_eq in Hx.
  destruct x as [[] [] [] [] [] [] [] []]; vm_compute in Hx;
    try discriminate Hx; reflexivity.
Qed.

Lemma run_comment_mark_inv s c s' c' :
  run comment_mark s c s' c' ->
  c' = c /\ exists mk, s = mk ++ s' /\ mk <> [] /\ is_mark mk = true.
Proof.
  intros H. unfold comment_mark in H.
  apply run_Seq_inv in H as (s1 & c1 & Hc & Hs).
  apply run_Chr_inv in Hc as (-> & x & -> & Hx).
  apply run_Star_inv in Hs as (-> & ws & -> & Hp).
  split; [reflexivity|]. exists (x :: ws). repeat split.
  - discriminate.
  - simpl. rewrite Hp, andb_true_r. apply ci_eqb_HASH in Hx. subst x.
    reflexivity.
Qed.

Lemma ci_eqb_QUOTE x : ci_eqb QUOTE x = true -> x = QUOTE.
Proof.
  unfold ci_eqb. intros Hx. apply Ascii.eqb_eq in Hx.
  destruct x as [[] [] [] [] [] [] [] []]; vm_compute in Hx;
    try discriminate Hx; reflexivity.
Qed.

Lemma ci_eqb_SEMI x : ci_eqb SEMI x = true -> x = SEMI.
Proof.
  unfold ci_eqb. intros Hx. apply Ascii.eqb_eq in Hx.
  destruct x as [[] [] [] [] [] [] [] []]; vm_compute in Hx;
    try discriminate Hx; reflexivity.
Qed.

(** ** What the loader's directive pattern accepts and captures *)

Lemma proxy_parser_run (strict : bool) s c s' c' :
  run (proxy_parser strict) s c s' c' ->
  exists mk kw1 kind kw2 sp1 target sp2,
    s = core_text mk kw1 kind kw2 sp1 target ++ sp2 ++ [SEMI] ++ s' /\
    core_shape mk kw1 kind kw2 sp1 target /\
    forallb is_space sp2 = true /\
    (strict = true -> sp2 = [] /\ (s' = [] \/ s' = [LF])) /\
    c' 1 = match mk with [] => c 1 | _ :: _ => Some mk end /\
    c' 2 = Some kind /\ c' 3 = Some target.
Proof.
  intros H. unfold proxy_parser, seqs in H. cbn [fold_right] in H.
  apply run_Seq_inv in H as (s1 & c1 & Hmk & H).
  apply run_Seq_inv in H as (s2 & c2 & Hkw1 & H).
  apply run_Seq_inv in H as (s3 & c3 & Hkind & H).
  apply run_Seq_inv in H as (s4 & c4 & Hkw2 & H).
  apply run_Seq_inv in H as (s5 & c5 & Hsp1 & H).
  apply run_Seq_inv in H as (s6 & c6 & Hq1 & H).
  apply run_Seq_inv in H as (s7 & c7 & Htg & H).
  apply run_Seq_inv in H as (s8 & c8 & Hq2 & H).
  apply run_Seq_inv in H as (s9 & c9 & Htail & H).
  apply run_Eps_inv in H as (Ec & Es). subst c9 s9.
  apply run_Lit_inv in Hkw1 as (-> & kw1 & -> & Hkw1).
  apply run_Grp_inv in Hkind as (ck & Hkind & ->).
  apply run_kind_alt_inv in Hkind as (-> & kind & -> & Hkind).
  apply run_Lit_inv in Hkw2 as (-> & kw2 & -> & Hkw2).
  apply run_Plus_inv in Hsp1 as (-> & sp1 & -> & Hsp1n & Hsp1).
  apply run_Chr_inv in Hq1 as (-> & q1 & -> & Hq1). apply ci_eqb_QUOTE in Hq1.
  subst q1.
  apply run_Grp_inv in Htg as (ct & Htg & ->).
  apply run_Plus_inv in Htg as (-> & target & -> & Htgn & Htg).
  apply run_Chr_inv in Hq2 as (-> & q2 & -> & Hq2). apply ci_eqb_QUOTE in Hq2.
  subst q2.
  rewrite !firstn_prefix in *.
  assert (Htl : exists sp2, s8 = sp2 ++ [SEMI] ++ s' /\
            c' = set_cap 3 target (set_cap 2 kind c1) /\
            forallb is_space sp2 = true /\
            (strict = true -> sp2 = [] /\ (s' = [] \/ s' = [LF]))).
  { destruct strict.
    - apply run_Seq_inv in Htail as (t1 & d1 & Hsemi & Heol).
      apply run_Chr_inv in Hsemi as (-> & x & -> & Hx).
      apply ci_eqb_SEMI in Hx. subst x.
      apply run_Eol_inv in Heol as (-> & -> & Hend).
      exists []. repeat split; auto.
    - apply run_Seq_inv in Htail as (t1 & d1 & Hsp & Hsemi).
      apply run_Star_inv in Hsp as (-> & sp2 & -> & Hsp2).
      apply run_Chr_inv in Hsemi as (-> & x & -> & Hx).
      apply ci_eqb_SEMI in Hx. subst x.
      exists sp2. repeat split; auto; discriminate. }
  destruct Htl as (sp2 & -> & -> & Hsp2 & Hstrict).
  assert (Hm : exists mk, s = mk ++ kw1 ++ kind ++ kw2 ++ sp1 ++ QUOTE :: target
                              ++ QUOTE :: sp2 ++ [SEMI] ++ s'
                   /\ is_mark mk = true
                   /\ c1 1 = match mk with [] => c 1 | _ :: _ => Some mk end
                   /\ c1 2 = c 2 /\ c1 3 = c 3).
  { apply run_Opt_inv in Hmk as [Hmk | [-> ->]].
    - apply run_Grp_inv in Hmk as (cm & Hmk & ->).
      apply run_comment_mark_inv in Hmk as (-> & mk & -> & Hne & Hmark).
      exists mk. rewrite firstn_prefix. repeat split; auto.
      unfold set_cap. simpl. destruct mk; [contradiction | reflexivity].

    - exists []. repeat split; auto. }
  destruct Hm as (mk & -> & Hmark & Hc1 & Hc2 & Hc3).
  exists mk, kw1, kind, kw2, sp1, target, sp2.
  unfold core_text, core_shape. rewrite <- !app_assoc. simpl.
  repeat split; auto; apply Hstrict; assumption.
Qed.

Lemma run_Chr_same (a : ascii) t c : run (Chr a) (a :: t) c t c.
Proof.
  constructor. unfold ci_eqb. apply Ascii.eqb_refl.
Qed.

Lemma run_mark_intro (mk t : str) (c : caps) :
  is_mark mk = true ->
  exists c', run (Opt (Grp 1 comment_mark)) (mk ++ t) c t c'.
Proof.
  intros H. destruct mk as [|x ws].
  - exists c. apply run_opt_none.
  - simpl in H. apply andb_true_iff in H as [Hx Hws].
    apply Ascii.eqb_eq in Hx. subst x.
    eexists. apply run_opt_some. apply run_grp. unfold comment_mark.
    simpl. eapply run_seq; [apply run_Chr_same | now apply run_Star_intro].
Qed.

Lemma proxy_parser_accepts (strict : bool) mk kw1 kind kw2 sp1 target sp2 rest c :
  core_shape mk kw1 kind kw2 sp1 target ->
  forallb is_space sp2 = true ->
  (strict = true -> sp2 = [] /\ rest = []) ->
  exists c',
    run (proxy_parser strict)
      (core_text mk kw1 kind kw2 sp1 target ++ sp2 ++ [SEMI] ++ rest) c rest c'.
Proof.
  intros (Hmk & Hkw1 & Hkind & Hkw2 & Hsp1n & Hsp1 & Htgn & Htg) Hsp2 Hstrict.
  unfold core_text. rewrite <- !app_assoc.
  destruct (@run_mark_intro mk
              (kw1 ++ kind ++ kw2 ++ sp1 ++ [QUOTE] ++ target ++ [QUOTE]
                 ++ sp2 ++ [SEMI] ++ rest) c Hmk) as (c1 & Hrun1).
  assert (Htail : exists c2,
            run (if strict then Seq (Chr SEMI) Eol
                 else Seq (Star is_space) (Chr SEMI))
              (sp2 ++ [SEMI] ++ rest)
              (set_cap 3 target (set_cap 2 kind c1)) rest c2).
  { destruct strict.
    - destruct (Hstrict eq_refl) as [-> ->]. simpl. eexists.
      eapply run_seq; [apply run_Chr_same | apply run_eol_nil].
    - eexists.
      eapply run_seq; [now apply run_Star_intro | apply run_Chr_same]. }
  destruct Htail as (c2 & Htail).
  exists c2. unfold proxy_parser, seqs. cbn [fold_right].
  eapply run_seq; [exact Hrun1|].
  eapply run_seq; [now apply run_Lit_intro|].
  eapply run_seq; [apply run_grp; now apply run_kind_alt_intro|].
  eapply run_seq; [now apply run_Lit_intro|].
  eapply run_seq; [now apply run_Plus_intro|].
  eapply run_seq; [apply run_Chr_same|].
  eapply run_seq; [apply run_grp; now apply run_Plus_intro|].
  eapply run_seq; [apply run_Chr_same|].
  eapply run_seq; [|apply run_eps].
  rewrite !firstn_prefix. exact Htail.
Qed.

(** ** Stripping *)

Lemma dropwhile_head (p : ascii -> bool) (s : str) x t :
  dropwhile p s = x :: t -> p x = false.
Proof.
  induction s as [|y s IH]; simpl; [discriminate|].
  destruct (p y) eqn:E; [assumption|].
  intros H. inversion H; subst. assumption.
Qed.

Lemma rstrip_with_last (p : ascii -> bool) (s u : str) y :
  rstrip_with p s = u ++ [y] -> p y = false.
Proof.
  unfold rstrip_with. intros H.
  apply (f_equal (@rev ascii)) in H. rewrite rev_involutive, rev_app_distr in H.
  simpl in H. eapply dropwhile_head. eassumption.
Qed.

Lemma strip_last (s u : str) y : strip s = u ++ [y] -> is_space y = false.
Proof. apply rstrip_with_last. Qed.

(** ** Directive recognition (C4) *)

Lemma name_prefix_stripped :
  strip NAME_COMMENT_PREFIX = lit "## APT Proxy Editor Name:".
Proof. reflexivity. Qed.

Lemma ci_str_cons_inv a w s :
  ci_str (a :: w) s = true ->
  exists x s', s = x :: s' /\ ci_eqb a x = true /\ ci_str w s' = true.
Proof.
  destruct s as [|x s']; simpl; [discriminate|].
  intros H. apply andb_true_iff in H as [H1 H2]. eauto.
Qed.

(** An annotation line starts with two comment markers. *)
Lemma name_comment_run_head s c s' c' :
  run name_comment_parser s c s' c' -> exists t, s = HASH :: HASH :: t.
Proof.
  intros H. unfold name_comment_parser, seqs in H. cbn [fold_right] in H.
  apply run_Seq_inv in H as (s1 & c1 & Hl & _).
  apply run_Lit_inv in Hl as (_ & pre & -> & Hci).
  rewrite name_prefix_stripped in Hci.
  apply ci_str_cons_inv in Hci as (x1 & p1 & -> & Hx1 & Hci).
  apply ci_str_cons_inv in Hci as (x2 & p2 & -> & Hx2 & Hci).
  apply ci_eqb_HASH in Hx1, Hx2. subst. simpl. eauto.
Qed.

(** A directive never starts with two comment markers. *)
Lemma core_text_head mk kw1 kind kw2 sp1 target t u :
  core_shape mk kw1 kind kw2 sp1 target ->
  core_text mk kw1 kind kw2 sp1 target ++ t <> HASH :: HASH :: u.
Proof.
  intros (Hmk & Hkw1 & _) E. unfold core_text in E.
  change (lit "Acquire::") with ("A"%char :: lit "cquire::") in Hkw1.
  apply ci_str_cons_inv in Hkw1 as (k0 & kw1' & -> & Hk0 & _).
  assert (Hk : k0 <> HASH).
  { intros ->. discriminate Hk0. }
  destruct mk as [|x [|y ws]]; simpl in E.
  - inversion E. contradiction.
  - inversion E. contradiction.
  - inversion E. subst. simpl in Hmk. discriminate Hmk.
Qed.

Lemma directive_not_annotation strict s :
  directive_shape strict s -> re_match name_comment_parser s = None.
Proof.
  intros (mk & kw1 & kind & kw2 & sp1 & target & sp2 & rest & -> & Hc & _).
  destruct (re_match name_comment_parser _) as [c|] eqn:E; [|reflexivity].
  apply re_match_run in E as (s' & Hr).
  apply name_comment_run_head in Hr as (t & Ht).
  exfalso. eapply core_text_head; eassumption.
Qed.

Lemma re_match_directive_shape strict s c :
  (forall u y, s = u ++ [y] -> is_space y = false) ->
  re_match (proxy_parser strict) s = Some c ->
  directive_shape strict s /\ c 3 <> Some [] /\ c 3 <> None.
Proof.
  intros Hlast H. apply re_match_run in H as (s' & Hr).
  apply proxy_parser_run in Hr
    as (mk & kw1 & kind & kw2 & sp1 & target & sp2 & -> & Hc & Hsp2 & Hst
        & _ & _ & H3).
  split.
  - exists mk, kw1, kind, kw2, sp1, target, sp2, s'.
    split; [reflexivity|]. split; [assumption|]. split; [assumption|].
    intros Hs. destruct (Hst Hs) as [E0 [E|E]]; [now split|].
    subst s'. exfalso.
    specialize (Hlast (core_text mk kw1 kind kw2 sp1 target ++ sp2 ++ [SEMI]) LF).
    rewrite <- !app_assoc in Hlast. specialize (Hlast eq_refl).
    discriminate Hlast.
  - rewrite H3. destruct Hc as (_ & _ & _ & _ & _ & _ & Htg & _).
    split; [|discriminate]. intros E. inversion E. contradiction.
Qed.

Lemma directive_shape_re_match strict s :
  directive_shape strict s -> re_match (proxy_parser strict) s <> None.
Proof.
  intros (mk & kw1 & kind & kw2 & sp1 & target & sp2 & rest & -> & Hc & Hsp2
          & Hst).
  destruct (@proxy_parser_accepts strict mk kw1 kind kw2 sp1 target sp2 rest
              no_caps Hc Hsp2 Hst)
    as (c' & Hr).
  eapply run_re_match. eassumption.
Qed.

Lemma app_one_neq {T : Type} (l : list T) (x : T) : l <> l ++ [x].
Proof.
  intros E. apply (f_equal (@length T)) in E. rewrite length_app in E.
  simpl in E. lia.
Qed.

(** C4, as amended: a step of the parse walk materialises an entry exactly
    when the line, stripped of surrounding whitespace, has the directive
    shape of the mode in force.  Lenient mode (no correction saved)
    tolerates whitespace between the closing quote and the semicolon and
    ignores whatever follows the semicolon; strict mode (correction saved)
    wants the semicolon right after the closing quote and the stripped line
    to end there. *)
Theorem directive_recognition (strict : bool) (w : walk) (n : nat) (line : str) :
  (exists p,
     proxies (w_mgr (parse_step strict w (n, line))) = proxies (w_mgr w) ++ [p])
  <-> directive_shape strict (strip line).
Proof.
  unfold parse_step. split.
  - intros (p & Hp).
    destruct (re_match name_comment_parser (strip line)) as [nc|] eqn:En.
    { simpl in Hp. exfalso. eapply app_one_neq. eassumption. }
    destruct (re_match (proxy_parser strict) (strip line)) as [pc|] eqn:Ep.
    { eapply re_match_directive_shape; [|eassumption].
      intros u y. apply strip_last. }
    exfalso.
    destruct (nonempty (strip line) && negb (startswith [HASH] (strip line))).
    + destruct (contains (lit "::Proxy") (strip line)); simpl in Hp;
        eapply app_one_neq; eassumption.
    + destruct (negb (nonempty (strip line))); simpl in Hp;
        eapply app_one_neq; eassumption.
  - intros Hs. rewrite (directive_not_annotation Hs).
    pose proof (directive_shape_re_match Hs) as Hm.
    destruct (re_match (proxy_parser strict) (strip line)) as [pc|];
      [|contradiction].
    simpl. eexists. reflexivity.
Qed.

(** C4 as stated fails: in lenient mode a directive followed by other text
    after its semicolon is recognised, although it is not the canonical
    pattern followed by at most whitespace. *)
Lemma lenient_accepts_trailing_text :
  matches spec_lenient_line (strip line_with_trailing_text) = false /\
  map url (proxies (w_mgr (parse_step false walk0 (0, line_with_trailing_text))))
    = [lit "x"].
Proof. split; vm_compute; reflexivity. Qed.

(** ** Targets of parsed entries and placeholders (C9) *)

Lemma parse_step_targets strict w nl :
  Forall (fun p => url p <> []) (proxies (w_mgr w)) ->
  Forall (fun p => url p <> []) (proxies (w_mgr (parse_step strict w nl))).
Proof.
  intros Hall. destruct nl as [n line]. unfold parse_step.
  destruct (re_match name_comment_parser (strip line)); [exact Hall|].
  destruct (re_match (proxy_parser strict) (strip line)) as [pc|] eqn:Ep.
  - simpl. apply Forall_app. split; [exact Hall|].
    constructor; [|constructor]. simpl.
    destruct (@re_match_directive_shape strict (strip line) pc)
      as (_ & Hne & Hsome); [intros u y; apply strip_last | exact Ep |].
    unfold group. destruct (pc 3) as [v|]; [|contradiction].
    intros ->. contradiction.
  - destruct (nonempty (strip line) && negb (startswith [HASH] (strip line))).
    + destruct (contains (lit "::Proxy") (strip line)); exact Hall.
    + destruct (negb (nonempty (strip line))); exact Hall.
Qed.

Lemma fold_parse_step_targets strict nls :
  forall w,
    Forall (fun p => url p <> []) (proxies (w_mgr w)) ->
    Forall (fun p => url p <> [])
      (proxies (w_mgr (fold_left (parse_step strict) nls w))).
Proof.
  induction nls as [|nl nls IH]; intros w H; simpl; [exact H|].
  apply IH. now apply parse_step_targets.
Qed.

Lemma parse_lines_targets strict mg lines :
  proxies mg = [] ->
  Forall (fun p => url p <> []) (proxies (w_mgr (parse_lines strict mg lines))).
Proof.
  intros H. apply fold_parse_step_targets. simpl. rewrite H. constructor.
Qed.

Lemma placeholder_step_proxies existing mg t :
  proxies (placeholder_step existing mg t) = proxies mg \/
  exists i,
    proxies (placeholder_step existing mg t)
    = proxies mg ++ [new_ProxyEntry i t [] false [] []].
Proof.
  unfold placeholder_step.
  destruct (negb (mem_str t existing)); [|now left].
  destruct (negb (existsb _ (proxies mg))); [|now left].
  right. simpl. eexists. reflexivity.
Qed.

Lemma fold_placeholder_step_proxies existing types :
  forall mg,
    exists phs,
      proxies (fold_left (placeholder_step existing) types mg)
      = proxies mg ++ phs /\
      Forall (fun p => exists i t, In t types /\
                                   p = new_ProxyEntry i t [] false [] []) phs.
Proof.
  induction types as [|t types IH]; intros mg; simpl.
  - exists []. split; [now rewrite app_nil_r | constructor].
  - destruct (IH (placeholder_step existing mg t)) as (phs & E & Hall).
    assert (Hall' : Forall (fun p => exists i t0, (t = t0 \/ In t0 types) /\
                              p = new_ProxyEntry i t0 [] false [] []) phs).
    { eapply Forall_impl; [|exact Hall]. intros p (i & t0 & Hin & Ep). eauto. }
    destruct (placeholder_step_proxies existing mg t) as [E1 | (i & E1)];
      rewrite E1 in E.
    + exists phs. split; assumption.
    + exists (new_ProxyEntry i t [] false [] [] :: phs). split.
      * rewrite E, <- app_assoc. reflexivity.
      * constructor; [eauto | assumption].
Qed.

Lemma placeholders_added mg :
  exists phs,
    proxies (_add_placeholder_proxies_if_needed mg) = proxies mg ++ phs /\
    Forall is_placeholder phs.
Proof.
  unfold _add_placeholder_proxies_if_needed.
  destruct (fold_placeholder_step_proxies
              (map (fun p => upper (proxy_type p))
                 (filter has_url_or_name (proxies mg)))
              standard_types mg) as (phs & E & Hall).
  exists phs. split; [exact E|].
  eapply Forall_impl; [|exact Hall].
  intros p (i & t & Hin & ->). unfold is_placeholder. simpl.
  repeat split; try reflexivity.
  unfold standard_types in *. simpl in Hin.
  destruct Hin as [<-|[<-|[<-|[<-|[]]]]]; simpl; auto.
Qed.

(** What a load leaves in the entry list: the entries parsed from the
    lines actually processed, then placeholders. *)
Lemma load_proxies_split mg fs :
  exists parsed phs,
    proxies (snd (fst (load_proxies_from_conf mg fs))) = parsed ++ phs /\
    Forall (fun p => url p <> []) parsed /\ Forall is_placeholder phs.
Proof.
  unfold load_proxies_from_conf.
  destruct (file fs) as [content|] eqn:Ef.
  - destruct (negb (can_read fs)).
    + exists [], []. simpl. repeat split; constructor.
    + assert (Hx : exists l b m f,
                correction_pass (mkProxyManager [] 0 [] (is_some (Some content)))
                  fs (readlines content) = (l, b, m, f) /\ proxies m = []).
      { unfold correction_pass.
        destruct (can_write_to_conf fs && _); [|eauto 10].
        destruct (any_line_changed_in_memory _); [|eauto 10].
        destruct (create_backup fs _) as [[] fsb]; [|eauto 10].
        destruct (write_all fsb _) as [[] fsw]; eauto 10. }
      destruct Hx as (l & b & m0 & f & -> & Hm0).
      cbv beta iota. simpl.
      destruct (placeholders_added (w_mgr (parse_lines b m0 l)))
        as (phs & E & Hph).
      exists (proxies (w_mgr (parse_lines b m0 l))), phs.
      split; [exact E|]. split; [|exact Hph].
      now apply parse_lines_targets.
  - simpl.
    destruct (placeholders_added (mkProxyManager [] 0 [] false))
      as (phs & E & Hph).
    exists [], phs. split; [exact E|]. split; [constructor | exact Hph].
Qed.

(** C9: every entry the parser materialises from a directive line has a
    non-empty target, and after any load an entry with an empty target is
    a synthesized placeholder (a standard kind, disabled, no label). *)
Theorem empty_target_only_in_placeholders
    (mg : ProxyManager) (fs : filesys) (strict : bool) (lines : list str)
    (p : ProxyEntry) :
  (In p (proxies (w_mgr (parse_lines strict new_ProxyManager lines))) ->
   url p <> []) /\
  (In p (proxies (snd (fst (load_proxies_from_conf mg fs)))) ->
   url p = [] -> is_placeholder p).
Proof.
  split.
  - intros Hin.
    pose proof (@parse_lines_targets strict new_ProxyManager lines eq_refl) as H.
    rewrite Forall_forall in H. now apply H.
  - intros Hin Hurl.
    destruct (load_proxies_split mg fs) as (parsed & phs & E & Hp & Hph).
    rewrite E in Hin. apply in_app_or in Hin as [Hin|Hin].
    + rewrite Forall_forall in Hp. exfalso. now apply (Hp p Hin).
    + rewrite Forall_forall in Hph. now apply Hph.
Qed.

Lemma empty_target_only_in_placeholders_witness :
  is_placeholder (new_ProxyEntry 1 (lit "HTTP") [] false [] []).
Proof.
  apply (proj2 (empty_target_only_in_placeholders new_ProxyManager
                  (plain_fs (Some [])) false []
                  (new_ProxyEntry 1 (lit "HTTP") [] false [] []))).
  - vm_compute. auto.
  - reflexivity.
Defined.

(** ** Lines the walk does not take for a directive (C6, C10) *)

Lemma not_comment_not_annotation s :
  startswith [HASH] s = false -> re_match name_comment_parser s = None.
Proof.
  intros H. destruct (re_match name_comment_parser s) as [c|] eqn:E;
    [|reflexivity].
  apply re_match_run in E as (s' & Hr).
  apply name_comment_run_head in Hr as (t & ->). discriminate H.
Qed.

Lemma contains_nonempty (s : str) :
  contains (lit "::Proxy") s = true -> nonempty s = true.
Proof. destruct s; [discriminate | reflexivity]. Qed.

(** A comment line that matches neither pattern only joins the buffer. *)
Lemma parse_step_ordinary_comment strict w n line :
  ordinary_comment strict line ->
  parse_step strict w (n, line)
  = mkWalk (w_mgr w) (last_seen_name w)
      (collected_original_lines_for_entry w ++ [line]).
Proof.
  intros (Hc & Hn & Hp). unfold parse_step. rewrite Hn, Hp, Hc.
  destruct (strip line) as [|x t] eqn:Es; [discriminate Hc|].
  reflexivity.
Qed.

Lemma fold_ordinary_comments strict comments :
  forall w,
    Forall (fun nl => ordinary_comment strict (snd nl)) comments ->
    fold_left (parse_step strict) comments w
    = mkWalk (w_mgr w) (last_seen_name w)
        (collected_original_lines_for_entry w ++ map snd comments).
Proof.
  induction comments as [|[n line] comments IH]; intros w H;
    cbn [fold_left map snd].
  - rewrite app_nil_r. now destruct w.
  - inversion H; subst. rewrite parse_step_ordinary_comment by assumption.
    rewrite IH by assumption. simpl. rewrite <- app_assoc. reflexivity.
Qed.

(** What a directive line does to the walk. *)
Lemma parse_step_directive strict w n line :
  directive_shape strict (strip line) ->
  exists p,
    parse_step strict w (n, line)
    = mkWalk (mkProxyManager (proxies (w_mgr w) ++ [p]) (S (next_id (w_mgr w)))
                (initial_syntax_error (w_mgr w)) (apt_conf_exists (w_mgr w)))
        None [] /\
    id p = S (next_id (w_mgr w)) /\
    name p = match last_seen_name w with Some l => l | None => [] end /\
    url p <> [] /\
    original_lines p = collected_original_lines_for_entry w ++ [line].
Proof.
  intros Hs. unfold parse_step. rewrite (directive_not_annotation Hs).
  pose proof (directive_shape_re_match Hs) as Hm.
  destruct (re_match (proxy_parser strict) (strip line)) as [pc|] eqn:Ep;
    [|contradiction].
  eexists. split; [reflexivity|]. simpl. repeat split.
  destruct (@re_match_directive_shape strict (strip line) pc)
    as (_ & Hne & Hsome); [intros u y; apply strip_last | exact Ep |].
  unfold group. destruct (pc 3) as [v|]; [|contradiction].
  intros ->. contradiction.
Qed.

(** C6, as amended: a line that contains the directive keyword and fails
    the directive pattern gets a malformed-line diagnostic, and resets the
    pending label and the raw-line buffer, when it does not begin with the
    comment marker; when it is a comment line (and not an annotation) no
    diagnostic is recorded and nothing is reset: the label stays pending
    and the line joins the buffer. *)
Theorem malformed_line_diagnostic
    (strict : bool) (w : walk) (n : nat) (line : str) :
  re_match (proxy_parser strict) (strip line) = None ->
  contains (lit "::Proxy") (strip line) = true ->
  (startswith [HASH] (strip line) = false ->
   parse_step strict w (n, line)
   = mkWalk (add_error (w_mgr w) (Malformed (n + 1) (firstn 70 (strip line))))
       None []) /\
  (startswith [HASH] (strip line) = true ->
   re_match name_comment_parser (strip line) = None ->
   parse_step strict w (n, line)
   = mkWalk (w_mgr w) (last_seen_name w)
       (collected_original_lines_for_entry w ++ [line])).
Proof.
  intros Hp Hk. split.
  - intros Hc. unfold parse_step.
    rewrite (not_comment_not_annotation _ Hc), Hp, Hc, Hk.
    rewrite (contains_nonempty _ Hk). reflexivity.
  - intros Hc Hn. apply parse_step_ordinary_comment. repeat split; assumption.
Qed.

Lemma malformed_line_diagnostic_witness :
  parse_step false walk_after_annotation
    (1, lit "Acquire::SOCKS::Proxy BADSYNTAX")
  = mkWalk (add_error (w_mgr walk_after_annotation)
              (Malformed 2 (lit "Acquire::SOCKS::Proxy BADSYNTAX")))
      None [].
Proof.
  apply (proj1 (@malformed_line_diagnostic false walk_after_annotation 1
                  (lit "Acquire::SOCKS::Proxy BADSYNTAX")
                  eq_refl eq_refl)).
  reflexivity.
Defined.

(** C6 as stated fails: a comment line that contains the directive keyword
    and fails the directive pattern records no diagnostic and leaves the
    pending label in place. *)
Lemma commented_malformed_line_is_silent :
  startswith [HASH] (strip broken_commented_directive) = true /\
  contains (lit "::Proxy") (strip broken_commented_directive) = true /\
  matches (proxy_parser false) (strip broken_commented_directive) = false /\
  matches (proxy_parser true) (strip broken_commented_directive) = false /\
  let w' := parse_step false walk_after_annotation
              (1, broken_commented_directive) in
  initial_syntax_error (w_mgr w') = [] /\
  last_seen_name w' = Some (lit "A") /\
  collected_original_lines_for_entry w'
  = [annotation_line; broken_commented_directive].
Proof. repeat split; vm_compute; reflexivity. Qed.

(** C10, as amended: comment lines that are neither annotations nor
    directives leave the pending label unchanged and do not reset the
    raw-line buffer, which grows by each such line; so a directive that
    follows them still takes the pending label, and its source lines are
    the buffer, the comment lines and the directive line. *)
Theorem comment_lines_keep_annotation
    (strict : bool) (w : walk) (comments : list (nat * str)) (n : nat)
    (directive label : str) :
  Forall (fun nl => ordinary_comment strict (snd nl)) comments ->
  last_seen_name w = Some label ->
  directive_shape strict (strip directive) ->
  fold_left (parse_step strict) comments w
  = mkWalk (w_mgr w) (Some label)
      (collected_original_lines_for_entry w ++ map snd comments) /\
  exists p,
    proxies (w_mgr (parse_step strict
                      (fold_left (parse_step strict) comments w)
                      (n, directive)))
    = proxies (w_mgr w) ++ [p] /\
    name p = label /\
    original_lines p
    = collected_original_lines_for_entry w ++ map snd comments ++ [directive].
Proof.
  intros Hc Hl Hd. rewrite (fold_ordinary_comments w Hc), Hl.
  split; [reflexivity|].
  destruct (@parse_step_directive strict
              (mkWalk (w_mgr w) (Some label)
                 (collected_original_lines_for_entry w ++ map snd comments))
              n directive Hd) as (p & E & _ & Hn & _ & Ho).
  exists p. rewrite E. simpl in *. rewrite <- app_assoc in Ho. auto.
Qed.

(** C10 as stated fails for the buffer: an ordinary comment line is
    appended to it. *)
Lemma comment_line_grows_buffer :
  startswith [HASH] (strip plain_comment) = true /\
  matches name_comment_parser (strip plain_comment) = false /\
  matches (proxy_parser false) (strip plain_comment) = false /\
  let w' := parse_step false walk_after_annotation (1, plain_comment) in
  last_seen_name w' = last_seen_name walk_after_annotation /\
  collected_original_lines_for_entry walk_after_annotation = [annotation_line] /\
  collected_original_lines_for_entry w' = [annotation_line; plain_comment].
Proof. repeat split; vm_compute; reflexivity. Qed.

Lemma canonical_http_line_shape strict :
  directive_shape strict (strip canonical_http_line).
Proof.
  exists [], (lit "Acquire::"), (lit "HTTP"), (lit "::Proxy"), [SPACE],
    (lit "x"), [], [].
  split; [reflexivity|]. split.
  - unfold core_shape. repeat split; try reflexivity; discriminate.
  - split; [reflexivity | auto].
Qed.

Lemma plain_comment_ordinary strict : ordinary_comment strict plain_comment.
Proof. destruct strict; repeat split; vm_compute; reflexivity. Qed.

Lemma comment_lines_keep_annotation_witness :
  exists p,
    proxies (w_mgr (parse_step false
                      (fold_left (parse_step false) [(1, plain_comment)]
                         walk_after_annotation)
                      (2, canonical_http_line)))
    = proxies (w_mgr walk_after_annotation) ++ [p] /\
    name p = lit "A" /\
    original_lines p
    = collected_original_lines_for_entry walk_after_annotation
        ++ map snd [(1, plain_comment)] ++ [canonical_http_line].
Proof.
  apply (proj2 (@comment_lines_keep_annotation false walk_after_annotation
                  [(1, plain_comment)] 2 canonical_http_line (lit "A")
                  (@Forall_cons _
                     (fun nl : nat * str => ordinary_comment false (snd nl))
                     (1, plain_comment) [] (plain_comment_ordinary false)
                     (Forall_nil _))
                  eq_refl (canonical_http_line_shape false))).
Defined.

(** ** The whitespace corrector (C7) *)

Lemma str_eqb_eq (a b : str) : str_eqb a b = true -> a = b.
Proof.
  revert b. induction a as [|x a IH]; intros [|y b] H; simpl in H;
    try discriminate; [reflexivity|].
  apply andb_true_iff in H as [Hx Hab]. apply Ascii.eqb_eq in Hx.
  f_equal; auto.
Qed.

Lemma correction_pattern_run s c s' c' :
  run correction_pattern s c s' c' ->
  exists mk kw1 kind kw2 sp1 target sp sp2,
    s = core_text mk kw1 kind kw2 sp1 target ++ sp ++ [SEMI] ++ sp2 ++ s' /\
    core_shape mk kw1 kind kw2 sp1 target /\
    sp <> [] /\ forallb is_space sp = true /\
    c' 1 = Some (core_text mk kw1 kind kw2 sp1 target) /\
    c' 2 = Some sp.
Proof.
  intros H. unfold correction_pattern, seqs in H. cbn [fold_right] in H.
  apply run_Seq_inv in H as (s1 & c1 & Hcore & H).
  apply run_Seq_inv in H as (s2 & c2 & Hsp & H).
  apply run_Seq_inv in H as (s3 & c3 & Hsemi & H).
  apply run_Seq_inv in H as (s4 & c4 & Heol & H).
  apply run_Eps_inv in H as (Ec & Es). subst c4 s4.
  apply run_Eol_inv in Heol as (Ec & Es & _). subst c3 s3.
  apply run_Grp_inv in Hsemi as (c3 & Hsemi & Ec). subst c'.
  apply run_Seq_inv in Hsemi as (t1 & d1 & Hsemi & Hsp2).
  apply run_Chr_inv in Hsemi as (-> & x & -> & Hx). apply ci_eqb_SEMI in Hx.
  subst x.
  apply run_Star_inv in Hsp2 as (-> & sp2 & -> & Hsp2).
  apply run_Grp_inv in Hsp as (cs & Hsp & ->).
  apply run_Plus_inv in Hsp as (-> & sp & -> & Hspn & Hsp).
  apply run_Grp_inv in Hcore as (cc & Hcore & ->).
  apply run_Seq_inv in Hcore as (u1 & e1 & Hmk & Hcore).
  apply run_Seq_inv in Hcore as (u2 & e2 & Hkw1 & Hcore).
  apply run_Seq_inv in Hcore as (u3 & e3 & Hkind & Hcore).
  apply run_Seq_inv in Hcore as (u4 & e4 & Hkw2 & Hcore).
  apply run_Seq_inv in Hcore as (u5 & e5 & Hsp1 & Hcore).
  apply run_Seq_inv in Hcore as (u6 & e6 & Hq1 & Hcore).
  apply run_Seq_inv in Hcore as (u7 & e7 & Htg & Hcore).
  apply run_Seq_inv in Hcore as (u8 & e8 & Hq2 & Hcore).
  apply run_Eps_inv in Hcore as (Ec & Es). subst e8 u8.
  apply run_Chr_inv in Hq2 as (-> & q2 & -> & Hq2). apply ci_eqb_QUOTE in Hq2.
  subst q2.
  apply run_Plus_inv in Htg as (-> & target & -> & Htgn & Htg).
  apply run_Chr_inv in Hq1 as (-> & q1 & -> & Hq1). apply ci_eqb_QUOTE in Hq1.
  subst q1.
  apply run_Plus_inv in Hsp1 as (-> & sp1 & -> & Hsp1n & Hsp1).
  apply run_Lit_inv in Hkw2 as (-> & kw2 & -> & Hkw2).
  apply run_kind_alt_inv in Hkind as (-> & kind & -> & Hkind).
  apply run_Lit_inv in Hkw1 as (-> & kw1 & -> & Hkw1).
  assert (Hm : exists mk,
             s = mk ++ kw1 ++ kind ++ kw2 ++ sp1 ++ QUOTE :: target
                   ++ QUOTE :: sp ++ SEMI :: sp2 ++ s'
             /\ is_mark mk = true).
  { apply run_Opt_inv in Hmk as [Hmk | [E _]].
    - apply run_comment_mark_inv in Hmk as (_ & mk & -> & _ & Hmark).
      now exists mk.
    - exists []. split; [symmetry; exact E | reflexivity]. }
  destruct Hm as (mk & -> & Hmark).
  exists mk, kw1, kind, kw2, sp1, target, sp, sp2.
  assert (Ecore : forall t,
             mk ++ kw1 ++ kind ++ kw2 ++ sp1 ++ QUOTE :: target ++ QUOTE :: t
             = core_text mk kw1 kind kw2 sp1 target ++ t).
  { intros t. unfold core_text. rewrite <- !app_assoc. reflexivity. }
  rewrite !Ecore. rewrite !firstn_prefix.
  split; [reflexivity|]. split; [unfold core_shape; auto 10|].
  split; [assumption|]. split; [assumption|].
  unfold set_cap. simpl. split; reflexivity.
Qed.

Lemma is_space_not_quote x : is_space x = true -> not_quote x = true.
Proof.
  intros H. unfold not_quote. destruct (Ascii.eqb x QUOTE) eqn:E;
    [|reflexivity].
  apply Ascii.eqb_eq in E. subst x. discriminate H.
Qed.

Lemma forallb_space_not_quote (s : str) :
  forallb is_space s = true -> forallb not_quote s = true.
Proof.
  intros H. rewrite forallb_forall in *. intros x Hx.
  apply is_space_not_quote. now apply H.
Qed.

(** A text equal, up to case, to a word without a quote has no quote. *)
Lemma ci_str_not_quote (w s : str) :
  forallb (fun a => negb (ci_eqb a QUOTE)) w = true ->
  ci_str w s = true -> forallb not_quote s = true.
Proof.
  revert s. induction w as [|a w IH]; intros [|x s] Hw H; simpl in *;
    try discriminate; [reflexivity|].
  apply andb_true_iff in Hw as [Ha Hw]. apply andb_true_iff in H as [Hx H].
  rewrite (IH s Hw H), andb_true_r.
  unfold not_quote. destruct (Ascii.eqb x QUOTE) eqn:E; [|reflexivity].
  apply Ascii.eqb_eq in E. subst x. rewrite Hx in Ha. discriminate Ha.
Qed.

Lemma is_mark_not_quote mk : is_mark mk = true -> forallb not_quote mk = true.
Proof.
  destruct mk as [|x ws]; [reflexivity|]. simpl. intros H.
  apply andb_true_iff in H as [Hx Hws]. apply Ascii.eqb_eq in Hx. subst x.
  simpl. now apply forallb_space_not_quote.
Qed.

Lemma kind_word_not_quote kind :
  is_kind_word kind = true -> forallb not_quote kind = true.
Proof.
  unfold is_kind_word. intros H. apply existsb_exists in H as (w & Hw & Hci).
  apply (ci_str_not_quote w); [|assumption].
  unfold standard_types in Hw. simpl in Hw.
  destruct Hw as [<-|[<-|[<-|[<-|[]]]]]; reflexivity.
Qed.

Lemma core_head_not_quote mk kw1 kind kw2 sp1 target :
  core_shape mk kw1 kind kw2 sp1 target ->
  forallb not_quote (mk ++ kw1 ++ kind ++ kw2 ++ sp1) = true.
Proof.
  intros (Hmk & Hkw1 & Hkind & Hkw2 & _ & Hsp1 & _).
  rewrite !forallb_app.
  rewrite (is_mark_not_quote _ Hmk), (kind_word_not_quote _ Hkind),
    (forallb_space_not_quote _ Hsp1).
  rewrite (ci_str_not_quote (lit "Acquire::") kw1 eq_refl Hkw1).
  rewrite (ci_str_not_quote (lit "::Proxy") kw2 eq_refl Hkw2).
  reflexivity.
Qed.

(** Two splittings of a text at its first quote agree. *)
Lemma split_at_quote (a a' b b' : str) :
  forallb not_quote a = true -> forallb not_quote a' = true ->
  a ++ QUOTE :: b = a' ++ QUOTE :: b' -> a = a' /\ b = b'.
Proof.
  revert a'. induction a as [|x a IH]; intros [|y a'] Ha Ha' E; simpl in *.
  - inversion E. auto.
  - inversion E; subst. discriminate Ha'.
  - inversion E; subst. discriminate Ha.
  - inversion E; subst.
    apply andb_true_iff in Ha as [_ Ha]. apply andb_true_iff in Ha' as [_ Ha'].
    destruct (IH a' Ha Ha' H1) as [-> ->]. auto.
Qed.

(** The text up to the closing quote is determined by the line. *)
Lemma core_text_unique mk kw1 kind kw2 sp1 target t
      mk' kw1' kind' kw2' sp1' target' t' :
  core_shape mk kw1 kind kw2 sp1 target ->
  core_shape mk' kw1' kind' kw2' sp1' target' ->
  core_text mk kw1 kind kw2 sp1 target ++ t
  = core_text mk' kw1' kind' kw2' sp1' target' ++ t' ->
  core_text mk kw1 kind kw2 sp1 target
  = core_text mk' kw1' kind' kw2' sp1' target' /\ t = t'.
Proof.
  intros Hc Hc' E.
  pose proof (core_head_not_quote Hc) as Hh.
  pose proof (core_head_not_quote Hc') as Hh'.
  destruct Hc as (_ & _ & _ & _ & _ & _ & _ & Htg).
  destruct Hc' as (_ & _ & _ & _ & _ & _ & _ & Htg').
  assert (R : forall m k1 k k2 s1 tg u,
             core_text m k1 k k2 s1 tg ++ u
             = (m ++ k1 ++ k ++ k2 ++ s1) ++ QUOTE :: tg ++ QUOTE :: u).
  { intros. unfold core_text. rewrite <- !app_assoc. reflexivity. }
  rewrite !R in E.
  apply split_at_quote in E as [E1 E2]; [|assumption|assumption].
  apply split_at_quote in E2 as [E2 E3]; [|assumption|assumption].
  split; [|assumption].
  rewrite <- (app_nil_r (core_text mk kw1 kind kw2 sp1 target)).
  rewrite <- (app_nil_r (core_text mk' kw1' kind' kw2' sp1' target')).
  rewrite !R, E1, E2. reflexivity.
Qed.

(** A line ending right after the closing quote and a semicolon is not
    matched by the correction pattern. *)
Lemma corrected_segment_no_match mk kw1 kind kw2 sp1 target :
  core_shape mk kw1 kind kw2 sp1 target ->
  re_match correction_pattern (core_text mk kw1 kind kw2 sp1 target ++ [SEMI])
  = None.
Proof.
  intros Hc.
  destruct (re_match correction_pattern _) as [c|] eqn:E; [|reflexivity].
  exfalso. apply re_match_run in E as (s' & Hr).
  apply correction_pattern_run in Hr
    as (mk' & kw1' & kind' & kw2' & sp1' & target' & sp & sp2 & E & Hc'
        & Hspn & Hsp & _).
  apply core_text_unique in E as [_ E]; [|assumption|assumption].
  destruct sp as [|x sp]; [contradiction|].
  inversion E; subst. discriminate Hsp.
Qed.

Lemma rstrip_crlf_semi_lf (u : str) : rstrip_crlf (u ++ [SEMI; LF]) = u ++ [SEMI].
Proof.
  unfold rstrip_crlf, rstrip_with. rewrite rev_app_distr. simpl.
  rewrite rev_involutive. reflexivity.
Qed.

(** What the corrector does to one line. *)
Lemma correct_line_cases (l : str) :
  (re_match correction_pattern (rstrip_crlf l) = None /\
   correct_line l = (l, false)) \/
  (exists mk kw1 kind kw2 sp1 target rest,
     core_shape mk kw1 kind kw2 sp1 target /\
     rstrip_crlf l = core_text mk kw1 kind kw2 sp1 target ++ rest /\
     rest <> [] /\
     correct_line l
     = (core_text mk kw1 kind kw2 sp1 target ++ [SEMI; LF], true)).
Proof.
  unfold correct_line.
  destruct (re_match correction_pattern (rstrip_crlf l)) as [c|] eqn:E;
    [right | left; auto].
  apply re_match_run in E as (s' & Hr).
  apply correction_pattern_run in Hr
    as (mk & kw1 & kind & kw2 & sp1 & target & sp & sp2 & E & Hc
        & Hspn & Hsp & H1 & H2).
  exists mk, kw1, kind, kw2, sp1, target, (sp ++ [SEMI] ++ sp2 ++ s').
  split; [assumption|]. split; [assumption|].
  destruct sp as [|x sp]; [contradiction|]. split; [discriminate|].
  unfold group. rewrite H1, H2. simpl nonempty. cbv iota.
  destruct (str_eqb (rstrip_crlf l) _) eqn:Eq.
  - exfalso. apply str_eqb_eq in Eq. rewrite E in Eq.
    apply app_inv_head in Eq. inversion Eq; subst. discriminate Hsp.
  - simpl. rewrite <- app_assoc. reflexivity.
Qed.

Lemma correct_line_fixed (l : str) :
  re_match correction_pattern (rstrip_crlf (fst (correct_line l))) = None /\
  correct_line (fst (correct_line l)) = (fst (correct_line l), false).
Proof.
  destruct (correct_line_cases l)
    as [[Hn E] | (mk & kw1 & kind & kw2 & sp1 & target & rest & Hc & _ & _
                  & E)];
    rewrite E; simpl fst.
  - split; [assumption | exact E].
  - assert (Hn : re_match correction_pattern
                   (rstrip_crlf (core_text mk kw1 kind kw2 sp1 target
                                   ++ [SEMI; LF])) = None).
    { rewrite rstrip_crlf_semi_lf. now apply corrected_segment_no_match. }
    split; [assumption|]. unfold correct_line. rewrite Hn. reflexivity.
Qed.

(** C7: on lines the corrector has already corrected, the correction
    pattern matches no line, no line is reported changed, and the corrector
    returns the lines as they are: the second run rewrites nothing. *)
Theorem correction_idempotent (lines : list str) :
  Forall (fun l => re_match correction_pattern (rstrip_crlf l) = None)
    (temp_corrected_lines lines) /\
  any_line_changed_in_memory (temp_corrected_lines lines) = false /\
  temp_corrected_lines (temp_corrected_lines lines)
  = temp_corrected_lines lines.
Proof.
  unfold temp_corrected_lines, any_line_changed_in_memory.
  induction lines as [|l lines (IH1 & IH2 & IH3)]; simpl.
  - repeat split. constructor.
  - destruct (correct_line_fixed l) as [Hn Hf]. repeat split.
    + constructor; assumption.
    + rewrite Hf. simpl. exact IH2.
    + rewrite Hf. simpl. f_equal. exact IH3.
Qed.

(** The first run does correct a defective line. *)
Example corrector_corrects :
  temp_corrected_lines [defective_line]
  = [lit "Acquire::HTTPS::Proxy " ++ [QUOTE] ++ lit "https://p:443"
       ++ [QUOTE] ++ [SEMI; LF]] /\
  any_line_changed_in_memory [defective_line] = true.
Proof. split; vm_compute; reflexivity. Qed.

(** ** Uniqueness of the enabled entry at the edit boundary (C8) *)

Lemma str_eqb_refl (a : str) : str_eqb a a = true.
Proof.
  induction a as [|x a IH]; simpl; [reflexivity|].
  now rewrite Ascii.eqb_refl, IH.
Qed.

Lemma filter_hit_length {T : Type} (f : T -> bool) (l : list T) (x : T) :
  In x l -> f x = true -> Nat.eqb (length (filter f l)) 0 = false.
Proof.
  intros Hin Hf.
  assert (Hx : In x (filter f l)) by (apply filter_In; auto).
  destruct (filter f l); [contradiction | reflexivity].
Qed.

(** The uniqueness check reports a conflict when another enabled entry of
    the kind exists. *)
Lemma unique_check_conflict mg ptype current existing :
  In existing (proxies mg) ->
  enabled existing = true ->
  upper (proxy_type existing) = upper ptype ->
  match current with None => True | Some i => id existing <> i end ->
  is_proxy_type_unique mg ptype current = false.
Proof.
  intros Hin Hen Hty Hid. unfold is_proxy_type_unique.
  apply (filter_hit_length _ _ existing Hin).
  rewrite Hty, str_eqb_refl, Hen. simpl.
  destruct current as [i|]; [|reflexivity].
  apply negb_true_iff. now apply Nat.eqb_neq.
Qed.

Lemma validate_conflict mg current v existing :
  In existing (proxies mg) ->
  enabled existing = true ->
  upper (proxy_type existing) = upper (upper (strip (proxy_type_var v))) ->
  match current with None => True | Some i => id existing <> i end ->
  enabled_var v = true ->
  validate (Some mg) current v = false.
Proof.
  intros Hin Hen Hty Hid Hv. unfold validate.
  rewrite (unique_check_conflict mg _ current existing Hin Hen Hty Hid), Hv.
  simpl.
  destruct (contains NAME_COMMENT_PREFIX _); [reflexivity|].
  destruct (negb (nonempty _)); [reflexivity|].
  destruct (negb (nonempty _) && true); [reflexivity|].
  destruct (contains [SPACE] _); reflexivity.
Qed.

(** C8: when the entry list already holds an enabled entry of some kind,
    asking at the edit boundary for another enabled entry of that kind,
    by adding one or by editing a different entry, fails validation on
    the uniqueness check and leaves the manager as it was; the model
    operation [add_proxy] itself appends the second enabled entry without
    any check. *)
Theorem enabled_unique_at_edit_boundary
    (mg : ProxyManager) (existing : ProxyEntry) (v : dialog_vars)
    (is_read_only : bool) :
  In existing (proxies mg) ->
  enabled existing = true ->
  upper (proxy_type existing) = upper (upper (strip (proxy_type_var v))) ->
  enabled_var v = true ->
  (is_proxy_type_unique mg (upper (strip (proxy_type_var v))) None = false /\
   validate (Some mg) None v = false /\
   add_new_proxy_dialog is_read_only mg v = mg) /\
  (forall sid other,
     get_proxy_by_id mg sid = Some other -> id other <> id existing ->
     validate (Some mg) (Some (id other)) v = false /\
     edit_selected_proxy_dialog is_read_only mg (Some sid) v = mg) /\
  (forall nm u,
     proxies (snd (add_proxy mg nm (proxy_type existing) u true))
     = proxies mg
       ++ [mkProxyEntry (S (next_id mg)) (upper (proxy_type existing)) u true
             nm []]).
Proof.
  intros Hin Hen Hty Hv. split; [|split].
  - pose proof (validate_conflict mg None v existing Hin Hen Hty I Hv) as Hval.
    split; [now apply (unique_check_conflict mg _ None existing)|].
    split; [exact Hval|].
    unfold add_new_proxy_dialog, dialog_result. rewrite Hval.
    now destruct is_read_only.
  - intros sid other Hget Hne.
    assert (Hval : validate (Some mg) (Some (id other)) v = false).
    { apply (validate_conflict mg (Some (id other)) v existing); auto. }
    split; [exact Hval|].
    unfold edit_selected_proxy_dialog, dialog_result. rewrite Hget, Hval.
    now destruct is_read_only.
  - intros nm u. reflexivity.
Qed.

Lemma enabled_unique_at_edit_boundary_witness :
  validate (Some one_http_enabled) None second_http_request = false /\
  add_new_proxy_dialog false one_http_enabled second_http_request
  = one_http_enabled.
Proof.
  pose proof (@enabled_unique_at_edit_boundary one_http_enabled
                (new_ProxyEntry 1 (lit "HTTP") (lit "old") true [] [])
                second_http_request false
                (or_introl eq_refl) eq_refl eq_refl eq_refl) as H.
  destruct H as ((_ & Hv & Ha) & _). split; assumption.
Defined.

(** ** Reading back what was written *)

Lemma universal_newlines_no_cr (s : str) :
  forallb not_cr (universal_newlines s) = true.
Proof.
  assert (G : forall n s, length s <= n ->
                forallb not_cr (universal_newlines s) = true).
  { induction n as [|n IH]; intros [|c t] Hl; try reflexivity;
      cbn [length] in Hl; try lia.
    cbn [universal_newlines].
    destruct (Ascii.eqb c CR) eqn:Ec.
    - destruct t as [|d t']; [reflexivity|].
      destruct (Ascii.eqb d LF);
        change (forallb not_cr (LF :: ?x)) with (forallb not_cr x);
        apply IH; cbn [length] in *; lia.
    - cbn [forallb]. unfold not_cr at 1. rewrite Ec. apply IH. lia. }
  apply (G (length s)). lia.
Qed.

Lemma universal_newlines_id (s : str) :
  forallb not_cr s = true -> universal_newlines s = s.
Proof.
  induction s as [|c t IH]; simpl; [reflexivity|].
  intros H. apply andb_true_iff in H as [Hc Ht].
  unfold not_cr in Hc. apply negb_true_iff in Hc. rewrite Hc.
  f_equal. now apply IH.
Qed.

Lemma split_lines_complete (body rest : str) :
  forallb not_newline body = true ->
  split_lines (body ++ LF :: rest) = (body ++ [LF]) :: split_lines rest.
Proof.
  induction body as [|c body IH]; simpl; intros H.
  - reflexivity.
  - apply andb_true_iff in H as [Hc Hb].
    unfold not_newline in Hc. apply negb_true_iff in Hc. rewrite Hc.
    rewrite (IH Hb). reflexivity.
Qed.

Lemma split_lines_open (l : str) :
  l <> [] -> forallb not_newline l = true -> split_lines l = [l].
Proof.
  induction l as [|c l IH]; intros Hne H; [contradiction|].
  simpl in *. apply andb_true_iff in H as [Hc Hl].
  unfold not_newline in Hc. apply negb_true_iff in Hc. rewrite Hc.
  destruct l as [|d l']; [reflexivity|].
  rewrite IH; [reflexivity | discriminate | assumption].
Qed.

Lemma split_lines_concat (ls : list str) :
  file_lines ls -> split_lines (concat ls) = ls.
Proof.
  induction ls as [|l rest IH]; intros H; [reflexivity|].
  simpl in H. destruct rest as [|l2 rest'].
  - simpl. rewrite app_nil_r. destruct H as [(body & -> & Hb) | [Hne Hl]].
    + now rewrite split_lines_complete.
    + now apply split_lines_open.
  - destruct H as [(body & -> & Hb) Hrest].
    change (concat ((body ++ [LF]) :: l2 :: rest'))
      with ((body ++ [LF]) ++ concat (l2 :: rest')).
    rewrite <- app_assoc. simpl app at 2.
    rewrite split_lines_complete by assumption. f_equal. now apply IH.
Qed.

Lemma split_lines_file_lines (s : str) : file_lines (split_lines s).
Proof.
  induction s as [|c t IH]; simpl; [exact I|].
  destruct (Ascii.eqb c LF) eqn:Ec.
  - apply Ascii.eqb_eq in Ec. subst c.
    assert (Hc : complete_line [LF]) by (exists []; split; reflexivity).
    simpl. destruct (split_lines t); [now left | split; assumption].
  - assert (Hn : not_newline c = true) by (unfold not_newline; now rewrite Ec).
    destruct (split_lines t) as [|l ls]; simpl.
    + right. split; [discriminate | simpl; now rewrite Hn].
    + simpl in IH. destruct ls as [|l2 ls'].
      * destruct IH as [(body & -> & Hb) | [Hne Hl]].
        -- left. exists (c :: body). split; [reflexivity|].
           simpl. now rewrite Hn.
        -- right. split; [discriminate | simpl; now rewrite Hn].
      * destruct IH as [(body & -> & Hb) Hrest]. split; [|assumption].
        exists (c :: body). split; [reflexivity|]. simpl. now rewrite Hn.
Qed.

Lemma concat_split_lines (s : str) : concat (split_lines s) = s.
Proof.
  induction s as [|c t IH]; simpl; [reflexivity|].
  destruct (Ascii.eqb c LF); simpl; [now rewrite IH|].
  destruct (split_lines t) as [|l ls]; simpl in *.
  - now subst t.
  - now rewrite IH.
Qed.

Lemma forallb_concat_inv (p : ascii -> bool) (ls : list str) :
  forallb p (concat ls) = true -> Forall (fun l => forallb p l = true) ls.
Proof.
  induction ls as [|l ls IH]; simpl; intros H; [constructor|].
  rewrite forallb_app in H. apply andb_true_iff in H as [Hl Hls].
  constructor; auto.
Qed.

Lemma forallb_concat (p : ascii -> bool) (ls : list str) :
  Forall (fun l => forallb p l = true) ls -> forallb p (concat ls) = true.
Proof.
  induction 1; simpl; [reflexivity|].
  rewrite forallb_app. now rewrite H, IHForall.
Qed.

Lemma readlines_no_cr (content : str) :
  Forall (fun l => forallb not_cr l = true) (readlines content).
Proof.
  apply forallb_concat_inv. unfold readlines. rewrite concat_split_lines.
  apply universal_newlines_no_cr.
Qed.

(** Lines that came from a file are read back as they are once written. *)
Lemma readlines_concat (ls : list str) :
  file_lines ls -> Forall (fun l => forallb not_cr l = true) ls ->
  readlines (concat ls) = ls.
Proof.
  intros Hf Hc. unfold readlines.
  rewrite universal_newlines_id by now apply forallb_concat.
  now apply split_lines_concat.
Qed.

Lemma universal_newlines_app (a b : str) :
  forallb not_cr a = true ->
  universal_newlines (a ++ b) = a ++ universal_newlines b.
Proof.
  induction a as [|c a IH]; intros H; [reflexivity|].
  cbn [forallb] in H. apply andb_true_iff in H as [Hc Ha].
  unfold not_cr in Hc. apply negb_true_iff in Hc.
  cbn [app universal_newlines]. rewrite Hc. f_equal. now apply IH.
Qed.

Lemma split_lines_app_complete (ls : list str) (t : str) :
  Forall complete_line ls ->
  split_lines (concat ls ++ t) = ls ++ split_lines t.
Proof.
  induction 1 as [|l ls (body & -> & Hb) _ IH]; [reflexivity|].
  cbn [concat]. rewrite <- !app_assoc. cbn [app].
  rewrite split_lines_complete by assumption. rewrite IH. reflexivity.
Qed.

(** Terminated lines written in front of any text are read back as they
    are, in order, before the lines of that text. *)
Lemma readlines_app_complete (ls : list str) (t : str) :
  Forall complete_line ls ->
  Forall (fun l => forallb not_cr l = true) ls ->
  readlines (concat ls ++ t) = ls ++ readlines t.
Proof.
  intros Hc Hcr. unfold readlines.
  rewrite universal_newlines_app by now apply forallb_concat.
  now apply split_lines_app_complete.
Qed.

Lemma Forall_filter {T : Type} (P : T -> Prop) (f : T -> bool) (l : list T) :
  Forall P l -> Forall P (filter f l).
Proof.
  induction 1; simpl; [constructor|]. destruct (f x); auto.
Qed.

(** ** The serializer (C2, C5) *)

Lemma create_backup_keeps fs suffix :
  file (snd (create_backup fs suffix)) = file fs /\
  can_read (snd (create_backup fs suffix)) = can_read fs /\
  write_fault (snd (create_backup fs suffix)) = write_fault fs.
Proof.
  unfold create_backup. destruct (file fs) eqn:E; [|auto].
  destruct (copy_ok fs); simpl; auto.
Qed.

Lemma other_lines_after_backup fs suffix :
  other_lines_to_preserve (snd (create_backup fs suffix))
  = other_lines_to_preserve fs.
Proof.
  unfold other_lines_to_preserve.
  destruct (create_backup_keeps fs suffix) as (-> & -> & _). reflexivity.
Qed.

(** A save that gets as far as writing issues [writes_of_save]. *)
Lemma save_unfold mg fs save_anyway :
  can_write_to_conf fs = true ->
  (fst (create_backup fs (lit "pre_manual_save")) = true \/ save_anyway = true) ->
  save_proxies_to_conf mg fs save_anyway
  = (fst (write_all (snd (create_backup fs (lit "pre_manual_save")))
            (writes_of_save mg fs)),
     set_exists mg (is_some (file fs)),
     snd (write_all (snd (create_backup fs (lit "pre_manual_save")))
            (writes_of_save mg fs))).
Proof.
  intros Hw Hb. unfold save_proxies_to_conf, writes_of_save. rewrite Hw.
  simpl negb. cbv iota.
  pose proof (other_lines_after_backup fs (lit "pre_manual_save")) as Ho.
  destruct (create_backup fs (lit "pre_manual_save")) as [b fsb]. simpl in *.
  assert (Hc : negb b && negb save_anyway = false).
  { destruct Hb as [-> | ->]; [reflexivity | apply andb_false_r]. }
  rewrite Hc, Ho.
  destruct (write_all fsb _) as [wr fsw]. reflexivity.
Qed.

Lemma write_all_true fs writes :
  fst (write_all fs writes) = true ->
  file (snd (write_all fs writes)) = Some (concat writes).
Proof.
  unfold write_all. destruct (write_fault fs) as [| |k]; simpl;
    try discriminate; reflexivity.
Qed.

Lemma save_true_inv mg fs save_anyway :
  fst (fst (save_proxies_to_conf mg fs save_anyway)) = true ->
  file (snd (save_proxies_to_conf mg fs save_anyway))
  = Some (complete_new_content mg fs).
Proof.
  intros H.
  destruct (can_write_to_conf fs) eqn:Hw.
  2:{ unfold save_proxies_to_conf in H. rewrite Hw in H. discriminate H. }
  assert (Hb : fst (create_backup fs (lit "pre_manual_save")) = true
               \/ save_anyway = true).
  { destruct (fst (create_backup fs (lit "pre_manual_save"))) eqn:Hb;
      [now left|]. destruct save_anyway; [now right|].
    unfold save_proxies_to_conf in H. rewrite Hw in H.
    destruct (create_backup fs (lit "pre_manual_save")) as [b fsb].
    cbn [fst] in Hb. subst b. discriminate H. }
  rewrite (save_unfold mg _ Hw Hb) in *. cbn [fst snd] in *.
  now apply write_all_true.
Qed.

(** C2 fails on the code.  The file holds a directive the corrector
    repairs, the line [Acquire::HTTP::Proxy "x"; foo] and the line [keep].
    The load saves the correction and reads strictly: it makes an entry
    for the repaired directive only and reports line 2 as malformed, so
    line 2 is no recognised directive.  The save that follows keeps the
    line [keep] and drops line 2: the serializer decides by the lenient
    pattern, whatever the loader read. *)
Theorem unread_directive_line_is_dropped :
  let l := load_proxies_from_conf new_ProxyManager
             (plain_fs (Some strict_loss_content)) in
  let s := save_proxies_to_conf (snd (fst l)) (snd l) false in
  fst (fst l) = true /\
  initial_syntax_error (snd (fst l))
  = [Malformed 2 line_with_trailing_text] /\
  map entry_data (filter is_written (proxies (snd (fst l))))
  = [(lit "HTTPS", lit "https://p:443", true, [])] /\
  line_of (line_with_trailing_text ++ [LF]) strict_loss_content /\
  fst (fst s) = true /\
  file (snd s)
  = Some (lit "keep" ++ [LF] ++ [LF]
            ++ lit "Acquire::HTTPS::Proxy " ++ [QUOTE] ++ lit "https://p:443"
            ++ [QUOTE] ++ [SEMI; LF]) /\
  (forall out, file (snd s) = Some out ->
     line_of (lit "keep" ++ [LF]) out /\
     ~ line_of (line_with_trailing_text ++ [LF]) out).
Proof.
  vm_compute.
  split; [reflexivity|]. split; [reflexivity|]. split; [reflexivity|].
  split; [right; left; reflexivity|].
  split; [reflexivity|]. split; [reflexivity|].
  intros out H. injection H as <-. split.
  - left; reflexivity.
  - intros [E | [E | [E | []]]]; discriminate E.
Qed.

(** The preserved lines of the example are the one unrelated line. *)
Example mixed_content_preserved :
  filter is_other_line (readlines mixed_content) = [lit "keep" ++ [LF]].
Proof. vm_compute. reflexivity. Qed.




(** ** Round trip (C1) *)

(** C1 fails on the code: for a file holding a named entry followed by
    another entry, the output of a save, loaded and saved again with
    nothing edited, comes back with one more blank line in front; the
    blank line the serializer writes after a named entry is read back as a
    line to preserve. *)
Theorem round_trip_adds_blank_line :
  let st1 := load_then_save (new_ProxyManager,
                             plain_fs (Some named_pair_content)) in
  let st2 := load_then_save st1 in
  file (snd st1)
  = Some (NAME_COMMENT_PREFIX ++ lit "A" ++ [LF]
            ++ lit "Acquire::HTTP::Proxy " ++ [QUOTE] ++ lit "x" ++ [QUOTE]
            ++ [SEMI; LF] ++ [LF]
            ++ lit "Acquire::FTP::Proxy " ++ [QUOTE] ++ lit "y" ++ [QUOTE]
            ++ [SEMI; LF]) /\
  (exists out1, file (snd st1) = Some out1 /\
                file (snd st2) = Some (LF :: out1)) /\
  file (snd st2) <> file (snd st1).
Proof.
  vm_compute. split; [reflexivity|]. split; [|discriminate].
  eexists. split; reflexivity.
Qed.

(** ** Kind coverage (C3) *)

(** C3 fails on the code for an unreadable file: the loader records the
    read error and returns before any placeholder is added, so the entry
    list is empty. *)
Theorem unreadable_file_has_no_entries :
  let r := load_proxies_from_conf new_ProxyManager unreadable_fs in
  proxies (snd (fst r)) = [] /\
  initial_syntax_error (snd (fst r)) = [IOErrorReading] /\
  ~ kind_covered (proxies (snd (fst r))) (lit "HTTP").
Proof.
  vm_compute. repeat split. intros (p & [] & _).
Qed.

Lemma upper_char_idem c : upper_char (upper_char c) = upper_char c.
Proof. destruct c as [[] [] [] [] [] [] [] []]; reflexivity. Qed.

Lemma upper_idem s : upper (upper s) = upper s.
Proof.
  unfold upper. rewrite map_map. apply map_ext. intros c. apply upper_char_idem.
Qed.

Lemma mem_str_In x l : mem_str x l = true -> In x l.
Proof.
  unfold mem_str. intros H. apply existsb_exists in H as (y & Hy & E).
  apply str_eqb_eq in E. now subst.
Qed.

Lemma placeholder_step_mono e mg t p :
  In p (proxies mg) -> In p (proxies (placeholder_step e mg t)).
Proof.
  intros H. destruct (placeholder_step_proxies e mg t) as [-> | (i & ->)];
    [assumption | apply in_or_app; now left].
Qed.

Lemma fold_placeholder_step_mono e types :
  forall mg p,
    In p (proxies mg) ->
    In p (proxies (fold_left (placeholder_step e) types mg)).
Proof.
  induction types as [|t types IH]; intros mg p H; simpl; [assumption|].
  apply IH. now apply placeholder_step_mono.
Qed.

Lemma placeholder_step_covers e mg t :
  upper t = t ->
  (forall x, In x e ->
     exists p, In p (proxies mg) /\ upper (proxy_type p) = x) ->
  exists p, In p (proxies (placeholder_step e mg t))
            /\ upper (proxy_type p) = t.
Proof.
  intros Ht He. unfold placeholder_step.
  destruct (mem_str t e) eqn:Em; simpl.
  - apply He. now apply mem_str_In.
  - destruct (existsb _ (proxies mg)) eqn:Ex; simpl.
    + apply existsb_exists in Ex as (p & Hp & E).
      apply andb_true_iff in E as [E _]. apply andb_true_iff in E as [E _].
      apply str_eqb_eq in E. eauto.
    + eexists. split; [apply in_or_app; right; left; reflexivity|].
      simpl. now rewrite upper_idem.
Qed.

Lemma fold_placeholder_step_covers e types :
  forall mg,
    (forall t, In t types -> upper t = t) ->
    (forall x, In x e ->
       exists p, In p (proxies mg) /\ upper (proxy_type p) = x) ->
    forall t, In t types ->
      exists p, In p (proxies (fold_left (placeholder_step e) types mg))
                /\ upper (proxy_type p) = t.
Proof.
  induction types as [|t0 types IH]; intros mg Hup He t Hin; [destruct Hin|].
  simpl. destruct Hin as [<- | Hin].
  - destruct (@placeholder_step_covers e mg t0) as (p & Hp & E);
      [apply Hup; now left | assumption |].
    exists p. split; [now apply fold_placeholder_step_mono | assumption].
  - apply IH; [intros; apply Hup; now right | | assumption].
    intros x Hx. destruct (He x Hx) as (p & Hp & E).
    exists p. split; [now apply placeholder_step_mono | assumption].
Qed.

(** Once the placeholders are added every standard kind has an entry. *)
Lemma placeholders_cover mg t :
  In t standard_types ->
  exists p, In p (proxies (_add_placeholder_proxies_if_needed mg))
            /\ upper (proxy_type p) = t.
Proof.
  intros Hin. unfold _add_placeholder_proxies_if_needed.
  apply fold_placeholder_step_covers; [| |assumption].
  - intros t0 H0. unfold standard_types in H0. simpl in H0.
    destruct H0 as [<-|[<-|[<-|[<-|[]]]]]; reflexivity.
  - intros x Hx. apply in_map_iff in Hx as (p & E & Hp).
    apply filter_In in Hp as [Hp _]. eauto.
Qed.

Lemma parse_step_kinds strict w nl :
  Forall (fun p => upper (proxy_type p) = proxy_type p) (proxies (w_mgr w)) ->
  Forall (fun p => upper (proxy_type p) = proxy_type p)
    (proxies (w_mgr (parse_step strict w nl))).
Proof.
  intros Hall. destruct nl as [n line]. unfold parse_step.
  destruct (re_match name_comment_parser (strip line)); [exact Hall|].
  destruct (re_match (proxy_parser strict) (strip line)) as [pc|].
  - simpl. apply Forall_app. split; [exact Hall|].
    constructor; [|constructor]. simpl. apply upper_idem.
  - destruct (nonempty (strip line) && negb (startswith [HASH] (strip line))).
    + destruct (contains (lit "::Proxy") (strip line)); exact Hall.
    + destruct (negb (nonempty (strip line))); exact Hall.
Qed.

Lemma fold_parse_step_kinds strict nls :
  forall w,
    Forall (fun p => upper (proxy_type p) = proxy_type p) (proxies (w_mgr w)) ->
    Forall (fun p => upper (proxy_type p) = proxy_type p)
      (proxies (w_mgr (fold_left (parse_step strict) nls w))).
Proof.
  induction nls as [|nl nls IH]; intros w H; simpl; [exact H|].
  apply IH. now apply parse_step_kinds.
Qed.

Lemma placeholders_kinds mg :
  Forall (fun p => upper (proxy_type p) = proxy_type p) (proxies mg) ->
  Forall (fun p => upper (proxy_type p) = proxy_type p)
    (proxies (_add_placeholder_proxies_if_needed mg)).
Proof.
  intros H. destruct (placeholders_added mg) as (phs & -> & Hph).
  apply Forall_app. split; [assumption|].
  eapply Forall_impl; [|exact Hph].
  intros p (Hin & _). unfold standard_types in Hin. simpl in Hin.
  destruct Hin as [<-|[<-|[<-|[<-|[]]]]]; reflexivity.
Qed.

Lemma correction_pass_proxies mg0 fs lines :
  proxies (snd (fst (correction_pass mg0 fs lines))) = proxies mg0.
Proof.
  unfold correction_pass.
  destruct (can_write_to_conf fs && _); [|reflexivity].
  destruct (any_line_changed_in_memory _); [|reflexivity].
  destruct (create_backup fs _) as [[] fsb]; [|reflexivity].
  destruct (write_all fsb _) as [[] fsw]; reflexivity.
Qed.

(** The part of C3 the code does satisfy: when the file is missing, or
    exists and can be read, every standard kind has an entry after the
    load. *)
Lemma kind_coverage_when_read mg fs t :
  file fs = None \/ can_read fs = true ->
  In t standard_types ->
  kind_covered (proxies (snd (fst (load_proxies_from_conf mg fs)))) t.
Proof.
  intros Hfs Hin. unfold kind_covered.
  assert (Hgen : forall m,
            Forall (fun p => upper (proxy_type p) = proxy_type p) (proxies m) ->
            exists p, In p (proxies (_add_placeholder_proxies_if_needed m))
                      /\ proxy_type p = t).
  { intros m Hm. destruct (@placeholders_cover m t Hin) as (p & Hp & E).
    exists p. split; [assumption|].
    pose proof (@placeholders_kinds m Hm) as Hk.
    rewrite Forall_forall in Hk. rewrite <- (Hk p Hp). assumption. }
  unfold load_proxies_from_conf.
  destruct (file fs) as [content|] eqn:Ef.
  - destruct Hfs as [Hfs | Hr]; [discriminate|]. rewrite Hr. simpl negb.
    cbv iota.
    pose proof (correction_pass_proxies
                  (mkProxyManager [] 0 [] (is_some (Some content))) fs
                  (readlines content)) as Hcp.
    destruct (correction_pass _ fs (readlines content)) as [[[l b] m0] f].
    cbn [fst snd] in *. apply Hgen. apply fold_parse_step_kinds.
    cbn [w_mgr]. rewrite Hcp. constructor.
  - cbn [fst snd]. apply Hgen. constructor.
Qed.

(** ** The serializer's patterns against the loader's *)

Lemma proxy_line_parser_run s c s' c' :
  run proxy_line_parser s c s' c' ->
  exists mk kw1 kind kw2 sp1 target sp2,
    s = core_text mk kw1 kind kw2 sp1 target ++ sp2 ++ [SEMI] ++ s' /\
    core_shape mk kw1 kind kw2 sp1 target /\
    forallb is_space sp2 = true.
Proof.
  intros H. unfold proxy_line_parser, seqs in H. cbn [fold_right] in H.
  apply run_Seq_inv in H as (s1 & c1 & Hmk & H).
  apply run_Seq_inv in H as (s2 & c2 & Hkw1 & H).
  apply run_Seq_inv in H as (s3 & c3 & Hkind & H).
  apply run_Seq_inv in H as (s4 & c4 & Hkw2 & H).
  apply run_Seq_inv in H as (s5 & c5 & Hsp1 & H).
  apply run_Seq_inv in H as (s6 & c6 & Hq1 & H).
  apply run_Seq_inv in H as (s7 & c7 & Htg & H).
  apply run_Seq_inv in H as (s8 & c8 & Hq2 & H).
  apply run_Seq_inv in H as (s9 & c9 & Hsp2 & H).
  apply run_Seq_inv in H as (s10 & c10 & Hsemi & H).
  apply run_Eps_inv in H as (Ec & Es). subst c10 s10.
  apply run_Chr_inv in Hsemi as (_ & x & -> & Hx). apply ci_eqb_SEMI in Hx.
  subst x.
  apply run_Star_inv in Hsp2 as (_ & sp2 & -> & Hsp2).
  apply run_Chr_inv in Hq2 as (_ & q2 & -> & Hq2). apply ci_eqb_QUOTE in Hq2.
  subst q2.
  apply run_Plus_inv in Htg as (_ & target & -> & Htgn & Htg).
  apply run_Chr_inv in Hq1 as (_ & q1 & -> & Hq1). apply ci_eqb_QUOTE in Hq1.
  subst q1.
  apply run_Plus_inv in Hsp1 as (_ & sp1 & -> & Hsp1n & Hsp1).
  apply run_Lit_inv in Hkw2 as (_ & kw2 & -> & Hkw2).
  apply run_kind_alt_inv in Hkind as (_ & kind & -> & Hkind).
  apply run_Lit_inv in Hkw1 as (_ & kw1 & -> & Hkw1).
  assert (Hm : exists mk,
             s = mk ++ kw1 ++ kind ++ kw2 ++ sp1 ++ QUOTE :: target
                   ++ QUOTE :: sp2 ++ SEMI :: s'
             /\ is_mark mk = true).
  { apply run_Opt_inv in Hmk as [Hmk | [E _]].
    - apply run_Grp_inv in Hmk as (cm & Hmk & _).
      apply run_comment_mark_inv in Hmk as (_ & mk & -> & _ & Hmark).
      now exists mk.
    - exists []. split; [symmetry; exact E | reflexivity]. }
  destruct Hm as (mk & -> & Hmark).
  exists mk, kw1, kind, kw2, sp1, target, sp2.
  split; [unfold core_text; rewrite <- !app_assoc; reflexivity|].
  split; [unfold core_shape; auto 10 | assumption].
Qed.

Lemma proxy_line_parser_accepts mk kw1 kind kw2 sp1 target sp2 rest c :
  core_shape mk kw1 kind kw2 sp1 target ->
  forallb is_space sp2 = true ->
  exists c',
    run proxy_line_parser
      (core_text mk kw1 kind kw2 sp1 target ++ sp2 ++ [SEMI] ++ rest) c rest c'.
Proof.
  intros (Hmk & Hkw1 & Hkind & Hkw2 & Hsp1n & Hsp1 & Htgn & Htg) Hsp2.
  unfold core_text. rewrite <- !app_assoc.
  destruct (@run_mark_intro mk
              (kw1 ++ kind ++ kw2 ++ sp1 ++ [QUOTE] ++ target ++ [QUOTE]
                 ++ sp2 ++ [SEMI] ++ rest) c Hmk) as (c1 & Hrun1).
  exists c1. unfold proxy_line_parser, seqs. cbn [fold_right].
  eapply run_seq; [exact Hrun1|].
  eapply run_seq; [now apply run_Lit_intro|].
  eapply run_seq; [now apply run_kind_alt_intro|].
  eapply run_seq; [now apply run_Lit_intro|].
  eapply run_seq; [now apply run_Plus_intro|].
  eapply run_seq; [apply run_Chr_same|].
  eapply run_seq; [now apply run_Plus_intro|].
  eapply run_seq; [apply run_Chr_same|].
  eapply run_seq; [now apply run_Star_intro|].
  eapply run_seq; [apply run_Chr_same | apply run_eps].
Qed.

(** The serializer drops as directive lines exactly the lines of lenient
    directive shape. *)
Lemma proxy_line_parser_shape (s : str) :
  matches proxy_line_parser s = true <-> directive_shape false s.
Proof.
  rewrite matches_iff_run. split.
  - intros (s' & c & Hr).
    apply proxy_line_parser_run in Hr
      as (mk & kw1 & kind & kw2 & sp1 & target & sp2 & -> & Hc & Hsp2).
    exists mk, kw1, kind, kw2, sp1, target, sp2, s'.
    split; [reflexivity|]. split; [assumption|]. split; [assumption|].
    intros Hs. discriminate Hs.
  - intros (mk & kw1 & kind & kw2 & sp1 & target & sp2 & rest & -> & Hc & Hsp2
            & _).
    destruct (@proxy_line_parser_accepts mk kw1 kind kw2 sp1 target sp2 rest
                no_caps Hc Hsp2) as (c' & Hr).
    eauto.
Qed.

Lemma lenient_proxy_parser_shape (s : str) :
  matches (proxy_parser false) s = true <-> directive_shape false s.
Proof.
  rewrite matches_iff_run. split.
  - intros (s' & c & Hr).
    apply proxy_parser_run in Hr
      as (mk & kw1 & kind & kw2 & sp1 & target & sp2 & -> & Hc & Hsp2 & _).
    exists mk, kw1, kind, kw2, sp1, target, sp2, s'.
    split; [reflexivity|]. split; [assumption|]. split; [assumption|].
    intros Hs. discriminate Hs.
  - intros (mk & kw1 & kind & kw2 & sp1 & target & sp2 & rest & -> & Hc & Hsp2
            & Hst).
    destruct (@proxy_parser_accepts false mk kw1 kind kw2 sp1 target sp2 rest
                no_caps Hc Hsp2 Hst) as (c' & Hr).
    eauto.
Qed.

Lemma bool_eq_iff (a b : bool) : (a = true <-> b = true) -> a = b.
Proof.
  destruct a, b; intros [H1 H2]; try reflexivity.
  - symmetry. now apply H1.
  - now apply H2.
Qed.

(** The serializer and the lenient loader agree on what a directive line
    is, and on what an annotation line is. *)
Lemma serializer_directive_is_lenient (s : str) :
  matches proxy_line_parser s = matches (proxy_parser false) s.
Proof.
  apply bool_eq_iff. rewrite proxy_line_parser_shape.
  symmetry. apply lenient_proxy_parser_shape.
Qed.

Lemma serializer_annotation_is_loader (s : str) :
  matches save_name_comment_parser s = matches name_comment_parser s.
Proof.
  apply bool_eq_iff. rewrite !matches_iff_run.
  unfold save_name_comment_parser, name_comment_parser, seqs.
  cbn [fold_right]. split.
  - intros (s' & c & Hr). exists s'. eexists.
    eapply run_seq; [exact Hr|].
    eapply run_seq; [apply run_star_nil|].
    eapply run_seq; [apply run_grp; apply run_star_nil | apply run_eps].
  - intros (s' & c & Hr).
    apply run_Seq_inv in Hr as (s1 & c1 & Hl & _). eauto.
Qed.

(** ** The corrector on the lines of a file *)

Lemma dropwhile_split (p : ascii -> bool) (s : str) :
  exists d, s = d ++ dropwhile p s /\ forallb p d = true.
Proof.
  induction s as [|c t (d & E & Hd)]; simpl.
  - now exists [].
  - destruct (p c) eqn:Ec.
    + exists (c :: d). simpl. rewrite Ec, Hd. split; [now f_equal | reflexivity].
    + now exists [].
Qed.

Lemma rstrip_with_prefix (p : ascii -> bool) (s : str) :
  exists t, s = rstrip_with p s ++ t.
Proof.
  unfold rstrip_with. destruct (dropwhile_split p (rev s)) as (d & E & _).
  exists (rev d). rewrite <- rev_app_distr, <- E. symmetry.
  apply rev_involutive.
Qed.

Lemma app_last_split {T : Type} (a b u : list T) (x : T) :
  a ++ [x] = b ++ u -> u <> [] -> exists u', u = u' ++ [x] /\ a = b ++ u'.
Proof.
  intros E Hu. destruct (exists_last Hu) as (u' & y & ->).
  rewrite app_assoc in E. apply app_inj_tail in E as [-> ->]. eauto.
Qed.

(** The corrector keeps a line of a file a line of a file. *)
Lemma correct_line_keeps_line (l : str) :
  forallb not_cr l = true ->
  (complete_line l \/ (l <> [] /\ forallb not_newline l = true)) ->
  forallb not_cr (fst (correct_line l)) = true /\
  (complete_line (fst (correct_line l)) \/
   (fst (correct_line l) <> [] /\
    forallb not_newline (fst (correct_line l)) = true)) /\
  (complete_line l -> complete_line (fst (correct_line l))).
Proof.
  intros Hcr Hl.
  destruct (correct_line_cases l)
    as [[_ E] | (mk & kw1 & kind & kw2 & sp1 & target & rest & Hc & Er & Hne
                 & E)];
    rewrite E; cbn [fst]; [auto|].
  destruct (rstrip_with_prefix is_crlf l) as (t & Et).
  fold (rstrip_crlf l) in Et. rewrite Er in Et. rewrite <- app_assoc in Et.
  set (core := core_text mk kw1 kind kw2 sp1 target) in *.
  assert (Hcore : forallb not_cr core = true /\ forallb not_newline core = true).
  { split.
    - rewrite Et, forallb_app in Hcr. now apply andb_true_iff in Hcr as [H _].
    - destruct Hl as [(body & Eb & Hb) | [_ Hl]].
      + rewrite Eb in Et. apply app_last_split in Et as (u' & _ & Ebody).
        * rewrite Ebody, forallb_app in Hb.
          now apply andb_true_iff in Hb as [H _].
        * destruct rest; [contradiction | discriminate].
      + rewrite Et, forallb_app in Hl. now apply andb_true_iff in Hl as [H _]. }
  destruct Hcore as [Hc1 Hc2].
  assert (Hcomp : complete_line (core ++ [SEMI; LF])).
  { exists (core ++ [SEMI]). split; [now rewrite <- app_assoc|].
    rewrite forallb_app, Hc2. reflexivity. }
  repeat split; auto.
  rewrite forallb_app, Hc1. reflexivity.
Qed.

Lemma temp_corrected_lines_file_lines (ls : list str) :
  Forall (fun l => forallb not_cr l = true) ls ->
  file_lines ls ->
  Forall (fun l => forallb not_cr l = true) (temp_corrected_lines ls) /\
  file_lines (temp_corrected_lines ls).
Proof.
  unfold temp_corrected_lines.
  induction ls as [|l rest IH]; intros Hcr Hf; [split; [constructor | exact I]|].
  inversion Hcr as [|? ? Hl Hrest]; subst.
  cbn [map]. cbn [file_lines] in Hf. destruct rest as [|l2 rest'].
  - destruct (@correct_line_keeps_line l Hl Hf) as (H1 & H2 & _).
    split; [constructor; [assumption | constructor] | exact H2].
  - destruct Hf as [Hcl Hf].
    destruct (@correct_line_keeps_line l Hl (or_introl Hcl)) as (H1 & _ & H3).
    destruct (IH Hrest Hf) as [IH1 IH2].
    split; [constructor; assumption|].
    cbn [map file_lines] in *. split; [now apply H3 | exact IH2].
Qed.

(** What was written by a load that saved its corrections is read back as
    the corrected lines. *)
Lemma corrected_file_read_back (content : str) :
  readlines (concat (temp_corrected_lines (readlines content)))
  = temp_corrected_lines (readlines content).
Proof.
  destruct (@temp_corrected_lines_file_lines (readlines content)
              (readlines_no_cr content) (split_lines_file_lines _))
    as [Hcr Hf].
  now apply readlines_concat.
Qed.

Lemma corrected_lines_report_no_change (lines : list str) :
  any_line_changed_in_memory (temp_corrected_lines lines) = false.
Proof.
  unfold temp_corrected_lines, any_line_changed_in_memory.
  induction lines as [|l lines IH]; [reflexivity|]. cbn [map existsb].
  destruct (correct_line_fixed l) as [_ Hf]. rewrite Hf. exact IH.
Qed.

Lemma write_all_keeps fs writes :
  can_read (snd (write_all fs writes)) = can_read fs.
Proof.
  unfold write_all. destruct (write_fault fs) as [| |k]; reflexivity.
Qed.

(** A correction pass that saved its corrections leaves the corrected
    lines in the file. *)
Lemma correction_pass_saved mg0 fs lines l m f :
  correction_pass mg0 fs lines = (l, true, m, f) ->
  l = temp_corrected_lines lines /\
  file f = Some (concat (temp_corrected_lines lines)) /\
  can_read f = can_read fs.
Proof.
  unfold correction_pass.
  destruct (can_write_to_conf fs && _); [|discriminate].
  destruct (any_line_changed_in_memory lines); [|discriminate].
  pose proof (create_backup_keeps fs (lit "pre_whitespace_correction"))
    as (_ & Hr & _).
  destruct (create_backup fs _) as [[] fsb]; [|discriminate].
  cbn [snd] in Hr.
  pose proof (write_all_true fsb (temp_corrected_lines lines)) as Hw.
  pose proof (write_all_keeps fsb (temp_corrected_lines lines)) as Hk.
  destruct (write_all fsb _) as [[] fsw]; [|discriminate].
  intros E. inversion E; subst. cbn [fst snd] in *.
  split; [reflexivity|]. split; [now apply Hw | congruence].
Qed.

(** A correction pass over lines that need no correction touches
    nothing. *)
Lemma correction_pass_nothing_to_do mg0 fs lines :
  any_line_changed_in_memory lines = false ->
  correction_pass mg0 fs lines = (lines, false, mg0, fs).
Proof.
  intros H. unfold correction_pass. rewrite H.
  destruct (can_write_to_conf fs && _); reflexivity.
Qed.

Lemma load_saved_inv (mg : ProxyManager) (fs : filesys) :
  fst (fst (load_proxies_from_conf mg fs)) = true ->
  exists content,
    file fs = Some content /\
    file (snd (load_proxies_from_conf mg fs))
    = Some (concat (temp_corrected_lines (readlines content))) /\
    can_read (snd (load_proxies_from_conf mg fs)) = true.
Proof.
  unfold load_proxies_from_conf.
  destruct (file fs) as [content|] eqn:Ef; [|discriminate].
  destruct (can_read fs) eqn:Er; [|discriminate]. cbn [negb].
  destruct (correction_pass _ fs (readlines content)) as [[[l b] m0] f] eqn:Ec.
  cbn [fst snd]. intros ->.
  apply correction_pass_saved in Ec as (-> & Hf & Hr).
  exists content. split; [reflexivity|]. split; [assumption | congruence].
Qed.

Lemma load_corrected_file (mg : ProxyManager) (fs : filesys) (content : str) :
  file fs = Some (concat (temp_corrected_lines (readlines content))) ->
  can_read fs = true ->
  fst (fst (load_proxies_from_conf mg fs)) = false /\
  snd (load_proxies_from_conf mg fs) = fs.
Proof.
  intros Hf Hr. unfold load_proxies_from_conf. rewrite Hf, Hr. cbn [negb].
  rewrite corrected_file_read_back.
  rewrite correction_pass_nothing_to_do
    by apply corrected_lines_report_no_change.
  cbn [fst snd]. auto.
Qed.

(** At the level of the file: after a load that corrected the file and
    saved the corrections, the next load finds nothing to correct, makes
    no backup and leaves the file system as it is. *)
Lemma second_load_rewrites_nothing (mg mg' : ProxyManager) (fs : filesys) :
  fst (fst (load_proxies_from_conf mg fs)) = true ->
  fst (fst (load_proxies_from_conf mg'
              (snd (load_proxies_from_conf mg fs)))) = false /\
  snd (load_proxies_from_conf mg' (snd (load_proxies_from_conf mg fs)))
  = snd (load_proxies_from_conf mg fs).
Proof.
  intros H. apply load_saved_inv in H as (content & _ & Hf & Hr).
  now apply (load_corrected_file mg' _ content).
Qed.

(* ================================================================== *)
(** * Further properties of the code *)

(** ** A directive line has one reading *)

Lemma split_at_first (p : ascii -> bool) (a a' : str) x x' (b b' : str) :
  forallb p a = true -> forallb p a' = true ->
  p x = false -> p x' = false ->
  a ++ x :: b = a' ++ x' :: b' -> a = a' /\ x = x' /\ b = b'.
Proof.
  revert a'. induction a as [|y a IH]; intros [|y' a'] Ha Ha' Hx Hx' E;
    simpl in *.
  - inversion E. auto.
  - inversion E; subst. apply andb_true_iff in Ha' as [Hy _]. congruence.
  - inversion E; subst. apply andb_true_iff in Ha as [Hy _]. congruence.
  - inversion E; subst.
    apply andb_true_iff in Ha as [_ Ha]. apply andb_true_iff in Ha' as [_ Ha'].
    destruct (IH a' Ha Ha' Hx Hx' H1) as (-> & -> & ->). auto.
Qed.

Lemma ci_str_length (w s : str) : ci_str w s = true -> length s = length w.
Proof.
  revert s. induction w as [|a w IH]; intros [|x s] H; simpl in *;
    try discriminate; [reflexivity|].
  apply andb_true_iff in H as [_ H]. f_equal. now apply IH.
Qed.

Lemma app_same_length_inv {T : Type} (a a' b b' : list T) :
  length a = length a' -> a ++ b = a' ++ b' -> a = a' /\ b = b'.
Proof.
  revert a'. induction a as [|x a IH]; intros [|x' a'] Hl E; simpl in *;
    try discriminate; [auto|].
  inversion E; subst. inversion Hl.
  destruct (IH a' H0 H1) as [-> ->]. auto.
Qed.

(** A text equal, up to case, to a word avoiding [z] in any case avoids
    [z]. *)
Lemma ci_str_avoids (z : ascii) (w s : str) :
  forallb (fun a => negb (ci_eqb a z)) w = true ->
  ci_str w s = true -> forallb (fun x => negb (Ascii.eqb x z)) s = true.
Proof.
  revert s. induction w as [|a w IH]; intros [|x s] Hw H; simpl in *;
    try discriminate; [reflexivity|].
  apply andb_true_iff in Hw as [Ha Hw]. apply andb_true_iff in H as [Hx H].
  rewrite (IH s Hw H), andb_true_r.
  destruct (Ascii.eqb x z) eqn:E; [|reflexivity].
  apply Ascii.eqb_eq in E. subst x. rewrite Hx in Ha. discriminate Ha.
Qed.

Lemma kind_word_not_colon kind :
  is_kind_word kind = true -> forallb not_colon kind = true.
Proof.
  unfold is_kind_word. intros H. apply existsb_exists in H as (w & Hw & Hci).
  apply (ci_str_avoids ":"%char w); [|assumption].
  unfold standard_types in Hw. simpl in Hw.
  destruct Hw as [<-|[<-|[<-|[<-|[]]]]]; reflexivity.
Qed.

Lemma ci_eqb_COLON x : ci_eqb ":"%char x = true -> x = ":"%char.
Proof.
  unfold ci_eqb. intros Hx. apply Ascii.eqb_eq in Hx.
  destruct x as [[] [] [] [] [] [] [] []]; vm_compute in Hx;
    try discriminate Hx; reflexivity.
Qed.

Lemma ci_eqb_A_plain x :
  ci_eqb "A"%char x = true -> is_space x = false /\ x <> HASH.
Proof.
  unfold ci_eqb. intros Hx. apply Ascii.eqb_eq in Hx.
  destruct x as [[] [] [] [] [] [] [] []]; vm_compute in Hx;
    try discriminate Hx; split; try reflexivity; discriminate.
Qed.

(** The parts of a directive, up to the closing quote, are determined by
    the line. *)
Lemma core_parts_unique mk kw1 kind kw2 sp1 target t
      mk' kw1' kind' kw2' sp1' target' t' :
  core_shape mk kw1 kind kw2 sp1 target ->
  core_shape mk' kw1' kind' kw2' sp1' target' ->
  core_text mk kw1 kind kw2 sp1 target ++ t
  = core_text mk' kw1' kind' kw2' sp1' target' ++ t' ->
  mk = mk' /\ kind = kind' /\ target = target' /\ t = t'.
Proof.
  intros (Hmk & Hkw1 & Hkind & Hkw2 & Hsp1n & Hsp1 & Htgn & Htg)
         (Hmk' & Hkw1' & Hkind' & Hkw2' & Hsp1n' & Hsp1' & Htgn' & Htg') E.
  unfold core_text in E. rewrite <- !app_assoc in E.
  pose proof (ci_str_length _ _ Hkw1) as L1.
  pose proof (ci_str_length _ _ Hkw1') as L1'.
  pose proof (ci_str_length _ _ Hkw2) as L2.
  pose proof (ci_str_length _ _ Hkw2') as L2'.
  assert (Hhead : forall k, ci_str (lit "Acquire::") k = true ->
            exists k0 k', k = k0 :: k' /\ is_space k0 = false /\ k0 <> HASH).
  { intros k Hk. change (lit "Acquire::") with ("A"%char :: lit "cquire::") in Hk.
    apply ci_str_cons_inv in Hk as (k0 & k' & -> & Hk0 & _).
    apply ci_eqb_A_plain in Hk0 as [H1 H2]. eauto. }
  assert (Hcol : forall k, ci_str (lit "::Proxy") k = true ->
            exists k', k = ":"%char :: k').
  { intros k Hk. change (lit "::Proxy") with (":"%char :: lit ":Proxy") in Hk.
    apply ci_str_cons_inv in Hk as (k0 & k' & -> & Hk0 & _).
    apply ci_eqb_COLON in Hk0. subst. eauto. }
  assert (Emk : mk = mk' /\
                kw1 ++ kind ++ kw2 ++ sp1 ++ [QUOTE] ++ target ++ [QUOTE] ++ t
                = kw1' ++ kind' ++ kw2' ++ sp1' ++ [QUOTE] ++ target'
                    ++ [QUOTE] ++ t').
  { destruct (Hhead _ Hkw1) as (k0 & kr & Ek & Hs0 & Hh0).
    destruct (Hhead _ Hkw1') as (k0' & kr' & Ek' & Hs0' & Hh0').
    rewrite Ek, Ek' in *. clear Ek Ek'.
    destruct mk as [|x ws], mk' as [|x' ws']; simpl in E.
    - auto.
    - simpl in Hmk'. apply andb_true_iff in Hmk' as [Hx' _].
      apply Ascii.eqb_eq in Hx'. inversion E; subst. contradiction.
    - simpl in Hmk. apply andb_true_iff in Hmk as [Hx _].
      apply Ascii.eqb_eq in Hx. inversion E; subst. contradiction.
    - simpl in Hmk, Hmk'. apply andb_true_iff in Hmk as [Hx Hws].
      apply andb_true_iff in Hmk' as [Hx' Hws'].
      inversion E as [[Ex Er]]. simpl in Er.
      apply split_at_first with (p := is_space) in Er
        as (-> & -> & Er'); auto.
      split; [reflexivity|]. simpl. now f_equal. }
  destruct Emk as [-> E1]. split; [reflexivity|].
  apply app_same_length_inv in E1 as [_ E2]; [|congruence].
  destruct (Hcol _ Hkw2) as (kr & Ek). destruct (Hcol _ Hkw2') as (kr' & Ek').
  assert (E3 : kind = kind' /\
               kw2 ++ sp1 ++ [QUOTE] ++ target ++ [QUOTE] ++ t
               = kw2' ++ sp1' ++ [QUOTE] ++ target' ++ [QUOTE] ++ t').
  { rewrite Ek, Ek' in *. simpl in E2.
    apply split_at_first with (p := not_colon) in E2 as (-> & _ & E2');
      auto using kind_word_not_colon.
    split; [reflexivity|]. simpl. now f_equal. }
  destruct E3 as [-> E3]. split; [reflexivity|].
  apply app_same_length_inv in E3 as [_ E4]; [|congruence].
  simpl in E4.
  apply split_at_quote in E4 as [_ E5]; auto using forallb_space_not_quote.
  apply split_at_quote in E5 as [-> ->]; auto.
Qed.

(** The groups the loader's pattern captures on a directive line. *)
Lemma proxy_match_captures strict mk kw1 kind kw2 sp1 target rest c :
  core_shape mk kw1 kind kw2 sp1 target ->
  re_match (proxy_parser strict)
    (core_text mk kw1 kind kw2 sp1 target ++ rest) = Some c ->
  c 1 = (if is_nil mk then None else Some mk) /\
  c 2 = Some kind /\ c 3 = Some target.
Proof.
  intros Hc H. apply re_match_run in H as (s' & Hr).
  apply proxy_parser_run in Hr
    as (mk' & kw1' & kind' & kw2' & sp1' & target' & sp2' & E & Hc' & _ & _
        & H1 & H2 & H3).
  apply core_parts_unique in E as (-> & -> & -> & _); [|assumption|assumption].
  rewrite H1, H2, H3. repeat split. now destruct mk'.
Qed.

(** What a directive line does to the walk, in full. *)
Lemma parse_step_directive_exact
    (strict : bool) (w : walk) (n : nat) (line : str)
    (mk kw1 kind kw2 sp1 target sp2 rest : str) :
  strip line
  = core_text mk kw1 kind kw2 sp1 target ++ sp2 ++ [SEMI] ++ rest ->
  core_shape mk kw1 kind kw2 sp1 target ->
  forallb is_space sp2 = true ->
  (strict = true -> sp2 = [] /\ rest = []) ->
  parse_step strict w (n, line)
  = mkWalk
      (append_proxy (snd (_generate_id (w_mgr w)))
         (new_ProxyEntry (S (next_id (w_mgr w))) kind target (is_nil mk)
            (match last_seen_name w with Some l => l | None => [] end)
            (collected_original_lines_for_entry w ++ [line])))
      None [].
Proof.
  intros Es Hc Hsp2 Hst.
  assert (Hs : directive_shape strict (strip line)).
  { exists mk, kw1, kind, kw2, sp1, target, sp2, rest. auto. }
  unfold parse_step. rewrite (directive_not_annotation Hs).
  pose proof (directive_shape_re_match Hs) as Hm.
  destruct (re_match (proxy_parser strict) (strip line)) as [pc|] eqn:Ep;
    [|contradiction].
  rewrite Es in Ep. apply (proxy_match_captures _ _ Hc) in Ep as (H1 & H2 & H3).
  unfold group. rewrite H1, H2, H3. cbn [_generate_id snd].
  unfold new_ProxyEntry. rewrite upper_idem.
  destruct mk; reflexivity.
Qed.

(** X1. The entry a directive line yields: for a line whose stripped text
    is a directive of the mode in force, one step of the walk appends one
    entry with the next identifier, the kind in upper case, the quoted
    target, enabled exactly when there is no comment marker, the pending
    label (or none), and the buffered lines and the line as its source;
    the label and the buffer are reset and no diagnostic is added. *)
Theorem directive_line_entry
    (strict : bool) (w : walk) (n : nat) (line : str)
    (mk kw1 kind kw2 sp1 target sp2 rest : str) :
  strip line
  = core_text mk kw1 kind kw2 sp1 target ++ sp2 ++ [SEMI] ++ rest ->
  core_shape mk kw1 kind kw2 sp1 target ->
  forallb is_space sp2 = true ->
  (strict = true -> sp2 = [] /\ rest = []) ->
  exists p,
    proxies (w_mgr (parse_step strict w (n, line)))
    = proxies (w_mgr w) ++ [p] /\
    id p = S (next_id (w_mgr w)) /\
    next_id (w_mgr (parse_step strict w (n, line))) = S (next_id (w_mgr w)) /\
    proxy_type p = upper kind /\ url p = target /\
    enabled p = is_nil mk /\
    name p = match last_seen_name w with Some l => l | None => [] end /\
    original_lines p = collected_original_lines_for_entry w ++ [line] /\
    last_seen_name (parse_step strict w (n, line)) = None /\
    collected_original_lines_for_entry (parse_step strict w (n, line)) = [] /\
    initial_syntax_error (w_mgr (parse_step strict w (n, line)))
    = initial_syntax_error (w_mgr w).
Proof.
  intros Es Hc Hsp2 Hst.
  rewrite (@parse_step_directive_exact strict w n line mk kw1 kind kw2 sp1
             target sp2 rest Es Hc Hsp2 Hst).
  eexists. cbn. repeat split.
Qed.

Lemma directive_line_entry_witness :
  exists p,
    proxies (w_mgr (parse_step false walk_after_annotation
                      (1, canonical_http_line)))
    = proxies (w_mgr walk_after_annotation) ++ [p] /\
    proxy_type p = upper (lit "HTTP") /\ url p = lit "x" /\
    enabled p = true /\ name p = lit "A".
Proof.
  destruct (@directive_line_entry false walk_after_annotation 1
              canonical_http_line [] (lit "Acquire::") (lit "HTTP")
              (lit "::Proxy") [SPACE] (lit "x") [] [])
    as (p & H1 & _ & _ & H4 & H5 & H6 & H7 & _).
  - reflexivity.
  - unfold core_shape. repeat split; try reflexivity; discriminate.
  - reflexivity.
  - intros H. discriminate H.
  - exists p. repeat split; assumption.
Defined.

(** ** Greedy matching when the continuation accepts *)

Lemma star_m_greedy {A : Type} (p : ascii -> bool) (u rest : str)
      (k : str -> option A) (r : A) :
  forallb p u = true ->
  k rest = Some r ->
  star_m p (u ++ rest) k
  = match star_m p rest k with Some r' => Some r' | None => Some r end.
Proof.
  intros Hu Hk. induction u as [|x u IH]; simpl.
  - destruct rest as [|y t]; simpl in *.
    + now rewrite Hk.
    + destruct (p y); [|now rewrite Hk].
      destruct (star_m p t k); [reflexivity | now rewrite Hk].
  - simpl in Hu. apply andb_true_iff in Hu as [Hx Hu]. rewrite Hx.
    rewrite (IH Hu). destruct (star_m p rest k); reflexivity.
Qed.

(** A greedy class repetition takes all of [u] when what follows does not
    start in the class. *)
Lemma star_m_all {A : Type} (p : ascii -> bool) (u rest : str)
      (k : str -> option A) (r : A) :
  forallb p u = true ->
  match rest with [] => True | y :: _ => p y = false end ->
  k rest = Some r ->
  star_m p (u ++ rest) k = Some r.
Proof.
  intros Hu Hrest Hk. rewrite (star_m_greedy p u rest k Hu Hk).
  destruct rest as [|y t]; simpl in *.
  - now rewrite Hk.
  - rewrite Hrest. now rewrite Hk.
Qed.

Lemma m_Lit {A : Type} (w pre s : str) (c : caps)
      (k : str -> caps -> option A) :
  ci_str w pre = true -> m (Lit w) (pre ++ s) c k = k s c.
Proof.
  revert pre. induction w as [|a w IH]; intros [|x pre] H; simpl in H;
    try discriminate; [reflexivity|].
  apply andb_true_iff in H as [Hx Hw]. unfold Lit in *. simpl.
  rewrite Hx. now apply IH.
Qed.

Lemma ci_str_refl_ascii (w : str) :
  forallb (fun a => ci_eqb a a) w = true -> ci_str w w = true.
Proof.
  induction w as [|a w IH]; simpl; [reflexivity|]. intros H.
  apply andb_true_iff in H as [Ha Hw]. now rewrite Ha, IH.
Qed.

(** The label an annotation line carries: after the marker and any
    whitespace, the text up to the end of the line. *)
Lemma name_comment_match (mark ws label : str) :
  ci_str (strip NAME_COMMENT_PREFIX) mark = true ->
  forallb is_space ws = true ->
  forallb not_newline label = true ->
  match label with [] => True | y :: _ => is_space y = false end ->
  exists c, re_match name_comment_parser (mark ++ ws ++ label) = Some c /\
            c 1 = Some label.
Proof.
  intros Hm Hws Hl Hhead.
  unfold re_match, name_comment_parser, seqs. cbn [fold_right].
  cbn [m]. rewrite (@m_Lit _ _ _ _ _ _ Hm). cbn [m].
  assert (Hg : star_m not_newline (label ++ [])
                 (fun s' => Some (set_cap 1
                    (firstn (length label - length s') label) no_caps))
               = Some (set_cap 1 label no_caps)).
  { erewrite star_m_all; [reflexivity | assumption | exact I |].
    simpl. rewrite Nat.sub_0_r, firstn_all. reflexivity. }
  rewrite app_nil_r in Hg.
  eexists. split.
  - erewrite star_m_all; [reflexivity | assumption | exact Hhead |].
    cbn [m]. exact Hg.
  - reflexivity.
Qed.

(** ** Stripping a line that starts and ends with visible characters *)

Lemma dropwhile_all (p : ascii -> bool) (a b : str) :
  forallb p a = true -> dropwhile p (a ++ b) = dropwhile p b.
Proof.
  induction a as [|x a IH]; simpl; [reflexivity|]. intros H.
  apply andb_true_iff in H as [Hx Ha]. rewrite Hx. now apply IH.
Qed.

Lemma rstrip_with_framed (p : ascii -> bool) (u : str) (z : ascii) (ws : str) :
  p z = false -> forallb p ws = true ->
  rstrip_with p (u ++ z :: ws) = u ++ [z].
Proof.
  intros Hz Hws. unfold rstrip_with.
  rewrite rev_app_distr. simpl. rewrite <- app_assoc.
  rewrite dropwhile_all by (rewrite forallb_forall in *; intros x Hx;
                            apply Hws; now apply in_rev).
  simpl. rewrite Hz. simpl. rewrite rev_involutive. reflexivity.
Qed.

Lemma strip_framed (a : ascii) (u : str) (z : ascii) (ws : str) :
  is_space a = false -> is_space z = false -> forallb is_space ws = true ->
  strip (a :: u ++ z :: ws) = a :: u ++ [z].
Proof.
  intros Ha Hz Hws. unfold strip, lstrip, rstrip. simpl. rewrite Ha.
  apply (rstrip_with_framed is_space (a :: u) z ws Hz Hws).
Qed.

Lemma strip_head (s t : str) (x : ascii) :
  strip s = x :: t -> is_space x = false.
Proof.
  unfold strip, rstrip. intros H.
  destruct (rstrip_with_prefix is_space (lstrip s)) as (t' & E).
  rewrite H in E. simpl in E. eapply dropwhile_head. exact E.
Qed.

(** A trimmed, non-empty text starts and ends with visible characters. *)
Lemma trimmed_framed (s : str) :
  strip s = s -> s <> [] ->
  (exists a t, s = a :: t /\ is_space a = false) /\
  (exists u z, s = u ++ [z] /\ is_space z = false).
Proof.
  intros Hs Hne. split.
  - destruct s as [|a t]; [contradiction|]. exists a, t.
    split; [reflexivity|]. eapply strip_head. exact Hs.
  - destruct (exists_last Hne) as (u & z & E). exists u, z.
    split; [assumption|]. rewrite E in Hs. eapply strip_last. exact Hs.
Qed.

(** What an annotation line does to the walk, in full. *)
Lemma parse_step_annotation_exact
    (strict : bool) (w : walk) (n : nat) (line mark ws label : str) :
  strip line = mark ++ ws ++ label ->
  ci_str (strip NAME_COMMENT_PREFIX) mark = true ->
  forallb is_space ws = true ->
  forallb not_newline label = true ->
  match label with [] => True | y :: _ => is_space y = false end ->
  parse_step strict w (n, line)
  = mkWalk (w_mgr w) (Some (strip label))
      (collected_original_lines_for_entry w ++ [line]).
Proof.
  intros Es Hm Hws Hl Hh.
  destruct (name_comment_match mark ws label Hm Hws Hl Hh) as (c & Ec & H1).
  unfold parse_step. rewrite Es, Ec. unfold group. rewrite H1. reflexivity.
Qed.

(** X2. The label an annotation line sets: for a line whose stripped text
    is the marker (in any case), whitespace, and a text on one line that
    does not start with whitespace, one step of the walk makes that text,
    trimmed, the pending label, replacing any earlier one, and keeps the
    line in the buffer; entries, identifiers and diagnostics are left as
    they are. *)
Theorem annotation_line_label
    (strict : bool) (w : walk) (n : nat) (line mark ws label : str) :
  strip line = mark ++ ws ++ label ->
  ci_str (strip NAME_COMMENT_PREFIX) mark = true ->
  forallb is_space ws = true ->
  forallb not_newline label = true ->
  match label with [] => True | y :: _ => is_space y = false end ->
  last_seen_name (parse_step strict w (n, line)) = Some (strip label) /\
  collected_original_lines_for_entry (parse_step strict w (n, line))
  = collected_original_lines_for_entry w ++ [line] /\
  w_mgr (parse_step strict w (n, line)) = w_mgr w.
Proof.
  intros Es Hm Hws Hl Hh.
  rewrite (@parse_step_annotation_exact strict w n line mark ws label
             Es Hm Hws Hl Hh).
  repeat split.
Qed.

Lemma annotation_line_label_witness :
  last_seen_name (parse_step false walk0 (0, annotation_line))
  = Some (strip (lit "A")).
Proof.
  apply (@annotation_line_label false walk0 0 annotation_line
           (lit "## APT Proxy Editor Name:") [SPACE] (lit "A")
           eq_refl eq_refl eq_refl eq_refl eq_refl).
Defined.

(** ** Reading back the lines of an entry *)

Unset Implicit Arguments.

Lemma standard_kind_word (t : str) :
  In t standard_types -> is_kind_word t = true /\ upper t = t.
Proof.
  unfold standard_types. simpl.
  intros [<-|[<-|[<-|[<-|[]]]]]; split; reflexivity.
Qed.

(** The directive line of an entry, as [to_conf_strings] builds it. *)
Lemma to_conf_strings_split (p : ProxyEntry) :
  to_conf_strings p
  = (if nonempty (name p) then [NAME_COMMENT_PREFIX ++ name p] else [])
    ++ [core_text (if enabled p then [] else lit "# ") (lit "Acquire::")
          (proxy_type p) (lit "::Proxy") [SPACE] (url p) ++ [SEMI]].
Proof.
  unfold to_conf_strings, core_text.
  destruct (enabled p); f_equal; f_equal; rewrite <- ?app_assoc;
    simpl; rewrite <- ?app_assoc; reflexivity.
Qed.

Lemma written_core_shape (p : ProxyEntry) :
  readable_entry p ->
  core_shape (if enabled p then [] else lit "# ") (lit "Acquire::")
    (proxy_type p) (lit "::Proxy") [SPACE] (url p).
Proof.
  intros (Hk & Hu & Hq & _). destruct (standard_kind_word _ Hk) as [Hw _].
  unfold core_shape. repeat split; auto; try discriminate.
  now destruct (enabled p).
Qed.

Lemma strip_terminated (a : ascii) (body : str) :
  is_space a = false ->
  strip ((a :: body ++ [SEMI]) ++ [LF]) = a :: body ++ [SEMI].
Proof.
  intros Ha. simpl. rewrite <- app_assoc. simpl.
  now apply strip_framed.
Qed.

Lemma written_directive_strip (p : ProxyEntry) :
  strip ((core_text (if enabled p then [] else lit "# ") (lit "Acquire::")
            (proxy_type p) (lit "::Proxy") [SPACE] (url p) ++ [SEMI]) ++ [LF])
  = core_text (if enabled p then [] else lit "# ") (lit "Acquire::")
      (proxy_type p) (lit "::Proxy") [SPACE] (url p) ++ [SEMI].
Proof.
  destruct (enabled p).
  - replace (core_text [] (lit "Acquire::") (proxy_type p) (lit "::Proxy")
               [SPACE] (url p) ++ [SEMI])
      with ("A"%char :: (lit "cquire::" ++ proxy_type p ++ lit "::Proxy"
                           ++ [SPACE] ++ [QUOTE] ++ url p ++ [QUOTE])
                        ++ [SEMI])
      by (unfold core_text; simpl; rewrite <- ?app_assoc; reflexivity).
    now apply strip_terminated.
  - replace (core_text (lit "# ") (lit "Acquire::") (proxy_type p)
               (lit "::Proxy") [SPACE] (url p) ++ [SEMI])
      with ("#"%char :: (lit " Acquire::" ++ proxy_type p ++ lit "::Proxy"
                           ++ [SPACE] ++ [QUOTE] ++ url p ++ [QUOTE])
                        ++ [SEMI])
      by (unfold core_text; simpl; rewrite <- ?app_assoc; reflexivity).
    now apply strip_terminated.
Qed.

Lemma written_annotation_strip (nm : str) :
  nm <> [] -> strip nm = nm ->
  strip ((NAME_COMMENT_PREFIX ++ nm) ++ [LF]) = NAME_COMMENT_PREFIX ++ nm.
Proof.
  intros Hne Hs.
  destruct (@trimmed_framed nm Hs Hne) as [_ (u & z & E & Hz)].
  rewrite E.
  replace ((NAME_COMMENT_PREFIX ++ u ++ [z]) ++ [LF])
    with ("#"%char :: (lit "# APT Proxy Editor Name: " ++ u) ++ z :: [LF])
    by (change NAME_COMMENT_PREFIX
          with ("#"%char :: lit "# APT Proxy Editor Name: ");
        simpl; rewrite <- !app_assoc; reflexivity).
  rewrite (@strip_framed "#"%char _ z [LF]) by (assumption || reflexivity).
  change NAME_COMMENT_PREFIX
    with ("#"%char :: lit "# APT Proxy Editor Name: ").
  simpl. rewrite <- ?app_assoc. reflexivity.
Qed.

(** One written annotation line makes its label pending. *)
Lemma written_annotation_step strict w n nm :
  nm <> [] -> strip nm = nm -> forallb not_newline nm = true ->
  parse_step strict w (n, (NAME_COMMENT_PREFIX ++ nm) ++ [LF])
  = mkWalk (w_mgr w) (Some nm)
      (collected_original_lines_for_entry w
         ++ [(NAME_COMMENT_PREFIX ++ nm) ++ [LF]]).
Proof.
  intros Hne Hs Hl.
  destruct (@trimmed_framed nm Hs Hne) as [(a & t & E & Ha) _].
  rewrite (@parse_step_annotation_exact strict w n _
             (strip NAME_COMMENT_PREFIX) [SPACE] nm).
  - now rewrite Hs.
  - rewrite written_annotation_strip by assumption. reflexivity.
  - reflexivity.
  - reflexivity.
  - assumption.
  - rewrite E. assumption.
Qed.

(** One written directive line yields the entry it was written from. *)
Lemma written_directive_step strict w n p :
  readable_entry p ->
  parse_step strict w
    (n, (core_text (if enabled p then [] else lit "# ") (lit "Acquire::")
           (proxy_type p) (lit "::Proxy") [SPACE] (url p) ++ [SEMI]) ++ [LF])
  = mkWalk
      (append_proxy (snd (_generate_id (w_mgr w)))
         (mkProxyEntry (S (next_id (w_mgr w))) (proxy_type p) (url p)
            (enabled p)
            (match last_seen_name w with Some l => l | None => [] end)
            (collected_original_lines_for_entry w
               ++ [(core_text (if enabled p then [] else lit "# ")
                      (lit "Acquire::") (proxy_type p) (lit "::Proxy")
                      [SPACE] (url p) ++ [SEMI]) ++ [LF]])))
      None [].
Proof.
  intros Hp.
  rewrite (@parse_step_directive_exact strict w n _
             (if enabled p then [] else lit "# ") (lit "Acquire::")
             (proxy_type p) (lit "::Proxy") [SPACE] (url p) [] []).
  - unfold new_ProxyEntry. destruct Hp as (Hk & _).
    destruct (standard_kind_word _ Hk) as [_ ->].
    now destruct (enabled p).
  - rewrite written_directive_strip. reflexivity.
  - now apply written_core_shape.
  - reflexivity.
  - auto.
Qed.

(** Walking the lines of one entry, from a state with no pending label,
    appends that entry. *)
Lemma written_lines_walk
    (strict : bool) (w : walk) (n : nat) (p : ProxyEntry) :
  readable_entry p ->
  last_seen_name w = None ->
  fold_left (parse_step strict) (enumerate_from n (written_lines p)) w
  = mkWalk
      (append_proxy (snd (_generate_id (w_mgr w)))
         (mkProxyEntry (S (next_id (w_mgr w))) (proxy_type p) (url p)
            (enabled p) (name p)
            (collected_original_lines_for_entry w ++ written_lines p)))
      None [].
Proof.
  intros Hp Hl. pose proof Hp as (_ & _ & _ & Hs & Hnl).
  unfold written_lines. rewrite to_conf_strings_split.
  destruct (name p) as [|a nm] eqn:En; cbn [nonempty app map enumerate_from
                                            fold_left].
  - rewrite written_directive_step by assumption. rewrite Hl. reflexivity.
  - rewrite written_annotation_step by (assumption || discriminate).
    rewrite written_directive_step by assumption.
    cbn [w_mgr last_seen_name collected_original_lines_for_entry].
    rewrite <- app_assoc. reflexivity.
Qed.

Lemma office_ftp_readable : readable_entry office_ftp.
Proof.
  unfold readable_entry. simpl.
  repeat split; try reflexivity; try discriminate. tauto.
Qed.

Lemma parse_step_blank (strict : bool) (w : walk) (n : nat) (line : str) :
  strip line = [] -> parse_step strict w (n, line) = mkWalk (w_mgr w) None [].
Proof.
  intros E. unfold parse_step. rewrite E. now destruct strict.
Qed.

Lemma enumerate_from_app {T : Type} (a b : list T) (n : nat) :
  enumerate_from n (a ++ b)
  = enumerate_from n a ++ enumerate_from (n + length a) b.
Proof.
  revert n. induction a as [|x a IH]; intros n; simpl.
  - now rewrite Nat.add_0_r.
  - rewrite IH. do 3 f_equal. lia.
Qed.

(** Walking everything the serializer writes for a list of entries. *)
Lemma proxy_writes_walk (strict : bool) (ps : list ProxyEntry) :
  Forall (fun p => is_written p = true -> readable_entry p) ps ->
  forall (w : walk) (n : nat),
    last_seen_name w = None ->
    let w' := fold_left (parse_step strict)
                (enumerate_from n (proxy_writes ps)) w in
    last_seen_name w' = None /\
    map entry_data (proxies (w_mgr w'))
    = map entry_data (proxies (w_mgr w))
      ++ map entry_data (filter is_written ps) /\
    map id (proxies (w_mgr w'))
    = map id (proxies (w_mgr w))
      ++ seq (S (next_id (w_mgr w))) (length (filter is_written ps)) /\
    next_id (w_mgr w') = next_id (w_mgr w) + length (filter is_written ps) /\
    initial_syntax_error (w_mgr w') = initial_syntax_error (w_mgr w).
Proof.
  induction 1 as [|p rest Hp Hrest IH]; intros w n Hl; cbn zeta.
  - simpl. rewrite !app_nil_r, Nat.add_0_r. auto.
  - cbn [proxy_writes filter]. destruct (is_written p) eqn:Ew.
    + specialize (Hp eq_refl).
      pose proof (written_lines_walk strict w n p Hp Hl) as Hw.
      unfold written_lines in Hw.
      rewrite <- app_assoc, enumerate_from_app, fold_left_app.
      rewrite Hw. clear Hw.
      set (w1 := mkWalk _ None []).
      assert (Hsep : forall sep m,
                 sep = [] \/ sep = [[LF]] ->
                 fold_left (parse_step strict) (enumerate_from m sep) w1 = w1).
      { intros sep m [-> | ->]; [reflexivity|].
        cbn [enumerate_from fold_left].
        rewrite parse_step_blank by reflexivity. reflexivity. }
      rewrite enumerate_from_app, fold_left_app.
      rewrite Hsep.
      2:{ destruct (nonempty (name p)); [|now left].
          destruct rest as [|next rest']; [now left|].
          destruct (is_written next); [now right | now left]. }
      match goal with
      | |- context [enumerate_from ?m (proxy_writes rest)] =>
          destruct (IH w1 m eq_refl) as (H1 & H2 & H3 & H4 & H5)
      end.
      rewrite H1, H2, H3, H4, H5. subst w1.
      cbn [w_mgr append_proxy _generate_id snd proxies set_proxies
           next_id initial_syntax_error].
      rewrite !map_app. cbn [map length seq].
      rewrite <- !app_assoc. cbn [app entry_data id proxy_type url enabled name].
      repeat split; auto; lia.
    + cbn [app]. apply IH. assumption.
Qed.

(** X3. Round trip of entries through their rendering: walking the lines
    the serializer writes for a list of entries, each written entry having
    a standard kind, a non-empty target without a quote and a trimmed
    one-line label, gives back exactly the written entries, in order, with
    the same kind, target, enabled state and label, numbered from 1, and
    no diagnostic; unwritten entries (empty placeholders) leave no trace. *)
Theorem written_entries_read_back (strict : bool) (ps : list ProxyEntry) :
  Forall (fun p => is_written p = true -> readable_entry p) ps ->
  map entry_data
    (proxies (w_mgr (parse_lines strict new_ProxyManager (proxy_writes ps))))
  = map entry_data (filter is_written ps) /\
  map id
    (proxies (w_mgr (parse_lines strict new_ProxyManager (proxy_writes ps))))
  = seq 1 (length (filter is_written ps)) /\
  initial_syntax_error
    (w_mgr (parse_lines strict new_ProxyManager (proxy_writes ps))) = [] /\
  last_seen_name (parse_lines strict new_ProxyManager (proxy_writes ps)) = None.
Proof.
  intros H. unfold parse_lines.
  destruct (proxy_writes_walk strict ps H (mkWalk new_ProxyManager None []) 0
              eq_refl) as (H1 & H2 & H3 & _ & H5).
  cbn [w_mgr new_ProxyManager proxies next_id initial_syntax_error map app]
    in *.
  auto.
Qed.

Lemma written_entries_read_back_witness :
  map entry_data
    (proxies (w_mgr (parse_lines false new_ProxyManager
                       (proxy_writes [office_ftp; socks_placeholder]))))
  = map entry_data (filter is_written [office_ftp; socks_placeholder]).
Proof.
  apply (written_entries_read_back false [office_ftp; socks_placeholder]).
  constructor; [intros _; exact office_ftp_readable|].
  constructor; [intros H; discriminate H | constructor].
Defined.

(** ** Lines the corrector changes *)

Lemma rstrip_with_prefix_all (p : ascii -> bool) (s : str) :
  exists t, s = rstrip_with p s ++ t /\ forallb p t = true.
Proof.
  unfold rstrip_with. destruct (dropwhile_split p (rev s)) as (d & E & Hd).
  exists (rev d). split.
  - rewrite <- rev_app_distr, <- E. symmetry. apply rev_involutive.
  - rewrite forallb_forall in *. intros x Hx. apply Hd. now apply in_rev.
Qed.

Lemma is_crlf_space (c : ascii) : is_crlf c = true -> is_space c = true.
Proof.
  unfold is_crlf. intros H. apply orb_true_iff in H as [H|H];
    apply Ascii.eqb_eq in H; subst c; reflexivity.
Qed.

Lemma core_text_visible_head mk kw1 kind kw2 sp1 target :
  core_shape mk kw1 kind kw2 sp1 target ->
  exists a cr, core_text mk kw1 kind kw2 sp1 target = a :: cr /\
               is_space a = false.
Proof.
  intros (Hmk & Hkw1 & _). unfold core_text.
  destruct mk as [|x ws].
  - change (lit "Acquire::") with ("A"%char :: lit "cquire::") in Hkw1.
    apply ci_str_cons_inv in Hkw1 as (k0 & k' & -> & Hk0 & _).
    apply ci_eqb_A_plain in Hk0 as [Hs _]. simpl. eauto.
  - simpl in Hmk. apply andb_true_iff in Hmk as [Hx _].
    apply Ascii.eqb_eq in Hx. subst x. simpl. eauto.
Qed.

Lemma correction_pattern_run_full s c s' c' :
  run correction_pattern s c s' c' ->
  exists mk kw1 kind kw2 sp1 target sp sp2,
    s = core_text mk kw1 kind kw2 sp1 target ++ sp ++ [SEMI] ++ sp2 ++ s' /\
    core_shape mk kw1 kind kw2 sp1 target /\
    sp <> [] /\ forallb is_space sp = true /\
    forallb is_space sp2 = true /\ forallb is_space s' = true /\
    c' 1 = Some (core_text mk kw1 kind kw2 sp1 target).
Proof.
  intros H. unfold correction_pattern, seqs in H. cbn [fold_right] in H.
  apply run_Seq_inv in H as (s1 & c1 & Hcore & H).
  apply run_Seq_inv in H as (s2 & c2 & Hsp & H).
  apply run_Seq_inv in H as (s3 & c3 & Hsemi & H).
  apply run_Seq_inv in H as (s4 & c4 & Heol & H).
  apply run_Eps_inv in H as (Ec & Es). subst c4 s4.
  apply run_Eol_inv in Heol as (Ec & Es & Hend). subst c3 s3.
  assert (Hs' : forallb is_space s' = true)
    by (destruct Hend as [-> | ->]; reflexivity).
  apply run_Grp_inv in Hsemi as (c3 & Hsemi & Ec). subst c'.
  apply run_Seq_inv in Hsemi as (t1 & d1 & Hsemi & Hsp2).
  apply run_Chr_inv in Hsemi as (-> & x & -> & Hx). apply ci_eqb_SEMI in Hx.
  subst x.
  apply run_Star_inv in Hsp2 as (-> & sp2 & -> & Hsp2).
  apply run_Grp_inv in Hsp as (cs & Hsp & ->).
  apply run_Plus_inv in Hsp as (-> & sp & -> & Hspn & Hsp).
  apply run_Grp_inv in Hcore as (cc & Hcore & ->).
  apply run_Seq_inv in Hcore as (u1 & e1 & Hmk & Hcore).
  apply run_Seq_inv in Hcore as (u2 & e2 & Hkw1 & Hcore).
  apply run_Seq_inv in Hcore as (u3 & e3 & Hkind & Hcore).
  apply run_Seq_inv in Hcore as (u4 & e4 & Hkw2 & Hcore).
  apply run_Seq_inv in Hcore as (u5 & e5 & Hsp1 & Hcore).
  apply run_Seq_inv in Hcore as (u6 & e6 & Hq1 & Hcore).
  apply run_Seq_inv in Hcore as (u7 & e7 & Htg & Hcore).
  apply run_Seq_inv in Hcore as (u8 & e8 & Hq2 & Hcore).
  apply run_Eps_inv in Hcore as (Ec & Es). subst e8 u8.
  apply run_Chr_inv in Hq2 as (-> & q2 & -> & Hq2). apply ci_eqb_QUOTE in Hq2.
  subst q2.
  apply run_Plus_inv in Htg as (-> & target & -> & Htgn & Htg).
  apply run_Chr_inv in Hq1 as (-> & q1 & -> & Hq1). apply ci_eqb_QUOTE in Hq1.
  subst q1.
  apply run_Plus_inv in Hsp1 as (-> & sp1 & -> & Hsp1n & Hsp1).
  apply run_Lit_inv in Hkw2 as (-> & kw2 & -> & Hkw2).
  apply run_kind_alt_inv in Hkind as (-> & kind & -> & Hkind).
  apply run_Lit_inv in Hkw1 as (-> & kw1 & -> & Hkw1).
  assert (Hm : exists mk,
             s = mk ++ kw1 ++ kind ++ kw2 ++ sp1 ++ QUOTE :: target
                   ++ QUOTE :: sp ++ SEMI :: sp2 ++ s'
             /\ is_mark mk = true).
  { apply run_Opt_inv in Hmk as [Hmk | [E _]].
    - apply run_comment_mark_inv in Hmk as (_ & mk & -> & _ & Hmark).
      now exists mk.
    - exists []. split; [symmetry; exact E | reflexivity]. }
  destruct Hm as (mk & -> & Hmark).
  exists mk, kw1, kind, kw2, sp1, target, sp, sp2.
  assert (Ecore : forall t,
             mk ++ kw1 ++ kind ++ kw2 ++ sp1 ++ QUOTE :: target ++ QUOTE :: t
             = core_text mk kw1 kind kw2 sp1 target ++ t).
  { intros t. unfold core_text. rewrite <- !app_assoc. reflexivity. }
  rewrite !Ecore. rewrite !firstn_prefix.
  split; [reflexivity|]. split; [unfold core_shape; auto 10|].
  repeat split; auto.
Qed.

(** A line the correction pattern matches is, once stripped, a directive
    with whitespace before its semicolon and nothing after it. *)
Lemma correction_match_strip (l : str) (c : caps) :
  re_match correction_pattern (rstrip_crlf l) = Some c ->
  exists mk kw1 kind kw2 sp1 target sp,
    core_shape mk kw1 kind kw2 sp1 target /\
    sp <> [] /\ forallb is_space sp = true /\
    strip l = core_text mk kw1 kind kw2 sp1 target ++ sp ++ [SEMI] /\
    c 1 = Some (core_text mk kw1 kind kw2 sp1 target).
Proof.
  intros H. apply re_match_run in H as (s' & Hr).
  apply correction_pattern_run_full in Hr
    as (mk & kw1 & kind & kw2 & sp1 & target & sp & sp2 & E & Hc & Hspn & Hsp
        & Hsp2 & Hs' & H1).
  exists mk, kw1, kind, kw2, sp1, target, sp.
  split; [assumption|]. split; [assumption|]. split; [assumption|].
  split; [|assumption].
  destruct (rstrip_with_prefix_all is_crlf l) as (t & El & Ht).
  fold (rstrip_crlf l) in El. rewrite E in El.
  destruct (core_text_visible_head _ _ _ _ _ _ Hc) as (a & cr & Ecr & Ha).
  rewrite El, Ecr.
  replace ((a :: cr) ++ sp ++ [SEMI] ++ sp2 ++ s')
    with (a :: (cr ++ sp) ++ SEMI :: (sp2 ++ s'))
    by (simpl; rewrite <- !app_assoc; reflexivity).
  replace ((a :: (cr ++ sp) ++ SEMI :: sp2 ++ s') ++ t)
    with (a :: (cr ++ sp) ++ SEMI :: (sp2 ++ s' ++ t))
    by (simpl; rewrite <- !app_assoc; simpl; rewrite <- !app_assoc;
        reflexivity).
  rewrite (@strip_framed a (cr ++ sp) SEMI (sp2 ++ s' ++ t) Ha eq_refl).
  - simpl. rewrite <- !app_assoc. reflexivity.
  - rewrite !forallb_app, Hsp2, Hs'. simpl.
    rewrite forallb_forall in *. intros x Hx. apply is_crlf_space.
    now apply Ht.
Qed.

Lemma corrected_line_strip mk kw1 kind kw2 sp1 target :
  core_shape mk kw1 kind kw2 sp1 target ->
  strip (core_text mk kw1 kind kw2 sp1 target ++ [SEMI] ++ [LF])
  = core_text mk kw1 kind kw2 sp1 target ++ [SEMI].
Proof.
  intros Hc.
  destruct (core_text_visible_head _ _ _ _ _ _ Hc) as (a & cr & -> & Ha).
  rewrite app_assoc. now apply strip_terminated.
Qed.

(** X4. The corrector keeps what a line means.  A line it leaves alone is
    returned as it is.  A line it changes is a directive with whitespace
    before its semicolon: read leniently as it was, and read strictly once
    corrected, it yields an entry with the same identifier, kind, target,
    enabled state and label. *)
Theorem correction_keeps_entry (w : walk) (n : nat) (l : str) :
  (snd (correct_line l) = false -> fst (correct_line l) = l) /\
  (snd (correct_line l) = true ->
   exists p p',
     proxies (w_mgr (parse_step false w (n, l))) = proxies (w_mgr w) ++ [p] /\
     proxies (w_mgr (parse_step true w (n, fst (correct_line l))))
     = proxies (w_mgr w) ++ [p'] /\
     entry_data p = entry_data p' /\ id p = id p').
Proof.
  unfold correct_line.
  destruct (re_match correction_pattern (rstrip_crlf l)) as [c|] eqn:Em;
    [|split; [reflexivity | discriminate]].
  apply correction_match_strip in Em
    as (mk & kw1 & kind & kw2 & sp1 & target & sp & Hc & Hspn & Hsp & Es & H1).
  unfold group. rewrite H1.
  destruct (nonempty match c 2 with Some v => v | None => [] end);
    [|split; [reflexivity | discriminate]].
  destruct (negb (str_eqb (rstrip_crlf l) _));
    [|split; [reflexivity | discriminate]].
  cbn [fst snd]. split; [discriminate|]. intros _.
  assert (Es' : strip l
                = core_text mk kw1 kind kw2 sp1 target ++ sp ++ [SEMI] ++ [])
    by (rewrite Es; reflexivity).
  rewrite (@parse_step_directive_exact false w n l mk kw1 kind kw2 sp1 target
             sp [] Es' Hc Hsp)
    by (intros H; discriminate H).
  rewrite <- app_assoc.
  rewrite (@parse_step_directive_exact true w n _ mk kw1 kind kw2 sp1 target
             [] [] (corrected_line_strip _ _ _ _ _ _ Hc) Hc eq_refl)
    by auto.
  do 2 eexists. cbn. repeat split.
Qed.

Lemma correction_keeps_entry_witness :
  exists p p',
    proxies (w_mgr (parse_step false walk0 (0, defective_line)))
    = proxies (w_mgr walk0) ++ [p] /\
    proxies (w_mgr (parse_step true walk0
                      (0, fst (correct_line defective_line))))
    = proxies (w_mgr walk0) ++ [p'] /\
    entry_data p = entry_data p' /\ id p = id p'.
Proof.
  apply (proj2 (correction_keeps_entry walk0 0 defective_line)).
  vm_compute. reflexivity.
Defined.

(** ** Loading what a save wrote *)

Lemma matches_false_re_match (r : regex) (s : str) :
  matches r s = false -> re_match r s = None.
Proof. unfold matches. destruct (re_match r s); [discriminate | reflexivity]. Qed.

Lemma other_line_no_match (line : str) :
  is_other_line line = true ->
  re_match name_comment_parser (strip line) = None /\
  re_match (proxy_parser false) (strip line) = None.
Proof.
  unfold is_other_line. intros H. apply andb_true_iff in H as [H1 H2].
  apply negb_true_iff in H1, H2. split; apply matches_false_re_match.
  - now rewrite <- serializer_annotation_is_loader.
  - now rewrite <- serializer_directive_is_lenient.
Qed.

(** A preserved line gives the lenient loader no entry and no label. *)
Lemma other_line_step (w : walk) (n : nat) (line : str) :
  is_other_line line = true ->
  last_seen_name w = None ->
  proxies (w_mgr (parse_step false w (n, line))) = proxies (w_mgr w) /\
  next_id (w_mgr (parse_step false w (n, line))) = next_id (w_mgr w) /\
  last_seen_name (parse_step false w (n, line)) = None.
Proof.
  intros Ho Hl. destruct (other_line_no_match line Ho) as [Hn Hp].
  unfold parse_step. rewrite Hn, Hp.
  destruct (nonempty (strip line) && negb (startswith [HASH] (strip line))).
  - destruct (contains (lit "::Proxy") (strip line)); auto.
  - destruct (negb (nonempty (strip line))); auto.
Qed.

Lemma other_lines_walk (lines : list str) :
  Forall (fun l => is_other_line l = true) lines ->
  forall (w : walk) (n : nat),
    last_seen_name w = None ->
    proxies (w_mgr (fold_left (parse_step false) (enumerate_from n lines) w))
    = proxies (w_mgr w) /\
    next_id (w_mgr (fold_left (parse_step false) (enumerate_from n lines) w))
    = next_id (w_mgr w) /\
    last_seen_name (fold_left (parse_step false) (enumerate_from n lines) w)
    = None.
Proof.
  induction 1 as [|l lines Hl Hrest IH]; intros w n Hw; [auto|].
  cbn [enumerate_from fold_left].
  destruct (other_line_step w n l Hl Hw) as (H1 & H2 & H3).
  destruct (IH (parse_step false w (n, l)) (S n) H3) as (H4 & H5 & H6).
  rewrite H4, H5, H6. auto.
Qed.

(** The corrector leaves preserved lines alone. *)
Lemma other_line_not_corrected (l : str) :
  is_other_line l = true -> correct_line l = (l, false).
Proof.
  intros Ho. unfold correct_line.
  destruct (re_match correction_pattern (rstrip_crlf l)) as [c|] eqn:Em;
    [|reflexivity].
  exfalso. apply correction_match_strip in Em
    as (mk & kw1 & kind & kw2 & sp1 & target & sp & Hc & _ & Hsp & Es & _).
  unfold is_other_line in Ho. apply andb_true_iff in Ho as [Ho _].
  apply negb_true_iff in Ho.
  assert (Hm : matches proxy_line_parser (strip l) = true).
  { apply proxy_line_parser_shape.
    exists mk, kw1, kind, kw2, sp1, target, sp, [].
    split; [assumption|]. split; [assumption|]. split; [assumption|].
    intros Hf. discriminate Hf. }
  congruence.
Qed.

(** The corrector leaves the lines of a written entry alone. *)
Lemma written_line_not_corrected (p : ProxyEntry) (l : str) :
  readable_entry p -> In l (written_lines p) -> correct_line l = (l, false).
Proof.
  intros Hp Hin. unfold correct_line.
  destruct (re_match correction_pattern (rstrip_crlf l)) as [c|] eqn:Em;
    [|reflexivity].
  exfalso. apply correction_match_strip in Em
    as (mk & kw1 & kind & kw2 & sp1 & target & sp & Hc & Hspn & _ & Es & _).
  unfold written_lines in Hin. rewrite to_conf_strings_split in Hin.
  rewrite map_app in Hin. apply in_app_or in Hin as [Hin | Hin].
  - destruct (nonempty (name p)) eqn:En; [|destruct Hin].
    destruct Hin as [<- | []].
    destruct Hp as (_ & _ & _ & Hs & _).
    assert (Hne : name p <> [])
      by (intros E0; rewrite E0 in En; simpl in En; discriminate En).
    rewrite written_annotation_strip in Es by assumption.
    change NAME_COMMENT_PREFIX
      with (HASH :: HASH :: lit " APT Proxy Editor Name: ") in Es.
    symmetry in Es. simpl in Es.
    eapply (@core_text_head mk kw1 kind kw2 sp1 target); eassumption.
  - destruct Hin as [<- | []]. rewrite written_directive_strip in Es.
    apply core_parts_unique in Es as (_ & _ & _ & Et);
      [|now apply written_core_shape | assumption].
    destruct sp as [|x sp]; [contradiction|].
    simpl in Et. inversion Et as [[Ex Er]]. destruct sp; discriminate Er.
Qed.

Lemma proxy_writes_In (ps : list ProxyEntry) (l : str) :
  In l (proxy_writes ps) ->
  l = [LF] \/
  exists p, In p ps /\ is_written p = true /\ In l (written_lines p).
Proof.
  induction ps as [|p rest IH]; simpl; [intros []|].
  intros H. apply in_app_or in H as [H | H].
  - destruct (is_written p) eqn:Ew; [|destruct H].
    apply in_app_or in H as [H | H].
    + right. exists p. auto.
    + left. destruct (nonempty (name p)); [|destruct H].
      destruct rest as [|next rest']; [destruct H|].
      destruct (is_written next); [|destruct H].
      destruct H as [<- | []]. reflexivity.
  - destruct (IH H) as [-> | (q & Hq & Hw & Hl)]; [now left|].
    right. exists q. auto.
Qed.

Lemma standard_kind_plain (t : str) :
  In t standard_types ->
  forallb not_newline t = true /\ forallb not_cr t = true.
Proof.
  unfold standard_types. simpl.
  intros [<-|[<-|[<-|[<-|[]]]]]; split; reflexivity.
Qed.

(** The lines of a storable entry are terminated lines without a carriage
    return. *)
Lemma written_line_complete (p : ProxyEntry) (l : str) :
  storable_entry p -> In l (written_lines p) ->
  complete_line l /\ forallb not_cr l = true.
Proof.
  intros ((Hk & _ & _ & _ & Hnl) & Hul & Hucr & Hncr) Hin.
  destruct (standard_kind_plain _ Hk) as [Hkl Hkc].
  unfold written_lines in Hin. rewrite to_conf_strings_split in Hin.
  apply in_map_iff in Hin as (x & <- & Hx).
  assert (Hx' : forallb not_newline x = true /\ forallb not_cr x = true).
  { apply in_app_or in Hx as [Hx | Hx].
    - destruct (nonempty (name p)); [|destruct Hx]. destruct Hx as [<- | []].
      rewrite !forallb_app, Hnl, Hncr. split; reflexivity.
    - destruct Hx as [<- | []]. unfold core_text.
      rewrite !forallb_app, Hkl, Hkc, Hul, Hucr.
      destruct (enabled p); split; reflexivity. }
  destruct Hx' as [H1 H2]. split.
  - exists x. auto.
  - rewrite forallb_app, H2. reflexivity.
Qed.

Lemma complete_file_lines (ls : list str) :
  Forall complete_line ls -> file_lines ls.
Proof.
  induction 1 as [|l ls Hl Hls IH]; [exact I|].
  cbn [file_lines]. destruct ls; [now left | now split].
Qed.

Lemma separator_writes_cases (preserved : list str) (ps : list ProxyEntry) :
  separator_writes preserved ps = [] \/ separator_writes preserved ps = [[LF]].
Proof.
  unfold separator_writes. destruct preserved; [now left|].
  destruct ps; [now left|].
  destruct (nonempty (strip (last (s :: preserved) []))); auto.
Qed.

Lemma blank_line_facts :
  complete_line [LF] /\ forallb not_cr [LF] = true /\
  correct_line [LF] = ([LF], false).
Proof.
  split; [exists []; split; reflexivity | split; reflexivity].
Qed.

(** What a save writes: terminated lines, free of carriage returns, that the
    corrector leaves alone. *)
Lemma save_writes_facts (preserved : list str) (ps : list ProxyEntry) :
  Forall (fun l => is_other_line l = true) preserved ->
  Forall complete_line preserved ->
  Forall (fun l => forallb not_cr l = true) preserved ->
  Forall (fun p => is_written p = true -> storable_entry p) ps ->
  Forall complete_line (save_writes preserved ps) /\
  Forall (fun l => forallb not_cr l = true) (save_writes preserved ps) /\
  any_line_changed_in_memory (save_writes preserved ps) = false.
Proof.
  intros Ho Hc Hcr Hps.
  destruct blank_line_facts as (Hb1 & Hb2 & Hb3).
  assert (Hall : Forall (fun l => complete_line l /\
                                  forallb not_cr l = true /\
                                  correct_line l = (l, false))
                   (save_writes preserved ps)).
  { unfold save_writes. rewrite !Forall_app. repeat split.
    - rewrite Forall_forall in *. intros l Hl. repeat split; auto.
      now apply other_line_not_corrected, Ho.
    - destruct (separator_writes_cases preserved ps) as [-> | ->];
        repeat constructor; assumption.
    - rewrite Forall_forall in *. intros l Hl.
      apply proxy_writes_In in Hl as [-> | (p & Hp & Hw & Hl)];
        [repeat split; assumption|].
      specialize (Hps p Hp Hw).
      destruct (written_line_complete p l Hps Hl) as [H1 H2].
      repeat split; auto.
      apply (written_line_not_corrected p); [apply Hps | assumption]. }
  repeat split.
  - eapply Forall_impl; [|exact Hall]. now intros l (H & _).
  - eapply Forall_impl; [|exact Hall]. now intros l (_ & H & _).
  - unfold any_line_changed_in_memory.
    induction Hall as [|l ls (_ & _ & Hl) _ IH]; [reflexivity|].
    cbn [existsb]. rewrite Hl. exact IH.
Qed.

(** Loading a file that holds terminated lines the corrector leaves alone
    reads them leniently and touches nothing. *)
Lemma load_clean_file (mg : ProxyManager) (fs : filesys) (lines : list str) :
  file fs = Some (concat lines) ->
  can_read fs = true ->
  Forall complete_line lines ->
  Forall (fun l => forallb not_cr l = true) lines ->
  any_line_changed_in_memory lines = false ->
  load_proxies_from_conf mg fs
  = (false,
     _add_placeholder_proxies_if_needed
       (w_mgr (parse_lines false (mkProxyManager [] 0 [] true) lines)),
     fs).
Proof.
  intros Hf Hr Hc Hcr Hn. unfold load_proxies_from_conf.
  rewrite Hf, Hr. cbn [negb is_some].
  rewrite readlines_concat by (auto using complete_file_lines).
  rewrite correction_pass_nothing_to_do by assumption. reflexivity.
Qed.

Lemma preserved_lines_facts (fs : filesys) :
  (forall content, file fs = Some content ->
                   Forall complete_line (readlines content)) ->
  let preserved :=
    if is_some (file fs) then other_lines_to_preserve fs else [] in
  Forall (fun l => is_other_line l = true) preserved /\
  Forall complete_line preserved /\
  Forall (fun l => forallb not_cr l = true) preserved.
Proof.
  intros Hc. cbn zeta. unfold other_lines_to_preserve.
  destruct (file fs) as [content|] eqn:Ef; cbn [is_some];
    [|repeat split; constructor].
  destruct (can_read fs); [|repeat split; constructor].
  repeat split.
  - rewrite Forall_forall. intros l Hl. now apply filter_In in Hl as [_ Hl].
  - apply Forall_filter. now apply Hc.
  - apply Forall_filter. apply readlines_no_cr.
Qed.

Lemma save_keeps_can_read (mg : ProxyManager) (fs : filesys) (sa : bool) :
  can_read (snd (save_proxies_to_conf mg fs sa)) = can_read fs.
Proof.
  unfold save_proxies_to_conf.
  destruct (negb (can_write_to_conf fs)); [reflexivity|].
  pose proof (create_backup_keeps fs (lit "pre_manual_save")) as (_ & Hr & _).
  destruct (create_backup fs (lit "pre_manual_save")) as [b fsb].
  cbn [snd] in Hr.
  destruct (negb b && negb sa); [exact Hr|].
  pose proof (write_all_keeps fsb
                (save_writes
                   (if apt_conf_exists (set_exists mg (is_some (file fs)))
                    then other_lines_to_preserve fsb else [])
                   (proxies (set_exists mg (is_some (file fs)))))) as Hk.
  destruct (write_all fsb _) as [wr fsw]. cbn [snd] in *. congruence.
Qed.

(** Walking the lines of a save from the start of a file. *)
Lemma save_writes_walk (preserved : list str) (ps : list ProxyEntry)
      (mg0 : ProxyManager) :
  proxies mg0 = [] -> next_id mg0 = 0 ->
  Forall (fun l => is_other_line l = true) preserved ->
  Forall (fun p => is_written p = true -> readable_entry p) ps ->
  map entry_data
    (proxies (w_mgr (parse_lines false mg0 (save_writes preserved ps))))
  = map entry_data (filter is_written ps) /\
  map id (proxies (w_mgr (parse_lines false mg0 (save_writes preserved ps))))
  = seq 1 (length (filter is_written ps)).
Proof.
  intros Hp0 Hn0 Ho Hps. unfold parse_lines, save_writes.
  rewrite !enumerate_from_app, !fold_left_app.
  destruct (other_lines_walk preserved Ho (mkWalk mg0 None []) 0 eq_refl)
    as (H1 & H2 & H3).
  set (w1 := fold_left (parse_step false) (enumerate_from 0 preserved)
               (mkWalk mg0 None [])) in *.
  set (w2 := fold_left (parse_step false)
               (enumerate_from (0 + length preserved)
                  (separator_writes preserved ps)) w1).
  assert (H2' : proxies (w_mgr w2) = proxies (w_mgr w1) /\
                next_id (w_mgr w2) = next_id (w_mgr w1) /\
                last_seen_name w2 = None).
  { subst w2. destruct (separator_writes_cases preserved ps) as [-> | ->].
    - cbn [enumerate_from fold_left]. auto.
    - cbn [enumerate_from fold_left].
      rewrite parse_step_blank by reflexivity. auto. }
  destruct H2' as (H4 & H5 & H6).
  match goal with
  | |- context [enumerate_from ?m (proxy_writes ps)] =>
      destruct (proxy_writes_walk false ps Hps w2 m H6)
        as (_ & H7 & H8 & _ & _)
  end.
  rewrite H7, H8, H4, H5, H1, H2. cbn [w_mgr]. rewrite Hp0, Hn0.
  split; reflexivity.
Qed.

(** X5. What is saved is what is loaded.  After a successful save of a
    manager whose written entries have a standard kind, a non-empty target
    without a quote or line end, and a trimmed label without a line end,
    over a readable target whose lines are all terminated (or over no
    file), the next load corrects nothing and leaves the file system as
    the save left it, and its entry list is the written entries, in order,
    with the same kind, target, enabled state and label, followed by
    placeholders only. *)
Theorem saved_entries_load_back
    (mg mg' : ProxyManager) (fs : filesys) (save_anyway : bool) :
  fst (fst (save_proxies_to_conf mg fs save_anyway)) = true ->
  can_read fs = true ->
  (forall content, file fs = Some content ->
                   Forall complete_line (readlines content)) ->
  Forall (fun p => is_written p = true -> storable_entry p) (proxies mg) ->
  fst (fst (load_proxies_from_conf mg'
              (snd (save_proxies_to_conf mg fs save_anyway)))) = false /\
  snd (load_proxies_from_conf mg'
         (snd (save_proxies_to_conf mg fs save_anyway)))
  = snd (save_proxies_to_conf mg fs save_anyway) /\
  exists phs,
    Forall is_placeholder phs /\
    map entry_data
      (proxies (snd (fst (load_proxies_from_conf mg'
                            (snd (save_proxies_to_conf mg fs save_anyway))))))
    = map entry_data (filter is_written (proxies mg)) ++ map entry_data phs.
Proof.
  intros Hok Hr Hlines Hps.
  pose proof (save_true_inv mg fs save_anyway Hok) as Hf.
  pose proof (save_keeps_can_read mg fs save_anyway) as Hr'.
  rewrite Hr in Hr'.
  destruct (preserved_lines_facts fs Hlines) as (Ho & Hc & Hcr).
  destruct (save_writes_facts _ (proxies mg) Ho Hc Hcr Hps)
    as (Hwc & Hwcr & Hwn).
  unfold complete_new_content, writes_of_save in Hf.
  rewrite (load_clean_file mg' _ _ Hf Hr' Hwc Hwcr Hwn). cbn [fst snd].
  split; [reflexivity|]. split; [reflexivity|].
  assert (Hps' : Forall (fun p => is_written p = true -> readable_entry p)
                   (proxies mg)).
  { eapply Forall_impl; [|exact Hps]. intros p Hp Hw. now apply Hp. }
  destruct (save_writes_walk _ (proxies mg) (mkProxyManager [] 0 [] true)
              eq_refl eq_refl Ho Hps') as (Hd & _).
  destruct (placeholders_added
              (w_mgr (parse_lines false (mkProxyManager [] 0 [] true)
                        (save_writes
                           (if is_some (file fs)
                            then other_lines_to_preserve fs else [])
                           (proxies mg)))))
    as (phs & E & Hph).
  exists phs. split; [assumption|]. rewrite E, map_app, Hd. reflexivity.
Qed.

Lemma edited_manager_storable :
  Forall (fun p => is_written p = true -> storable_entry p)
    (proxies edited_manager).
Proof.
  constructor.
  - intros _. split; [exact office_ftp_readable | repeat split].
  - constructor; [intros H; discriminate H | constructor].
Qed.

Lemma saved_entries_load_back_witness :
  exists phs,
    Forall is_placeholder phs /\
    map entry_data
      (proxies (snd (fst (load_proxies_from_conf new_ProxyManager
                            (snd (save_proxies_to_conf edited_manager
                                    keep_only_fs false))))))
    = map entry_data (filter is_written (proxies edited_manager))
      ++ map entry_data phs.
Proof.
  refine (proj2 (proj2 (saved_entries_load_back edited_manager
                          new_ProxyManager keep_only_fs false
                          eq_refl eq_refl _ edited_manager_storable))).
  intros content E. inversion E; subst content. vm_compute.
  constructor; [|constructor].
  exists (lit "keep"). split; reflexivity.
Defined.

(** ** Identifiers *)

Lemma parse_step_ids strict w nl :
  map id (proxies (w_mgr w)) = seq 1 (next_id (w_mgr w)) ->
  map id (proxies (w_mgr (parse_step strict w nl)))
  = seq 1 (next_id (w_mgr (parse_step strict w nl))).
Proof.
  intros H. destruct nl as [n line]. unfold parse_step.
  destruct (re_match name_comment_parser (strip line)); [exact H|].
  destruct (re_match (proxy_parser strict) (strip line)) as [pc|].
  - cbn [w_mgr append_proxy set_proxies _generate_id snd proxies next_id].
    rewrite map_app, H, seq_S. reflexivity.
  - destruct (nonempty (strip line) && negb (startswith [HASH] (strip line))).
    + destruct (contains (lit "::Proxy") (strip line)); exact H.
    + destruct (negb (nonempty (strip line))); exact H.
Qed.

Lemma fold_parse_step_ids strict nls :
  forall w,
    map id (proxies (w_mgr w)) = seq 1 (next_id (w_mgr w)) ->
    map id (proxies (w_mgr (fold_left (parse_step strict) nls w)))
    = seq 1 (next_id (w_mgr (fold_left (parse_step strict) nls w))).
Proof.
  induction nls as [|nl nls IH]; intros w H; simpl; [exact H|].
  apply IH. now apply parse_step_ids.
Qed.

Lemma placeholder_step_ids existing mg t :
  map id (proxies mg) = seq 1 (next_id mg) ->
  map id (proxies (placeholder_step existing mg t))
  = seq 1 (next_id (placeholder_step existing mg t)).
Proof.
  intros H. unfold placeholder_step.
  destruct (negb (mem_str t existing)); [|exact H].
  destruct (negb (existsb _ (proxies mg))); [|exact H].
  cbn [append_proxy set_proxies _generate_id snd proxies next_id].
  rewrite map_app, H, seq_S. reflexivity.
Qed.

Lemma placeholders_ids mg :
  map id (proxies mg) = seq 1 (next_id mg) ->
  map id (proxies (_add_placeholder_proxies_if_needed mg))
  = seq 1 (next_id (_add_placeholder_proxies_if_needed mg)).
Proof.
  unfold _add_placeholder_proxies_if_needed.
  generalize (map (fun p => upper (proxy_type p))
                (filter has_url_or_name (proxies mg))).
  intros existing. generalize standard_types. intros types. revert mg.
  induction types as [|t types IH]; intros mg H; simpl; [exact H|].
  apply IH. now apply placeholder_step_ids.
Qed.

Lemma correction_pass_ids mg0 fs lines :
  next_id (snd (fst (correction_pass mg0 fs lines))) = next_id mg0.
Proof.
  unfold correction_pass.
  destruct (can_write_to_conf fs && _); [|reflexivity].
  destruct (any_line_changed_in_memory _); [|reflexivity].
  destruct (create_backup fs _) as [[] fsb]; [|reflexivity].
  destruct (write_all fsb _) as [[] fsw]; reflexivity.
Qed.

(** X6. Identifiers after a load: whatever the file and the manager were,
    the entries of a freshly loaded manager are numbered 1, 2, 3, ... in
    list order and the counter equals their number; identifiers are
    therefore distinct and none is above the counter. *)
Theorem load_numbers_entries (mg : ProxyManager) (fs : filesys) :
  map id (proxies (snd (fst (load_proxies_from_conf mg fs))))
  = seq 1 (length (proxies (snd (fst (load_proxies_from_conf mg fs))))) /\
  next_id (snd (fst (load_proxies_from_conf mg fs)))
  = length (proxies (snd (fst (load_proxies_from_conf mg fs)))) /\
  ids_fresh (snd (fst (load_proxies_from_conf mg fs))).
Proof.
  assert (G : map id (proxies (snd (fst (load_proxies_from_conf mg fs))))
              = seq 1 (next_id (snd (fst (load_proxies_from_conf mg fs))))).
  { unfold load_proxies_from_conf.
    destruct (file fs) as [content|].
    - destruct (negb (can_read fs)); [reflexivity|].
      pose proof (correction_pass_proxies
                    (mkProxyManager [] 0 [] (is_some (Some content))) fs
                    (readlines content)) as Hp.
      pose proof (correction_pass_ids
                    (mkProxyManager [] 0 [] (is_some (Some content))) fs
                    (readlines content)) as Hn.
      destruct (correction_pass _ fs (readlines content)) as [[[l b] m0] f].
      cbn [fst snd] in *. apply placeholders_ids. apply fold_parse_step_ids.
      cbn [w_mgr]. rewrite Hp, Hn. reflexivity.
    - cbn [fst snd]. apply placeholders_ids. reflexivity. }
  assert (L : next_id (snd (fst (load_proxies_from_conf mg fs)))
              = length (proxies (snd (fst (load_proxies_from_conf mg fs))))).
  { apply (f_equal (@length nat)) in G.
    rewrite length_map, length_seq in G. now symmetry. }
  split; [now rewrite <- L|]. split; [exact L|].
  unfold ids_fresh. split.
  - rewrite G. apply seq_NoDup.
  - rewrite Forall_forall. intros p Hp.
    assert (Hi : In (id p) (seq 1 (next_id
                   (snd (fst (load_proxies_from_conf mg fs)))))).
    { rewrite <- G. now apply in_map. }
    apply in_seq in Hi. lia.
Qed.

(** ** The operations of the model *)

Lemma find_app_miss {T : Type} (f : T -> bool) (l l' : list T) :
  Forall (fun x => f x = false) l -> find f (l ++ l') = find f l'.
Proof.
  induction 1 as [|x l Hx Hl IH]; simpl; [reflexivity|]. now rewrite Hx.
Qed.

Lemma find_app_last_miss {T : Type} (f : T -> bool) (l : list T) (x : T) :
  f x = false -> find f (l ++ [x]) = find f l.
Proof.
  intros Hx. induction l as [|y l IH]; simpl; [now rewrite Hx|].
  destruct (f y); [reflexivity | exact IH].
Qed.

Lemma upper_lower_char c : upper_char (lower_char c) = upper_char c.
Proof. destruct c as [[] [] [] [] [] [] [] []]; reflexivity. Qed.

Lemma ci_eqb_upper a x : ci_eqb a x = true -> upper_char x = upper_char a.
Proof.
  unfold ci_eqb. intros H. apply Ascii.eqb_eq in H.
  rewrite <- (upper_lower_char x), <- H. apply upper_lower_char.
Qed.

Lemma ci_str_upper w : forall k, ci_str w k = true -> upper k = upper w.
Proof.
  induction w as [|a w IH]; intros [|x k] H; try discriminate H;
    [reflexivity|].
  cbn [ci_str] in H. apply andb_true_iff in H as [Hx Hk].
  cbn [upper map]. rewrite (ci_eqb_upper a x Hx). f_equal. now apply IH.
Qed.

(** A kind written in any case is, in upper case, one of the four. *)
Lemma kind_word_upper k :
  is_kind_word k = true -> In (upper k) standard_types.
Proof.
  unfold is_kind_word. intros H. apply existsb_exists in H as (w & Hw & Hk).
  rewrite (ci_str_upper w k Hk).
  destruct (standard_kind_word w Hw) as [_ ->]. exact Hw.
Qed.

(** X7. Adding an entry: under the invariant that no identifier in use is
    above the counter, [add_proxy] with one of the four kinds, in any
    case, returns an identifier no entry had; the new entry (the kind in
    upper case, one of the four, and no source lines) is what a lookup of
    that identifier finds, every other lookup answers as before, and the
    identifiers stay distinct and not above the counter. *)
Theorem add_proxy_lookup
    (mg : ProxyManager) (nm ptype u : str) (en : bool) :
  ids_fresh mg ->
  is_kind_word ptype = true ->
  let new_id := fst (add_proxy mg nm ptype u en) in
  let mg' := snd (add_proxy mg nm ptype u en) in
  ~ In new_id (map id (proxies mg)) /\
  In (upper ptype) standard_types /\
  get_proxy_by_id mg' new_id
  = Some (mkProxyEntry new_id (upper ptype) u en nm []) /\
  (forall i, i <> new_id -> get_proxy_by_id mg' i = get_proxy_by_id mg i) /\
  ids_fresh mg'.
Proof.
  intros [Hnd Hle] Hkind. cbn zeta.
  unfold add_proxy, _generate_id, append_proxy, set_proxies, new_ProxyEntry.
  cbn [fst snd proxies next_id].
  assert (Hnew : ~ In (S (next_id mg)) (map id (proxies mg))).
  { intros Hin. apply in_map_iff in Hin as (p & Ep & Hp).
    rewrite Forall_forall in Hle. specialize (Hle p Hp). lia. }
  split; [exact Hnew|]. split; [now apply kind_word_upper|]. split; [|split].
  - unfold get_proxy_by_id. cbn [proxies]. rewrite find_app_miss.
    + cbn [find id]. now rewrite Nat.eqb_refl.
    + rewrite Forall_forall in *. intros p Hp. apply Nat.eqb_neq.
      specialize (Hle p Hp). lia.
  - intros i Hi. unfold get_proxy_by_id. cbn [proxies].
    apply find_app_last_miss. cbn [id]. apply Nat.eqb_neq. lia.
  - unfold ids_fresh. cbn [proxies next_id]. split.
    + rewrite map_app. cbn [map id new_ProxyEntry].
      apply NoDup_app; [assumption | constructor; [intros [] | constructor]|].
      intros x Hx [<- | []]. contradiction.
    + apply Forall_app. split.
      * eapply Forall_impl; [|exact Hle]. cbn. intros p Hp. lia.
      * constructor; [cbn; lia | constructor].
Qed.

Lemma two_entries_fresh : ids_fresh two_entries.
Proof.
  split.
  - cbn. repeat constructor; cbn; intuition discriminate.
  - repeat constructor; cbn; lia.
Qed.

Lemma add_proxy_lookup_witness :
  get_proxy_by_id
    (snd (add_proxy two_entries (lit "N") (lit "socks") (lit "s") false))
    (fst (add_proxy two_entries (lit "N") (lit "socks") (lit "s") false))
  = Some (mkProxyEntry 3 (lit "SOCKS") (lit "s") false (lit "N") []).
Proof.
  exact (proj1 (proj2 (proj2
           (add_proxy_lookup two_entries (lit "N") (lit "socks") (lit "s")
              false two_entries_fresh eq_refl)))).
Defined.

Lemma find_update_first_same (i : nat) (f : ProxyEntry -> ProxyEntry)
      (ps : list ProxyEntry) :
  (forall p, id (f p) = id p) ->
  find (fun p => Nat.eqb (id p) i) (update_first i f ps)
  = option_map f (find (fun p => Nat.eqb (id p) i) ps).
Proof.
  intros Hf. induction ps as [|p ps IH]; [reflexivity|]. cbn [update_first find].
  destruct (Nat.eqb (id p) i) eqn:E; cbn [find].
  - rewrite Hf, E. reflexivity.
  - rewrite E. exact IH.
Qed.

Lemma find_update_first_other (i j : nat) (f : ProxyEntry -> ProxyEntry)
      (ps : list ProxyEntry) :
  (forall p, id (f p) = id p) -> i <> j ->
  find (fun p => Nat.eqb (id p) j) (update_first i f ps)
  = find (fun p => Nat.eqb (id p) j) ps.
Proof.
  intros Hf Hij. induction ps as [|p ps IH]; [reflexivity|].
  cbn [update_first find].
  destruct (Nat.eqb (id p) i) eqn:E; cbn [find].
  - rewrite Hf. apply Nat.eqb_eq in E.
    assert (Ej : Nat.eqb (id p) j = false) by (apply Nat.eqb_neq; lia).
    now rewrite Ej.
  - destruct (Nat.eqb (id p) j); [reflexivity | exact IH].
Qed.

Lemma map_id_update_first (i : nat) (f : ProxyEntry -> ProxyEntry)
      (ps : list ProxyEntry) :
  (forall p, id (f p) = id p) ->
  map id (update_first i f ps) = map id ps.
Proof.
  intros Hf. induction ps as [|p ps IH]; [reflexivity|]. cbn [update_first].
  destruct (Nat.eqb (id p) i); cbn [map]; [now rewrite Hf | now rewrite IH].
Qed.

(** X8. Updating an entry: [update_proxy] with one of the four kinds, in
    any case, reports whether the identifier exists; when it does not, the
    manager is unchanged; when it does, a lookup of that identifier finds
    the entry with the new label, kind (in upper case, one of the four),
    target and enabled state and its old identifier and source lines,
    every other lookup answers as before, and the list keeps its
    identifiers, in order, and the counter. *)
Theorem update_proxy_lookup
    (mg : ProxyManager) (i : nat) (nm new_type new_url : str)
    (new_enabled : bool) :
  is_kind_word new_type = true ->
  let r := update_proxy mg i nm new_type new_url new_enabled in
  In (upper new_type) standard_types /\
  fst r = is_some (get_proxy_by_id mg i) /\
  (get_proxy_by_id mg i = None -> snd r = mg) /\
  get_proxy_by_id (snd r) i
  = option_map (updated_entry nm new_type new_url new_enabled)
      (get_proxy_by_id mg i) /\
  (forall j, j <> i -> get_proxy_by_id (snd r) j = get_proxy_by_id mg j) /\
  map id (proxies (snd r)) = map id (proxies mg) /\
  next_id (snd r) = next_id mg.
Proof.
  intros Hkind. cbn zeta. split; [now apply kind_word_upper|].
  unfold update_proxy.
  destruct (get_proxy_by_id mg i) as [p|] eqn:Eg; cbn [fst snd is_some].
  - split; [reflexivity|]. split; [discriminate|].
    unfold get_proxy_by_id in *. cbn [set_proxies proxies next_id].
    split; [|split; [|split]].
    + rewrite (find_update_first_same i
                 (updated_entry nm new_type new_url new_enabled))
        by reflexivity.
      now rewrite Eg.
    + intros j Hj.
      apply (find_update_first_other i j
               (updated_entry nm new_type new_url new_enabled));
        [reflexivity | congruence].
    + apply (map_id_update_first i
               (updated_entry nm new_type new_url new_enabled)). reflexivity.
    + reflexivity.
  - rewrite Eg. repeat split; auto.
Qed.

Lemma update_proxy_lookup_witness :
  get_proxy_by_id
    (snd (update_proxy two_entries 2 (lit "Lab") (lit "socks") (lit "s:1")
            true)) 2
  = Some (mkProxyEntry 2 (lit "SOCKS") (lit "s:1") true (lit "Lab") []).
Proof.
  exact (proj1 (proj2 (proj2 (proj2
           (update_proxy_lookup two_entries 2 (lit "Lab") (lit "socks")
              (lit "s:1") true eq_refl))))).
Defined.

Lemma find_remove_first_other (i j : nat) (ps : list ProxyEntry) :
  i <> j ->
  find (fun p => Nat.eqb (id p) j) (remove_first i ps)
  = find (fun p => Nat.eqb (id p) j) ps.
Proof.
  intros Hij. induction ps as [|p ps IH]; [reflexivity|].
  cbn [remove_first find].
  destruct (Nat.eqb (id p) i) eqn:E.
  - apply Nat.eqb_eq in E.
    assert (Ej : Nat.eqb (id p) j = false) by (apply Nat.eqb_neq; lia).
    now rewrite Ej.
  - cbn [find]. destruct (Nat.eqb (id p) j); [reflexivity | exact IH].
Qed.

Lemma find_remove_first_same (i : nat) (ps : list ProxyEntry) :
  NoDup (map id ps) ->
  find (fun p => Nat.eqb (id p) i) (remove_first i ps) = None.
Proof.
  induction ps as [|p ps IH]; intros Hnd; [reflexivity|].
  cbn [map] in Hnd. inversion Hnd as [|? ? Hnot Hnd']; subst.
  cbn [remove_first]. destruct (Nat.eqb (id p) i) eqn:E.
  - apply Nat.eqb_eq in E. subst i.
    destruct (find (fun q => Nat.eqb (id q) (id p)) ps) as [q|] eqn:Ef;
      [|reflexivity].
    apply find_some in Ef as [Hq Eq]. apply Nat.eqb_eq in Eq.
    exfalso. apply Hnot. rewrite <- Eq. now apply in_map.
  - cbn [find]. rewrite E. now apply IH.
Qed.

Lemma remove_first_sub (i : nat) (ps : list ProxyEntry) (p : ProxyEntry) :
  In p (remove_first i ps) -> In p ps.
Proof.
  induction ps as [|q ps IH]; [intros []|]. cbn [remove_first].
  destruct (Nat.eqb (id q) i); [now right|].
  intros [<- | H]; [now left | right; now apply IH].
Qed.

Lemma remove_first_NoDup (i : nat) (ps : list ProxyEntry) :
  NoDup (map id ps) -> NoDup (map id (remove_first i ps)).
Proof.
  induction ps as [|q ps IH]; intros Hnd; [constructor|].
  cbn [map] in Hnd. inversion Hnd as [|? ? Hnot Hnd']; subst.
  cbn [remove_first]. destruct (Nat.eqb (id q) i); [assumption|].
  cbn [map]. constructor; [|now apply IH].
  intros Hin. apply Hnot. apply in_map_iff in Hin as (p & Ep & Hp).
  rewrite <- Ep. apply in_map. eapply remove_first_sub. eassumption.
Qed.

Lemma remove_first_length (i : nat) (ps : list ProxyEntry) :
  find (fun p => Nat.eqb (id p) i) ps <> None ->
  S (length (remove_first i ps)) = length ps.
Proof.
  induction ps as [|q ps IH]; cbn [find remove_first]; [congruence|].
  destruct (Nat.eqb (id q) i); [reflexivity|].
  intros H. cbn [length]. f_equal. now apply IH.
Qed.

(** X9. Removing an entry: [remove_proxy] reports whether the identifier
    exists; when it does not, the manager is unchanged; when it does, the
    list is one entry shorter and every other lookup answers as before;
    and when identifiers are distinct and not above the counter, they stay
    so and the removed identifier is no longer found. *)
Theorem remove_proxy_lookup (mg : ProxyManager) (i : nat) :
  let r := remove_proxy mg i in
  fst r = is_some (get_proxy_by_id mg i) /\
  (get_proxy_by_id mg i = None -> snd r = mg) /\
  (get_proxy_by_id mg i <> None ->
   S (length (proxies (snd r))) = length (proxies mg)) /\
  (forall j, j <> i -> get_proxy_by_id (snd r) j = get_proxy_by_id mg j) /\
  (ids_fresh mg -> ids_fresh (snd r) /\ get_proxy_by_id (snd r) i = None).
Proof.
  cbn zeta. unfold remove_proxy.
  destruct (get_proxy_by_id mg i) as [p|] eqn:Eg; cbn [fst snd is_some].
  - unfold get_proxy_by_id in *. cbn [set_proxies proxies].
    split; [reflexivity|]. split; [discriminate|]. split; [|split].
    + intros _. apply remove_first_length. congruence.
    + intros j Hj. apply find_remove_first_other. congruence.
    + intros [Hnd Hle]. split.
      * split; cbn [set_proxies proxies next_id].
        -- now apply remove_first_NoDup.
        -- rewrite Forall_forall in *. intros q Hq. apply Hle.
           eapply remove_first_sub. eassumption.
      * now apply find_remove_first_same.
  - split; [reflexivity|]. split; [reflexivity|].
    split; [intros H; now contradiction H|]. split; [reflexivity|].
    intros Hf. split; [exact Hf | exact Eg].
Qed.

Lemma remove_proxy_lookup_witness :
  ids_fresh (snd (remove_proxy two_entries 1)) /\
  get_proxy_by_id (snd (remove_proxy two_entries 1)) 1 = None.
Proof.
  exact (proj2 (proj2 (proj2 (proj2 (remove_proxy_lookup two_entries 1))))
           two_entries_fresh).
Defined.

(** ** One enabled entry per kind *)

Lemma filter_none_length {T : Type} (f : T -> bool) (l : list T) (x : T) :
  Nat.eqb (length (filter f l)) 0 = true -> In x l -> f x = false.
Proof.
  intros Hlen Hin. destruct (f x) eqn:Ef; [|reflexivity].
  rewrite (filter_hit_length f l x Hin Ef) in Hlen. discriminate Hlen.
Qed.

(** A passed uniqueness check: no enabled entry of the kind, the edited
    one apart. *)
Lemma unique_check_passed mg ptype current p :
  is_proxy_type_unique mg ptype current = true ->
  In p (proxies mg) -> enabled p = true ->
  upper (proxy_type p) = upper ptype ->
  exists i, current = Some i /\ id p = i.
Proof.
  intros Hu Hin Hen Hty. unfold is_proxy_type_unique in Hu.
  pose proof (filter_none_length _ _ p Hu Hin) as Hp. cbn beta in Hp.
  rewrite Hty, str_eqb_refl, Hen in Hp. cbn [andb] in Hp.
  destruct current as [i|]; [|discriminate Hp].
  exists i. split; [reflexivity|].
  apply negb_false_iff in Hp. now apply Nat.eqb_eq.
Qed.

Lemma dialog_result_inv mg current v r :
  dialog_result (Some mg) current v = Some r ->
  r = mkDialogVars (strip (name_var v)) (upper (strip (proxy_type_var v)))
        (strip (url_var v)) (enabled_var v) /\
  (enabled_var v = true ->
   is_proxy_type_unique mg (upper (strip (proxy_type_var v))) current = true).
Proof.
  unfold dialog_result. destruct (validate (Some mg) current v) eqn:Hv;
    [|discriminate].
  intros E. injection E as <-. split; [reflexivity|].
  intros Hen. unfold validate in Hv. rewrite Hen in Hv.
  destruct (contains NAME_COMMENT_PREFIX _); [discriminate Hv|].
  destruct (negb (nonempty (upper _))); [discriminate Hv|].
  destruct (negb (nonempty _) && true); [discriminate Hv|].
  destruct (contains [SPACE] _); [discriminate Hv|].
  destruct (is_proxy_type_unique mg _ current); [reflexivity|].
  discriminate Hv.
Qed.

Lemma update_first_In (i : nat) (f : ProxyEntry -> ProxyEntry)
      (ps : list ProxyEntry) (q : ProxyEntry) :
  NoDup (map id ps) ->
  In q (update_first i f ps) ->
  (In q ps /\ id q <> i) \/ (exists p, In p ps /\ id p = i /\ q = f p).
Proof.
  induction ps as [|p ps IH]; intros Hnd; [intros []|].
  cbn [map] in Hnd. inversion Hnd as [|? ? Hnot Hnd']; subst.
  cbn [update_first]. destruct (Nat.eqb (id p) i) eqn:E.
  - apply Nat.eqb_eq in E. intros [<- | Hq].
    + right. exists p. split; [now left | split; [exact E | reflexivity]].
    + left. split; [now right|]. intros Eq. apply Hnot.
      rewrite E, <- Eq. now apply in_map.
  - apply Nat.eqb_neq in E. intros [<- | Hq].
    + left. split; [now left | exact E].
    + destruct (IH Hnd' Hq) as [[H1 H2] | (p0 & H1 & H2 & H3)].
      * left. split; [now right | exact H2].
      * right. exists p0. split; [now right | split; assumption].
Qed.

Lemma add_proxy_ids_fresh mg nm ptype u en :
  ids_fresh mg -> ids_fresh (snd (add_proxy mg nm ptype u en)).
Proof.
  intros [Hnd Hle].
  unfold add_proxy, _generate_id, append_proxy, set_proxies, new_ProxyEntry,
    ids_fresh.
  cbn [fst snd proxies next_id]. split.
  - rewrite map_app. cbn [map id].
    apply NoDup_app; [assumption | constructor; [intros [] | constructor]|].
    intros x Hx [<- | []].
    apply in_map_iff in Hx as (p & Ep & Hp).
    rewrite Forall_forall in Hle. specialize (Hle p Hp). lia.
  - apply Forall_app. split.
    + eapply Forall_impl; [|exact Hle]. cbn. intros p Hp. lia.
    + constructor; [cbn; lia | constructor].
Qed.

Lemma update_proxy_ids_fresh mg i nm t u en :
  ids_fresh mg -> ids_fresh (snd (update_proxy mg i nm t u en)).
Proof.
  intros [Hnd Hle]. unfold update_proxy.
  destruct (get_proxy_by_id mg i); cbn [snd]; [|split; assumption].
  unfold ids_fresh. cbn [set_proxies proxies next_id]. split.
  - rewrite map_id_update_first by reflexivity. exact Hnd.
  - rewrite Forall_forall in *. intros q Hq.
    apply (update_first_In i _ (proxies mg) q Hnd) in Hq
      as [[H1 _] | (p0 & H1 & _ & E)].
    + now apply Hle.
    + subst q. cbn [id]. now apply Hle.
Qed.

Lemma add_keeps_one_enabled mg v r :
  one_enabled_per_kind mg ->
  dialog_result (Some mg) None v = Some r ->
  one_enabled_per_kind
    (snd (add_proxy mg (name_var r) (proxy_type_var r) (url_var r)
            (enabled_var r))).
Proof.
  intros Hone Hr. apply dialog_result_inv in Hr as [-> Hu].
  cbn [name_var proxy_type_var url_var enabled_var].
  unfold add_proxy, _generate_id, append_proxy, set_proxies, new_ProxyEntry,
    one_enabled_per_kind.
  cbn [fst snd proxies next_id].
  assert (Hclash : forall p,
             In p (proxies mg) -> enabled p = true -> enabled_var v = true ->
             upper (proxy_type p)
             = upper (upper (upper (strip (proxy_type_var v)))) -> False).
  { intros p Hp Hen Hv Hty. rewrite upper_idem in Hty.
    destruct (unique_check_passed mg _ None p (Hu Hv) Hp Hen Hty)
      as (i & Ei & _). discriminate Ei. }
  intros p q Hp Hq Hpe Hqe Hty.
  apply in_app_or in Hp as [Hp | [<- | []]];
    apply in_app_or in Hq as [Hq | [<- | []]].
  - now apply Hone.
  - cbn [enabled proxy_type] in Hqe, Hty.
    exfalso. exact (Hclash p Hp Hpe Hqe Hty).
  - cbn [enabled proxy_type] in Hpe, Hty.
    exfalso. exact (Hclash q Hq Hqe Hpe (eq_sym Hty)).
  - reflexivity.
Qed.

Lemma update_keeps_one_enabled mg sid pe v r :
  NoDup (map id (proxies mg)) ->
  one_enabled_per_kind mg ->
  get_proxy_by_id mg sid = Some pe ->
  dialog_result (Some mg) (Some (id pe)) v = Some r ->
  one_enabled_per_kind
    (snd (update_proxy mg sid (name_var r) (proxy_type_var r) (url_var r)
            (enabled_var r))).
Proof.
  intros Hnd Hone Hget Hr. apply dialog_result_inv in Hr as [-> Hu].
  cbn [name_var proxy_type_var url_var enabled_var].
  assert (Eid : id pe = sid).
  { unfold get_proxy_by_id in Hget. apply find_some in Hget as [_ E].
    now apply Nat.eqb_eq. }
  rewrite Eid in Hu.
  unfold update_proxy. rewrite Hget. cbn [snd].
  unfold one_enabled_per_kind. cbn [set_proxies proxies].
  assert (Hclash : forall p,
             In p (proxies mg) -> id p <> sid -> enabled p = true ->
             enabled_var v = true ->
             upper (proxy_type p)
             = upper (upper (upper (strip (proxy_type_var v)))) -> False).
  { intros p Hp Hne Hen Hv Hty. rewrite upper_idem in Hty.
    destruct (unique_check_passed mg _ (Some sid) p (Hu Hv) Hp Hen Hty)
      as (i & Ei & Ep). injection Ei as <-. contradiction. }
  intros p q Hp Hq Hpe Hqe Hty.
  apply (update_first_In sid _ (proxies mg) p Hnd) in Hp
    as [[Hp Hpi] | (p0 & Hp & Hpi & ->)];
    apply (update_first_In sid _ (proxies mg) q Hnd) in Hq
      as [[Hq Hqi] | (q0 & Hq & Hqi & ->)].
  - now apply Hone.
  - cbn [enabled proxy_type] in Hqe, Hty.
    exfalso. exact (Hclash p Hp Hpi Hpe Hqe Hty).
  - cbn [enabled proxy_type] in Hpe, Hty.
    exfalso. exact (Hclash q Hq Hqi Hqe Hpe (eq_sym Hty)).
  - cbn [id]. congruence.
Qed.

Lemma update_first_Forall (P : ProxyEntry -> Prop) (i : nat)
      (f : ProxyEntry -> ProxyEntry) (ps : list ProxyEntry) :
  (forall p, P (f p)) -> Forall P ps -> Forall P (update_first i f ps).
Proof.
  intros Hf. induction 1 as [|p ps Hp Hps IH]; [constructor|].
  cbn [update_first]. destruct (Nat.eqb (id p) i); constructor; auto.
Qed.

Lemma remove_first_Forall (P : ProxyEntry -> Prop) (i : nat)
      (ps : list ProxyEntry) :
  Forall P ps -> Forall P (remove_first i ps).
Proof.
  induction 1 as [|p ps Hp Hps IH]; [constructor|].
  cbn [remove_first]. destruct (Nat.eqb (id p) i); [assumption|].
  constructor; assumption.
Qed.

(** X10. The editor's three operations keep its invariant.  When
    identifiers are distinct and not above the counter, every entry is of
    one of the four kinds and no two enabled entries share a kind, then
    the same holds after the add dialog, after the edit dialog and after a
    removal, whatever label, target and enabled state the user gave and
    whether or not validation accepted them; the kind comes from the
    dialog's selector and is one of the four. *)
Theorem edits_keep_editor_invariant
    (mg : ProxyManager) (is_read_only : bool) (v : dialog_vars)
    (selected_id : option nat) (i : nat) :
  editor_invariant mg ->
  is_kind_word (strip (proxy_type_var v)) = true ->
  editor_invariant (add_new_proxy_dialog is_read_only mg v) /\
  editor_invariant
    (edit_selected_proxy_dialog is_read_only mg selected_id v) /\
  editor_invariant (snd (remove_proxy mg i)).
Proof.
  intros (Hf & Hk & Hone) Hkind.
  assert (Hnew : In (upper (upper (strip (proxy_type_var v))))
                   standard_types).
  { rewrite upper_idem. now apply kind_word_upper. }
  split; [|split].
  - unfold add_new_proxy_dialog.
    destruct is_read_only; [exact (conj Hf (conj Hk Hone))|].
    destruct (dialog_result (Some mg) None v) as [r|] eqn:Hr;
      [|exact (conj Hf (conj Hk Hone))].
    split; [now apply add_proxy_ids_fresh|].
    split; [|now apply (add_keeps_one_enabled mg v)].
    apply dialog_result_inv in Hr as [-> _].
    unfold standard_kinds, add_proxy, _generate_id, append_proxy,
      set_proxies, new_ProxyEntry.
    cbn [snd proxies proxy_type_var]. apply Forall_app.
    split; [exact Hk | constructor; [exact Hnew | constructor]].
  - unfold edit_selected_proxy_dialog.
    destruct is_read_only; [exact (conj Hf (conj Hk Hone))|].
    destruct selected_id as [sid|]; [|exact (conj Hf (conj Hk Hone))].
    destruct (get_proxy_by_id mg sid) as [pe|] eqn:Hget;
      [|exact (conj Hf (conj Hk Hone))].
    destruct (dialog_result (Some mg) (Some (id pe)) v) as [r|] eqn:Hr;
      [|exact (conj Hf (conj Hk Hone))].
    split; [now apply update_proxy_ids_fresh|]. split.
    + apply dialog_result_inv in Hr as [-> _].
      unfold standard_kinds, update_proxy. rewrite Hget.
      cbn [snd set_proxies proxies proxy_type_var].
      apply update_first_Forall; [intros p; exact Hnew | exact Hk].
    + apply (update_keeps_one_enabled mg sid pe v); auto. exact (proj1 Hf).
  - unfold remove_proxy.
    destruct (get_proxy_by_id mg i) as [found|]; cbn [snd];
      [|exact (conj Hf (conj Hk Hone))].
    destruct Hf as [Hnd Hle]. split; [|split].
    + split; cbn [set_proxies proxies next_id].
      * now apply remove_first_NoDup.
      * now apply remove_first_Forall.
    + unfold standard_kinds. cbn [set_proxies proxies].
      now apply remove_first_Forall.
    + intros p q Hp Hq. cbn [set_proxies proxies] in Hp, Hq.
      apply Hone; eapply remove_first_sub; eassumption.
Qed.

Lemma two_entries_one_enabled : one_enabled_per_kind two_entries.
Proof.
  intros p q [Ep | [Ep | []]] [Eq | [Eq | []]] Hp Hq; subst p q;
    cbn in Hp, Hq; try discriminate; reflexivity.
Qed.

Lemma two_entries_invariant : editor_invariant two_entries.
Proof.
  split; [exact two_entries_fresh|]. split; [|exact two_entries_one_enabled].
  constructor; [left; reflexivity|].
  constructor; [right; right; left; reflexivity | constructor].
Qed.

Lemma edits_keep_editor_invariant_witness :
  editor_invariant
    (edit_selected_proxy_dialog false two_entries (Some 2) enable_ftp_request)
  /\ get_proxy_by_id
       (edit_selected_proxy_dialog false two_entries (Some 2)
          enable_ftp_request) 2
     = Some (mkProxyEntry 2 (lit "FTP") (lit "ftp://x") true (lit "Office") []).
Proof.
  split.
  - exact (proj1 (proj2
             (edits_keep_editor_invariant two_entries false
                enable_ftp_request (Some 2) 0 two_entries_invariant
                eq_refl))).
  - vm_compute. reflexivity.
Defined.

(** ** Placeholders *)

Lemma placeholder_step_fixed e mg t :
  mem_str t e = true \/ existsb (is_empty_entry_of t) (proxies mg) = true ->
  placeholder_step e mg t = mg.
Proof.
  intros H. unfold placeholder_step.
  destruct (mem_str t e); cbn [negb]; [reflexivity|].
  destruct H as [H | H]; [discriminate H|].
  unfold is_empty_entry_of in H. rewrite H. reflexivity.
Qed.

Lemma placeholder_step_settles e mg t :
  upper t = t ->
  mem_str t e = true \/
  existsb (is_empty_entry_of t) (proxies (placeholder_step e mg t)) = true.
Proof.
  intros Ht. unfold placeholder_step.
  destruct (mem_str t e); cbn [negb]; [now left | right].
  change (existsb _ (proxies mg))
    with (existsb (is_empty_entry_of t) (proxies mg)).
  destruct (existsb (is_empty_entry_of t) (proxies mg)) eqn:E; cbn [negb].
  - exact E.
  - unfold _generate_id, append_proxy, set_proxies, new_ProxyEntry.
    cbn [proxies]. rewrite existsb_app. apply orb_true_iff. right.
    cbn [existsb]. unfold is_empty_entry_of.
    cbn [proxy_type url name nonempty negb].
    now rewrite upper_idem, Ht, str_eqb_refl.
Qed.

Lemma fold_placeholder_step_settles e types :
  (forall t, In t types -> upper t = t) ->
  forall mg t, In t types ->
    mem_str t e = true \/
    existsb (is_empty_entry_of t)
      (proxies (fold_left (placeholder_step e) types mg)) = true.
Proof.
  induction types as [|t0 types IH]; intros Hup mg t Hin; [destruct Hin|].
  cbn [fold_left]. destruct Hin as [<- | Hin].
  - destruct (placeholder_step_settles e mg t0 (Hup t0 (or_introl eq_refl)))
      as [H | H]; [now left | right].
    destruct (fold_placeholder_step_proxies e types (placeholder_step e mg t0))
      as (phs & -> & _).
    rewrite existsb_app, H. reflexivity.
  - apply IH; [|exact Hin]. intros x Hx. apply Hup. now right.
Qed.

Lemma fold_placeholder_step_fixed e types mg :
  (forall t, In t types ->
     mem_str t e = true \/
     existsb (is_empty_entry_of t) (proxies mg) = true) ->
  fold_left (placeholder_step e) types mg = mg.
Proof.
  induction types as [|t0 types IH]; intros H; [reflexivity|].
  cbn [fold_left].
  rewrite (placeholder_step_fixed e mg t0 (H t0 (or_introl eq_refl))).
  apply IH. intros t Ht. apply H. now right.
Qed.

Lemma filter_app_none {T : Type} (f : T -> bool) (l l' : list T) :
  Forall (fun x => f x = false) l' -> filter f (l ++ l') = filter f l.
Proof.
  intros H. rewrite filter_app.
  assert (E : filter f l' = []).
  { induction H as [|x l0 Hx Hl IH]; [reflexivity|].
    cbn [filter]. now rewrite Hx. }
  rewrite E. apply app_nil_r.
Qed.

Lemma standard_types_upper t : In t standard_types -> upper t = t.
Proof.
  intros [<- | [<- | [<- | [<- | []]]]]; reflexivity.
Qed.

(** X11. Placeholders are added once and to the end: after
    [_add_placeholder_proxies_if_needed] the entries that were there are
    still the first ones, in order and unchanged, every entry after them
    is an empty disabled entry of one of the four kinds, and running it
    again changes nothing. *)
Theorem placeholders_settle (mg : ProxyManager) :
  (exists phs,
     proxies (_add_placeholder_proxies_if_needed mg) = proxies mg ++ phs /\
     Forall is_placeholder phs) /\
  _add_placeholder_proxies_if_needed (_add_placeholder_proxies_if_needed mg)
  = _add_placeholder_proxies_if_needed mg.
Proof.
  split; [apply placeholders_added|].
  destruct (placeholders_added mg) as (phs & Eps & Hph).
  assert (Ee : map (fun p => upper (proxy_type p))
                 (filter has_url_or_name
                    (proxies (_add_placeholder_proxies_if_needed mg)))
               = map (fun p => upper (proxy_type p))
                   (filter has_url_or_name (proxies mg))).
  { rewrite Eps, filter_app_none; [reflexivity|].
    eapply Forall_impl; [|exact Hph].
    intros p (_ & Eu & En & _). unfold has_url_or_name.
    now rewrite Eu, En. }
  unfold _add_placeholder_proxies_if_needed at 1. rewrite Ee.
  apply fold_placeholder_step_fixed. intros t Ht.
  unfold _add_placeholder_proxies_if_needed.
  apply fold_placeholder_step_settles; [apply standard_types_upper | exact Ht].
Qed.

(** ** Backups before writes *)

Lemma write_all_backups fs writes :
  backups (snd (write_all fs writes)) = backups fs.
Proof.
  unfold write_all. destruct (write_fault fs) as [| |k]; reflexivity.
Qed.

Lemma create_backup_cases fs suffix :
  (fst (create_backup fs suffix) = true /\
   file fs = None /\ snd (create_backup fs suffix) = fs) \/
  (fst (create_backup fs suffix) = true /\
   file (snd (create_backup fs suffix)) = file fs /\
   exists c, file fs = Some c /\
     backups (snd (create_backup fs suffix)) = backups fs ++ [(suffix, c)]) \/
  (fst (create_backup fs suffix) = false /\ copy_ok fs = false /\
   snd (create_backup fs suffix) = fs).
Proof.
  unfold create_backup. destruct (file fs) as [c|] eqn:Ef.
  - destruct (copy_ok fs) eqn:Ec.
    + right; left. cbn [fst snd file backups].
      split; [reflexivity|]. split; [reflexivity|].
      exists c. split; reflexivity.
    + right; right. repeat split; reflexivity.
  - left. repeat split; reflexivity.
Qed.

(** X12. The loader rewrites the file only behind a backup.  Without write
    access a load leaves the file system exactly as it was; and whenever
    the file's content after a load differs from the content before it, a
    backup with the suffix [pre_whitespace_correction] holding the content
    from before was made during that load. *)
Theorem load_rewrites_only_behind_backup (mg : ProxyManager) (fs : filesys) :
  (can_write_to_conf fs = false ->
   snd (load_proxies_from_conf mg fs) = fs) /\
  (file (snd (load_proxies_from_conf mg fs)) <> file fs ->
   exists c,
     file fs = Some c /\
     backups (snd (load_proxies_from_conf mg fs))
     = backups fs ++ [(lit "pre_whitespace_correction", c)]).
Proof.
  unfold load_proxies_from_conf.
  destruct (file fs) as [c|] eqn:Ef; cbn [snd];
    [|split; [reflexivity | intros H; now contradiction H]].
  destruct (can_read fs); cbn [negb snd];
    [|split; [reflexivity | intros H; exfalso; apply H; exact Ef]].
  destruct (correction_pass (mkProxyManager [] 0 [] (is_some (Some c))) fs
              (readlines c)) as [[[l b] m] f] eqn:Ec.
  cbn [snd]. unfold correction_pass in Ec.
  destruct (can_write_to_conf fs); cbn [andb is_some apt_conf_exists] in Ec.
  - split; [discriminate|].
    destruct (any_line_changed_in_memory (readlines c)).
    + destruct (create_backup_cases fs (lit "pre_whitespace_correction"))
        as [(Hb & Hn & _) | [(Hb & Hfile & c' & Hc' & Hbk) | (Hb & _ & Hs)]].
      * rewrite Ef in Hn. discriminate Hn.
      * destruct (create_backup fs (lit "pre_whitespace_correction"))
          as [bu fsb]. cbn [fst snd] in Hb, Hfile, Hbk. subst bu.
        pose proof (write_all_backups fsb
                      (temp_corrected_lines (readlines c))) as Hwb.
        destruct (write_all fsb (temp_corrected_lines (readlines c)))
          as [wr fsw]. cbn [snd] in Hwb.
        intros _. exists c'. rewrite Ef in Hc'. split; [exact Hc'|].
        destruct wr; injection Ec as _ _ _ <-; now rewrite Hwb.
      * destruct (create_backup fs (lit "pre_whitespace_correction"))
          as [bu fsb]. cbn [fst snd] in Hb, Hs. subst bu fsb.
        injection Ec as _ _ _ <-. intros H. exfalso. apply H. exact Ef.
    + injection Ec as _ _ _ <-. intros H. exfalso. apply H. exact Ef.
  - injection Ec as _ _ _ <-. split; [reflexivity|].
    intros H. exfalso. apply H. exact Ef.
Qed.

(** X13. A manual save overwrites only behind a backup or on the user's
    word.  Without write access the save fails and leaves the file system
    exactly as it was.  Whenever the file's content after a save differs
    from the content before it, then either there was no file, or a backup
    with the suffix [pre_manual_save] holding the old content was made
    during that save, or the copy failed and the user answered yes to
    saving anyway.  The entries and the identifier counter of the manager
    are never changed by a save. *)
Theorem save_overwrites_only_behind_backup
    (mg : ProxyManager) (fs : filesys) (save_anyway : bool) :
  (can_write_to_conf fs = false ->
   fst (fst (save_proxies_to_conf mg fs save_anyway)) = false /\
   snd (save_proxies_to_conf mg fs save_anyway) = fs) /\
  (file (snd (save_proxies_to_conf mg fs save_anyway)) <> file fs ->
   file fs = None \/
   (exists c,
      file fs = Some c /\
      backups (snd (save_proxies_to_conf mg fs save_anyway))
      = backups fs ++ [(lit "pre_manual_save", c)]) \/
   (copy_ok fs = false /\ save_anyway = true)) /\
  proxies (snd (fst (save_proxies_to_conf mg fs save_anyway))) = proxies mg /\
  next_id (snd (fst (save_proxies_to_conf mg fs save_anyway))) = next_id mg.
Proof.
  unfold save_proxies_to_conf.
  destruct (can_write_to_conf fs); cbn [negb].
  - split; [discriminate|].
    destruct (create_backup_cases fs (lit "pre_manual_save"))
      as [(Hb & Hn & _) | [(Hb & Hfile & c & Hc & Hbk) | (Hb & Hcp & Hs)]].
    + destruct (create_backup fs (lit "pre_manual_save")) as [bu fsb].
      cbn [fst] in Hb. subst bu. cbn [negb andb].
      destruct (write_all fsb _) as [wr fsw]. cbn [fst snd].
      split; [intros _; now left | split; reflexivity].
    + destruct (create_backup fs (lit "pre_manual_save")) as [bu fsb].
      cbn [fst snd] in Hb, Hfile, Hbk. subst bu. cbn [negb andb].
      match goal with
      | |- context [write_all fsb ?w] =>
          pose proof (write_all_backups fsb w) as Hwb;
          destruct (write_all fsb w) as [wr fsw]
      end.
      cbn [fst snd] in *.
      split; [|split; reflexivity].
      intros _. right; left. exists c. split; [exact Hc|].
      now rewrite Hwb.
    + destruct (create_backup fs (lit "pre_manual_save")) as [bu fsb].
      cbn [fst snd] in Hb, Hs. subst bu fsb. cbn [negb andb].
      destruct save_anyway; cbn [negb].
      * destruct (write_all fs _) as [wr fsw]. cbn [fst snd].
        split; [|split; reflexivity].
        intros _. right; right. split; [exact Hcp | reflexivity].
      * cbn [fst snd]. split; [|split; reflexivity].
        intros H. now contradiction H.
  - cbn [fst snd]. split; [intros _; split; reflexivity|].
    split; [intros H; now contradiction H | split; reflexivity].
Qed.

(** ** Diagnostics *)

Lemma parse_step_errors strict w n line :
  initial_syntax_error (w_mgr (parse_step strict w (n, line)))
  = initial_syntax_error (w_mgr w)
    ++ (if reported_line strict line
        then [Malformed (n + 1) (firstn 70 (strip line))] else []).
Proof.
  unfold parse_step, reported_line.
  destruct (re_match name_comment_parser (strip line)) as [nc|] eqn:En.
  - cbn [w_mgr].
    destruct (startswith [HASH] (strip line)) eqn:Eh.
    + rewrite andb_false_r. cbn [andb]. now rewrite app_nil_r.
    + rewrite (not_comment_not_annotation (strip line) Eh) in En.
      discriminate En.
  - destruct (re_match (proxy_parser strict) (strip line)) as [pc|] eqn:Ep.
    + cbn [is_some negb andb]. unfold _generate_id, append_proxy, set_proxies.
      cbn [w_mgr initial_syntax_error]. now rewrite app_nil_r.
    + cbn [is_some negb andb].
      destruct (startswith [HASH] (strip line)) eqn:Eh; cbn [negb andb].
      * rewrite andb_false_r.
        destruct (negb (nonempty (strip line))); cbn [w_mgr];
          now rewrite app_nil_r.
      * destruct (contains (lit "::Proxy") (strip line)) eqn:Ec.
        -- rewrite (contains_nonempty (strip line) Ec). cbn [andb w_mgr].
           reflexivity.
        -- destruct (nonempty (strip line)); cbn [andb negb w_mgr];
             now rewrite app_nil_r.
Qed.

Lemma fold_parse_step_errors strict lines :
  forall k w,
    initial_syntax_error
      (w_mgr (fold_left (parse_step strict) (enumerate_from k lines) w))
    = initial_syntax_error (w_mgr w) ++ diagnostics_from strict k lines.
Proof.
  induction lines as [|l lines IH]; intros k w.
  - cbn. now rewrite app_nil_r.
  - cbn [enumerate_from fold_left]. rewrite IH, parse_step_errors.
    rewrite <- app_assoc. f_equal.
    unfold diagnostics_from. cbn [enumerate_from filter snd].
    destruct (reported_line strict l); reflexivity.
Qed.

(** X14. The diagnostics of a walk are exactly the reported lines: after
    walking [lines], the manager holds the diagnostics it had, followed by
    one malformed-line diagnostic for every line that is not a comment,
    holds [::Proxy] and is not a directive of the mode in force, and by
    nothing else, in file order; each carries the line's number counted
    from 1 and the first 70 characters of the stripped line. *)
Theorem diagnostics_are_reported_lines
    (strict : bool) (mg : ProxyManager) (lines : list str) :
  initial_syntax_error (w_mgr (parse_lines strict mg lines))
  = initial_syntax_error mg ++ diagnostics_from strict 0 lines /\
  (forall d, In d (diagnostics_from strict 0 lines) ->
     exists n line,
       nth_error lines n = Some line /\
       reported_line strict line = true /\
       d = Malformed (n + 1) (firstn 70 (strip line))).
Proof.
  split; [unfold parse_lines; now rewrite fold_parse_step_errors|].
  assert (G : forall ls k d,
             In d (diagnostics_from strict k ls) ->
             exists n line,
               nth_error ls n = Some line /\
               reported_line strict line = true /\
               d = Malformed (k + n + 1) (firstn 70 (strip line))).
  { induction ls as [|l ls IH]; intros k d Hd; [destruct Hd|].
    unfold diagnostics_from in Hd. cbn [enumerate_from filter snd] in Hd.
    destruct (reported_line strict l) eqn:El.
    - cbn [map fst snd] in Hd. destruct Hd as [<- | Hd].
      + exists 0, l. rewrite Nat.add_0_r. repeat split; assumption.
      + destruct (IH (S k) d Hd) as (n & line & Hn & Hr & ->).
        exists (S n), line. split; [exact Hn|]. split; [exact Hr|].
        f_equal. lia.
    - destruct (IH (S k) d Hd) as (n & line & Hn & Hr & ->).
      exists (S n), line. split; [exact Hn|]. split; [exact Hr|].
      f_equal. lia. }
  intros d Hd. destruct (G lines 0 d Hd) as (n & line & Hn & Hr & ->).
  exists n, line. repeat split; assumption.
Qed.

(** ** Lines the strict walk does not read *)

(** X15. A directive only the lenient pattern accepts is lost after an
    auto-correction.  For a line that the lenient directive pattern accepts
    and the strict one rejects (whitespace before its semicolon that the
    corrector did not remove, or text after the semicolon), the strict
    walk, the one used after corrections were saved, makes no entry; and
    the serializer does not count the line among the lines to preserve, so
    the next save writes neither the line nor an entry for it. *)
Theorem strict_walk_loses_lenient_directive
    (w : walk) (n : nat) (line : str) (fs : filesys) :
  matches (proxy_parser false) (strip line) = true ->
  matches (proxy_parser true) (strip line) = false ->
  proxies (w_mgr (parse_step true w (n, line))) = proxies (w_mgr w) /\
  is_other_line line = false /\
  ~ In line (other_lines_to_preserve fs).
Proof.
  intros Hl Hs.
  assert (Ho : is_other_line line = false).
  { unfold is_other_line. now rewrite serializer_directive_is_lenient, Hl. }
  split; [|split; [exact Ho|]].
  - unfold matches in Hl.
    destruct (re_match (proxy_parser false) (strip line)) as [c|] eqn:Ec;
      [|discriminate Hl].
    destruct (@re_match_directive_shape false (strip line) c
                (@strip_last line) Ec) as [Hshape _].
    unfold parse_step.
    rewrite (@directive_not_annotation false (strip line) Hshape),
      (@matches_false_re_match _ _ Hs).
    destruct (nonempty (strip line) && negb (startswith [HASH] (strip line))).
    + destruct (contains (lit "::Proxy") (strip line)); reflexivity.
    + destruct (negb (nonempty (strip line))); reflexivity.
  - unfold other_lines_to_preserve.
    destruct (file fs) as [c|]; [|intros []].
    destruct (can_read fs); [|intros []].
    intros Hin. apply filter_In in Hin as [_ Hin].
    rewrite Ho in Hin. discriminate Hin.
Qed.

Lemma strict_walk_loses_lenient_directive_witness :
  proxies (w_mgr (parse_step true walk0 (0, line_with_trailing_text))) = [] /\
  is_other_line line_with_trailing_text = false.
Proof.
  destruct (strict_walk_loses_lenient_directive walk0 0
              line_with_trailing_text (plain_fs None) eq_refl eq_refl)
    as (H1 & H2 & _).
  split; [exact H1 | exact H2].
Defined.

(** ** Placeholders and the file *)

Lemma proxy_writes_unwritten phs :
  Forall (fun p => is_written p = false) phs -> proxy_writes phs = [].
Proof.
  induction 1 as [|p phs Hp Hphs IH]; [reflexivity|].
  cbn [proxy_writes]. now rewrite Hp, IH.
Qed.

Lemma proxy_writes_unwritten_tail ps phs :
  Forall (fun p => is_written p = false) phs ->
  proxy_writes (ps ++ phs) = proxy_writes ps.
Proof.
  intros Hphs. induction ps as [|p rest IH].
  - cbn [app proxy_writes]. now apply proxy_writes_unwritten.
  - cbn [app proxy_writes]. rewrite IH. f_equal.
    destruct rest as [|r rest']; [|reflexivity].
    cbn [app]. destruct Hphs as [|q phs Hq Hphs]; [reflexivity|].
    now rewrite Hq.
Qed.

Lemma placeholder_not_written p : is_placeholder p -> is_written p = false.
Proof.
  intros (_ & Eu & En & Ee & _). unfold is_written.
  now rewrite Eu, En, Ee.
Qed.

(** X16. Placeholders never reach the file.  When the list holds at least
    one entry, appending placeholders (empty, disabled entries of the four
    kinds, as a load appends them) to it changes nothing in what a save
    does: the same outcome and the same file system, byte for byte. *)
Theorem placeholders_never_saved
    (mg : ProxyManager) (phs : list ProxyEntry) (fs : filesys)
    (save_anyway : bool) :
  proxies mg <> [] ->
  Forall is_placeholder phs ->
  fst (fst (save_proxies_to_conf (set_proxies mg (proxies mg ++ phs)) fs
              save_anyway))
  = fst (fst (save_proxies_to_conf mg fs save_anyway)) /\
  snd (save_proxies_to_conf (set_proxies mg (proxies mg ++ phs)) fs
         save_anyway)
  = snd (save_proxies_to_conf mg fs save_anyway).
Proof.
  intros Hne Hphs.
  assert (Hw : Forall (fun p => is_written p = false) phs).
  { eapply Forall_impl; [|exact Hphs]. apply placeholder_not_written. }
  unfold save_proxies_to_conf.
  destruct (negb (can_write_to_conf fs)); [split; reflexivity|].
  destruct (create_backup fs (lit "pre_manual_save")) as [bu fsb].
  destruct (negb bu && negb save_anyway); [split; reflexivity|].
  cbn [set_exists set_proxies proxies apt_conf_exists].
  assert (E : forall pres,
             save_writes pres (proxies mg ++ phs)
             = save_writes pres (proxies mg)).
  { intros pres. unfold save_writes.
    rewrite (proxy_writes_unwritten_tail (proxies mg) phs Hw). f_equal. f_equal.
    unfold separator_writes.
    destruct (proxies mg) as [|p0 ps0]; [now contradiction Hne|].
    reflexivity. }
  rewrite E. destruct (write_all fsb _) as [wr fsw]. split; reflexivity.
Qed.

Lemma placeholders_never_saved_witness :
  snd (save_proxies_to_conf
         (set_proxies one_http_enabled
            (proxies one_http_enabled ++ [socks_placeholder]))
         (plain_fs None) false)
  = snd (save_proxies_to_conf one_http_enabled (plain_fs None) false).
Proof.
  refine (proj2 (placeholders_never_saved one_http_enabled [socks_placeholder]
                   (plain_fs None) false _ _)).
  - discriminate.
  - constructor; [|constructor].
    unfold is_placeholder. cbn. intuition.
Defined.

(** ** What a load hands to a save *)

Lemma strip_infix (s : str) : exists d t, s = d ++ strip s ++ t.
Proof.
  destruct (dropwhile_split is_space s) as (d & Ed & _).
  destruct (rstrip_with_prefix is_space (dropwhile is_space s)) as (t & Et).
  exists d, t. unfold strip, rstrip, lstrip. rewrite <- Et. exact Ed.
Qed.

Lemma forallb_infix (P : ascii -> bool) (d m t : str) :
  forallb P (d ++ m ++ t) = true -> forallb P m = true.
Proof.
  rewrite !forallb_app. intros H.
  apply andb_true_iff in H as [_ H]. now apply andb_true_iff in H as [H _].
Qed.

Lemma strip_keeps (P : ascii -> bool) (s : str) :
  forallb P s = true -> forallb P (strip s) = true.
Proof.
  destruct (strip_infix s) as (d & t & E). intros H. rewrite E in H.
  exact (forallb_infix P d (strip s) t H).
Qed.

Lemma strip_idem (s : str) : strip (strip s) = strip s.
Proof.
  destruct (strip s) as [|a t] eqn:E; [reflexivity|].
  pose proof (@strip_head s t a E) as Ha.
  destruct (@exists_last _ (a :: t)) as (u & z & Eu); [discriminate|].
  assert (Hz : is_space z = false).
  { apply (@strip_last s u z). now rewrite E. }
  destruct u as [|a' u'].
  - cbn [app] in Eu. injection Eu as -> ->.
    unfold strip, rstrip, lstrip, rstrip_with. cbn [dropwhile].
    rewrite Ha. cbn [rev app dropwhile]. now rewrite Ha.
  - cbn [app] in Eu. injection Eu as <- ->.
    exact (strip_framed a u' z [] Ha Hz eq_refl).
Qed.

Lemma strip_line_no_newline (l : str) :
  complete_line l \/ forallb not_newline l = true ->
  forallb not_newline (strip l) = true.
Proof.
  intros [(body & -> & Hb) | H]; [|now apply strip_keeps].
  destruct (strip_infix (body ++ [LF])) as (d & t & E).
  destruct t as [|z0 t0] using rev_ind.
  - rewrite app_nil_r in E.
    destruct (strip (body ++ [LF])) as [|a r] eqn:Es; [reflexivity|].
    destruct (@exists_last _ (a :: r)) as (u & z & Eu); [discriminate|].
    assert (Hz : is_space z = false).
    { apply (@strip_last (body ++ [LF]) u z). now rewrite Es. }
    rewrite Eu, app_assoc in E. apply app_inj_tail in E as [_ <-].
    discriminate Hz.
  - clear IHt0. rewrite !app_assoc in E. apply app_inj_tail in E as [E _].
    rewrite <- app_assoc in E. rewrite E in Hb.
    exact (forallb_infix not_newline d _ t0 Hb).
Qed.

Lemma file_lines_each (ls : list str) :
  file_lines ls ->
  Forall (fun l => complete_line l \/ forallb not_newline l = true) ls.
Proof.
  induction ls as [|l rest IH]; intros H; [constructor|].
  cbn [file_lines] in H. destruct rest as [|l2 rest'].
  - constructor; [|constructor]. destruct H as [H | [_ H]]; auto.
  - destruct H as [H1 H2]. constructor; [now left | now apply IH].
Qed.

Lemma read_lines_of (ls : list str) :
  Forall (fun l => forallb not_cr l = true) ls -> file_lines ls ->
  Forall read_line ls.
Proof.
  intros Hcr Hf. apply file_lines_each in Hf.
  rewrite Forall_forall in *. intros l Hl. split; [now apply Hcr|].
  apply strip_line_no_newline. now apply Hf.
Qed.

(** The label group of the annotation pattern is a part of the line. *)
Lemma name_comment_run s c s' c' :
  run name_comment_parser s c s' c' ->
  exists pre g, s = pre ++ g ++ s' /\ c' 1 = Some g.
Proof.
  intros H. unfold name_comment_parser, seqs in H. cbn [fold_right] in H.
  apply run_Seq_inv in H as (s1 & c1 & Hl & H).
  apply run_Seq_inv in H as (s2 & c2 & Hw & H).
  apply run_Seq_inv in H as (s3 & c3 & Hg & He).
  apply run_Eps_inv in He as [-> ->].
  apply run_Lit_inv in Hl as (_ & pre & -> & _).
  apply run_Star_inv in Hw as (_ & ws & -> & _).
  apply run_Grp_inv in Hg as (c4 & Hs & ->).
  apply run_Star_inv in Hs as (_ & g & -> & _).
  exists (pre ++ ws), g. split; [now rewrite <- app_assoc|].
  unfold set_cap. cbn [Nat.eqb]. now rewrite firstn_prefix.
Qed.

Lemma core_text_target_infix mk kw1 kind kw2 sp1 target rest :
  exists d t,
    core_text mk kw1 kind kw2 sp1 target ++ rest = d ++ target ++ t.
Proof.
  exists (mk ++ kw1 ++ kind ++ kw2 ++ sp1 ++ [QUOTE]), ([QUOTE] ++ rest).
  unfold core_text. now rewrite <- !app_assoc.
Qed.

Lemma parse_step_storable strict w n line :
  read_line line ->
  Forall storable_entry (proxies (w_mgr w)) ->
  label_ok (last_seen_name w) ->
  Forall storable_entry (proxies (w_mgr (parse_step strict w (n, line)))) /\
  label_ok (last_seen_name (parse_step strict w (n, line))).
Proof.
  intros [Hcr Hnl] Hps Hlab.
  pose proof (strip_keeps not_cr line Hcr) as Hcr'.
  unfold parse_step.
  destruct (re_match name_comment_parser (strip line)) as [nc|] eqn:En.
  - cbn [w_mgr last_seen_name]. split; [exact Hps|].
    destruct (re_match_run _ _ En) as (s' & Hr).
    destruct (name_comment_run _ _ _ _ Hr) as (pre & g & E & Hg).
    unfold group. rewrite Hg. cbn [label_ok].
    split; [apply strip_idem|]. rewrite E in Hnl, Hcr'.
    split; apply strip_keeps;
      [exact (forallb_infix not_newline pre g s' Hnl)
      | exact (forallb_infix not_cr pre g s' Hcr')].
  - destruct (re_match (proxy_parser strict) (strip line)) as [pc|] eqn:Ep.
    + cbn [w_mgr last_seen_name label_ok]. split; [|exact I].
      unfold _generate_id, append_proxy, set_proxies. cbn [proxies].
      apply Forall_app. split; [exact Hps|]. constructor; [|constructor].
      destruct (re_match_run _ _ Ep) as (s' & Hr).
      destruct (proxy_parser_run Hr)
        as (mk & kw1 & kind & kw2 & sp1 & target & sp2 & E & Hshape & _ & _
            & _ & H2 & H3).
      unfold group. rewrite H2, H3.
      destruct (core_text_target_infix mk kw1 kind kw2 sp1 target
                  (sp2 ++ [SEMI] ++ s')) as (d & t & Et).
      rewrite E, Et in Hnl, Hcr'.
      destruct Hshape as (_ & _ & Hkind & _ & _ & _ & Hne & Hq).
      unfold storable_entry, readable_entry, new_ProxyEntry.
      cbn [proxy_type url name].
      assert (Hname : strip (match last_seen_name w with
                             | Some l => l | None => [] end)
                      = match last_seen_name w with
                        | Some l => l | None => [] end /\
                      plain_text (match last_seen_name w with
                                  | Some l => l | None => [] end)).
      { destruct (last_seen_name w) as [l|]; [exact Hlab|].
        split; [reflexivity | split; reflexivity]. }
      destruct Hname as (Hn1 & Hn2 & Hn3).
      rewrite upper_idem.
      split; [split; [now apply kind_word_upper|]|].
      * repeat split; assumption.
      * split; [exact (forallb_infix not_newline d target t Hnl)|].
        split; [exact (forallb_infix not_cr d target t Hcr') | exact Hn3].
    + destruct (nonempty (strip line)
                && negb (startswith [HASH] (strip line))).
      * cbn [w_mgr last_seen_name label_ok]. split; [|exact I].
        destruct (contains (lit "::Proxy") (strip line)); exact Hps.
      * destruct (negb (nonempty (strip line)));
          cbn [w_mgr last_seen_name label_ok]; split; auto.
Qed.

Lemma fold_parse_step_storable strict lines :
  Forall read_line lines ->
  forall k w,
    Forall storable_entry (proxies (w_mgr w)) ->
    label_ok (last_seen_name w) ->
    Forall storable_entry
      (proxies (w_mgr (fold_left (parse_step strict)
                         (enumerate_from k lines) w))).
Proof.
  induction 1 as [|l lines Hl Hls IH]; intros k w Hps Hlab; [exact Hps|].
  cbn [enumerate_from fold_left].
  destruct (parse_step_storable strict w k l Hl Hps Hlab) as [H1 H2].
  now apply IH.
Qed.

Lemma correction_pass_lines mg0 fs lines :
  fst (fst (fst (correction_pass mg0 fs lines))) = lines \/
  fst (fst (fst (correction_pass mg0 fs lines))) = temp_corrected_lines lines.
Proof.
  unfold correction_pass.
  destruct (can_write_to_conf fs && _); [|now left].
  destruct (any_line_changed_in_memory _); [|now left].
  destruct (create_backup fs _) as [[] fsb]; [|now left].
  destruct (write_all fsb _) as [[] fsw]; [now right | now left].
Qed.

Lemma storable_written p : storable_entry p -> is_written p = true.
Proof.
  intros ((_ & Hu & _) & _). unfold is_written.
  destruct (url p); [contradiction | reflexivity].
Qed.

Lemma storable_read_entry p : storable_entry p -> read_entry p.
Proof.
  intros ((_ & Hu & Hq & Hs & Hn) & Hul & Hucr & Hncr).
  repeat split; assumption.
Qed.

(** X17. What a load leaves in the list.  After any load, every entry is
    either an entry read from a line, with a non-empty target that holds
    no quote, no line feed and no carriage return and a label that is
    trimmed and holds no line feed and no carriage return, or one of the
    placeholders; and the entries a save would write are the entries read
    from lines. *)
Theorem loaded_entries_clean (mg : ProxyManager) (fs : filesys) :
  Forall (fun p => (read_entry p /\ is_written p = true) \/
                   (is_placeholder p /\ is_written p = false))
    (proxies (snd (fst (load_proxies_from_conf mg fs)))).
Proof.
  assert (G : exists parsed phs,
             proxies (snd (fst (load_proxies_from_conf mg fs)))
             = parsed ++ phs /\
             Forall storable_entry parsed /\ Forall is_placeholder phs).
  { unfold load_proxies_from_conf.
    destruct (file fs) as [content|].
    - destruct (negb (can_read fs)).
      + exists [], []. repeat split; constructor.
      + pose proof (correction_pass_proxies
                      (mkProxyManager [] 0 [] (is_some (Some content))) fs
                      (readlines content)) as Hp.
        pose proof (correction_pass_lines
                      (mkProxyManager [] 0 [] (is_some (Some content))) fs
                      (readlines content)) as Hl.
        destruct (correction_pass _ fs (readlines content))
          as [[[l b] m0] f].
        cbn [fst snd] in *.
        destruct (placeholders_added (w_mgr (parse_lines b m0 l)))
          as (phs & E & Hph).
        exists (proxies (w_mgr (parse_lines b m0 l))), phs.
        split; [exact E|]. split; [|exact Hph].
        unfold parse_lines. apply fold_parse_step_storable.
        * pose proof (readlines_no_cr content) as Hcr.
          pose proof (split_lines_file_lines (universal_newlines content))
            as Hfl.
          fold (readlines content) in Hfl.
          destruct Hl as [-> | ->]; [now apply read_lines_of|].
          destruct (temp_corrected_lines_file_lines Hcr Hfl) as [H1 H2].
          now apply read_lines_of.
        * cbn [w_mgr]. rewrite Hp. constructor.
        * exact I.
    - cbn [fst snd].
      destruct (placeholders_added
                  (mkProxyManager [] 0 [] (is_some (@None str))))
        as (phs & E & Hph).
      exists [], phs. split; [exact E|]. split; [constructor | exact Hph]. }
  destruct G as (parsed & phs & E & Hparsed & Hph).
  rewrite E. apply Forall_app. split.
  - eapply Forall_impl; [|exact Hparsed]. intros p Hp. left.
    split; [now apply storable_read_entry | now apply storable_written].
  - eapply Forall_impl; [|exact Hph]. intros p Hp. right.
    split; [exact Hp | now apply placeholder_not_written].
Qed.

(** ** Reloading what was just saved *)

Lemma data_pairwise (ps qs : list ProxyEntry) :
  map entry_data ps = map entry_data qs ->
  Forall2 (fun p q => entry_data p = entry_data q) ps qs.
Proof.
  revert qs. induction ps as [|p ps IH]; intros [|q qs] H;
    try discriminate H; [constructor|].
  cbn [map] in H. constructor.
  - exact (f_equal (hd (entry_data p)) H).
  - apply IH. exact (f_equal (@tl _) H).
Qed.

Lemma entry_data_fields (p q : ProxyEntry) :
  entry_data p = entry_data q ->
  proxy_type p = proxy_type q /\ url p = url q /\ enabled p = enabled q /\
  name p = name q.
Proof. unfold entry_data. intros H. injection H as H1 H2 H3 H4. auto. Qed.

Lemma existing_types_data (ps qs : list ProxyEntry) :
  Forall2 (fun p q => entry_data p = entry_data q) ps qs ->
  map (fun p => upper (proxy_type p)) (filter has_url_or_name ps)
  = map (fun p => upper (proxy_type p)) (filter has_url_or_name qs).
Proof.
  induction 1 as [|p q ps qs Hd Hr IH]; [reflexivity|].
  apply entry_data_fields in Hd as (Ht & Hu & _ & Hn).
  assert (Hh : has_url_or_name p = has_url_or_name q).
  { unfold has_url_or_name. now rewrite Hu, Hn. }
  cbn [filter]. rewrite Hh.
  destruct (has_url_or_name q); [|exact IH].
  cbn [map]. now rewrite Ht, IH.
Qed.

Lemma empty_entry_data (t : str) (ps qs : list ProxyEntry) :
  Forall2 (fun p q => entry_data p = entry_data q) ps qs ->
  existsb (is_empty_entry_of t) ps = existsb (is_empty_entry_of t) qs.
Proof.
  induction 1 as [|p q ps qs Hd Hr IH]; [reflexivity|].
  apply entry_data_fields in Hd as (Ht & Hu & _ & Hn).
  assert (Hh : is_empty_entry_of t p = is_empty_entry_of t q).
  { unfold is_empty_entry_of. now rewrite Ht, Hu, Hn. }
  cbn [existsb]. now rewrite Hh, IH.
Qed.

Lemma placeholder_step_data e a b t :
  map entry_data (proxies a) = map entry_data (proxies b) ->
  map entry_data (proxies (placeholder_step e a t))
  = map entry_data (proxies (placeholder_step e b t)).
Proof.
  intros H. unfold placeholder_step.
  destruct (negb (mem_str t e)); [|exact H].
  change (existsb _ (proxies a))
    with (existsb (is_empty_entry_of t) (proxies a)).
  change (existsb _ (proxies b))
    with (existsb (is_empty_entry_of t) (proxies b)).
  rewrite (empty_entry_data t _ _ (data_pairwise _ _ H)).
  destruct (negb (existsb (is_empty_entry_of t) (proxies b))); [|exact H].
  unfold _generate_id, append_proxy, set_proxies. cbn [proxies].
  rewrite !map_app, H. reflexivity.
Qed.

Lemma add_placeholders_data a b :
  map entry_data (proxies a) = map entry_data (proxies b) ->
  map entry_data (proxies (_add_placeholder_proxies_if_needed a))
  = map entry_data (proxies (_add_placeholder_proxies_if_needed b)).
Proof.
  intros H. unfold _add_placeholder_proxies_if_needed.
  rewrite (existing_types_data _ _ (data_pairwise _ _ H)).
  generalize (map (fun p => upper (proxy_type p))
                (filter has_url_or_name (proxies b))).
  intros e. generalize standard_types. intros types. revert a b H.
  induction types as [|t types IH]; intros a b H; [exact H|].
  cbn [fold_left]. apply IH. now apply placeholder_step_data.
Qed.

Lemma load_keeps_can_read (mg : ProxyManager) (fs : filesys) :
  can_read (snd (load_proxies_from_conf mg fs)) = can_read fs.
Proof.
  unfold load_proxies_from_conf.
  destruct (file fs) as [content|]; [|reflexivity].
  destruct (negb (can_read fs)); [reflexivity|].
  assert (G : can_read (snd (correction_pass
                               (mkProxyManager [] 0 []
                                  (is_some (Some content))) fs
                               (readlines content))) = can_read fs).
  { unfold correction_pass.
    destruct (can_write_to_conf fs && _); [|reflexivity].
    destruct (any_line_changed_in_memory _); [|reflexivity].
    destruct (create_backup_keeps fs (lit "pre_whitespace_correction"))
      as (_ & Hb & _).
    destruct (create_backup fs _) as [[] fsb]; cbn [snd] in *;
      [|exact Hb].
    pose proof (write_all_keeps fsb
                  (temp_corrected_lines (readlines content))) as Hw.
    destruct (write_all fsb _) as [[] fsw]; cbn [snd] in *; congruence. }
  destruct (correction_pass _ fs (readlines content)) as [[[l b] m0] f].
  exact G.
Qed.

Lemma load_ids_seq (mg : ProxyManager) (fs : filesys) :
  map id (proxies (snd (fst (load_proxies_from_conf mg fs))))
  = seq 1 (next_id (snd (fst (load_proxies_from_conf mg fs)))).
Proof.
  unfold load_proxies_from_conf.
  destruct (file fs) as [content|].
  - destruct (negb (can_read fs)); [reflexivity|].
    pose proof (correction_pass_proxies
                  (mkProxyManager [] 0 [] (is_some (Some content))) fs
                  (readlines content)) as Hp.
    pose proof (correction_pass_ids
                  (mkProxyManager [] 0 [] (is_some (Some content))) fs
                  (readlines content)) as Hn.
    destruct (correction_pass _ fs (readlines content)) as [[[l b] m0] f].
    cbn [fst snd] in *. apply placeholders_ids. apply fold_parse_step_ids.
    cbn [w_mgr]. rewrite Hp, Hn. reflexivity.
  - cbn [fst snd]. apply placeholders_ids. reflexivity.
Qed.

(** A load of a readable or absent file is a walk followed by the
    placeholders, and the walk's entries can all be stored. *)
Lemma load_walk_then_placeholders (mg : ProxyManager) (fs : filesys) :
  can_read fs = true ->
  exists w1,
    snd (fst (load_proxies_from_conf mg fs))
    = _add_placeholder_proxies_if_needed w1 /\
    Forall storable_entry (proxies w1).
Proof.
  intros Hr. unfold load_proxies_from_conf.
  destruct (file fs) as [content|].
  - rewrite Hr. cbn [negb].
    pose proof (correction_pass_proxies
                  (mkProxyManager [] 0 [] (is_some (Some content))) fs
                  (readlines content)) as Hp.
    pose proof (correction_pass_lines
                  (mkProxyManager [] 0 [] (is_some (Some content))) fs
                  (readlines content)) as Hl.
    destruct (correction_pass _ fs (readlines content)) as [[[l b] m0] f].
    cbn [fst snd] in *.
    exists (w_mgr (parse_lines b m0 l)). split; [reflexivity|].
    unfold parse_lines. apply fold_parse_step_storable.
    + pose proof (readlines_no_cr content) as Hcr.
      pose proof (split_lines_file_lines (universal_newlines content)) as Hfl.
      fold (readlines content) in Hfl.
      destruct Hl as [-> | ->]; [now apply read_lines_of|].
      destruct (temp_corrected_lines_file_lines Hcr Hfl) as [H1 H2].
      now apply read_lines_of.
    + cbn [w_mgr]. rewrite Hp. constructor.
    + exact I.
  - cbn [fst snd]. exists (mkProxyManager [] 0 [] (is_some (@None str))).
    split; [reflexivity | constructor].
Qed.

Lemma filter_written_split (parsed phs : list ProxyEntry) :
  Forall storable_entry parsed -> Forall is_placeholder phs ->
  filter is_written (parsed ++ phs) = parsed.
Proof.
  intros Hp Hph. rewrite filter_app_none.
  - induction Hp as [|p ps H1 H2 IH]; [reflexivity|].
    cbn [filter]. now rewrite (storable_written p H1), IH.
  - eapply Forall_impl; [|exact Hph]. apply placeholder_not_written.
Qed.

(** X18. Saving what was loaded and loading again brings back the same
    entries.  Load a file, save at once and with success over a readable
    target whose lines are all terminated, and load again: the second
    load finds the same entries as the first, in the same order, with the
    same identifiers, kinds, targets, enabled states and labels,
    placeholders included, and corrects nothing. *)
Theorem reload_after_save_keeps_entries
    (mg mg' : ProxyManager) (fs : filesys) (save_anyway : bool) :
  let m1 := snd (fst (load_proxies_from_conf mg fs)) in
  let fs1 := snd (load_proxies_from_conf mg fs) in
  let fs2 := snd (save_proxies_to_conf m1 fs1 save_anyway) in
  fst (fst (save_proxies_to_conf m1 fs1 save_anyway)) = true ->
  can_read fs1 = true ->
  (forall content, file fs1 = Some content ->
                   Forall complete_line (readlines content)) ->
  fst (fst (load_proxies_from_conf mg' fs2)) = false /\
  map entry_data (proxies (snd (fst (load_proxies_from_conf mg' fs2))))
  = map entry_data (proxies m1) /\
  map id (proxies (snd (fst (load_proxies_from_conf mg' fs2))))
  = map id (proxies m1).
Proof.
  cbn zeta. intros Hok Hr Hlines.
  assert (Hr0 : can_read fs = true) by now rewrite <- load_keeps_can_read with (mg := mg).
  destruct (load_walk_then_placeholders mg fs Hr0) as (w1 & Em & Hw1).
  destruct (placeholders_added w1) as (phs1 & Ephs & Hph1).
  assert (Hsplit : proxies (snd (fst (load_proxies_from_conf mg fs)))
                   = proxies w1 ++ phs1) by now rewrite Em.
  assert (Hps : Forall (fun p => is_written p = true -> storable_entry p)
                  (proxies (snd (fst (load_proxies_from_conf mg fs))))).
  { rewrite Hsplit. apply Forall_app. split.
    - eapply Forall_impl; [|exact Hw1]. now intros p H _.
    - eapply Forall_impl; [|exact Hph1]. intros p Hp Hw.
      rewrite (placeholder_not_written p Hp) in Hw. discriminate Hw. }
  assert (Hps' : Forall (fun p => is_written p = true -> readable_entry p)
                   (proxies (snd (fst (load_proxies_from_conf mg fs))))).
  { eapply Forall_impl; [|exact Hps]. intros p Hp Hw. now apply Hp. }
  pose proof (@save_true_inv _ _ save_anyway Hok) as Hf.
  pose proof (save_keeps_can_read
                (snd (fst (load_proxies_from_conf mg fs)))
                (snd (load_proxies_from_conf mg fs)) save_anyway) as Hr'.
  rewrite Hr in Hr'.
  destruct (preserved_lines_facts _ Hlines) as (Ho & Hc & Hcr).
  destruct (save_writes_facts _ _ Ho Hc Hcr Hps) as (Hwc & Hwcr & Hwn).
  unfold complete_new_content, writes_of_save in Hf.
  assert (Hdata :
            map entry_data
              (proxies (snd (fst (load_proxies_from_conf mg'
                 (snd (save_proxies_to_conf
                         (snd (fst (load_proxies_from_conf mg fs)))
                         (snd (load_proxies_from_conf mg fs))
                         save_anyway))))))
            = map entry_data
                (proxies (snd (fst (load_proxies_from_conf mg fs))))).
  { rewrite (load_clean_file mg' _ _ Hf Hr' Hwc Hwcr Hwn). cbn [fst snd].
    transitivity
      (map entry_data (proxies (_add_placeholder_proxies_if_needed w1)));
      [|now rewrite <- Em].
    apply add_placeholders_data.
    destruct (save_writes_walk _
                (proxies (snd (fst (load_proxies_from_conf mg fs))))
                (mkProxyManager [] 0 [] true) eq_refl eq_refl Ho Hps')
      as (Hd & _).
    rewrite Hd, Hsplit. now rewrite (filter_written_split _ _ Hw1 Hph1). }
  split; [|split; [exact Hdata|]].
  - now rewrite (load_clean_file mg' _ _ Hf Hr' Hwc Hwcr Hwn).
  - rewrite !load_ids_seq.
    pose proof (load_ids_seq mg fs) as H1.
    pose proof (load_ids_seq mg'
                  (snd (save_proxies_to_conf
                          (snd (fst (load_proxies_from_conf mg fs)))
                          (snd (load_proxies_from_conf mg fs))
                          save_anyway))) as H2.
    apply (f_equal (@length nat)) in H1, H2.
    rewrite length_map, length_seq in H1, H2.
    apply (f_equal (@length _)) in Hdata. rewrite !length_map in Hdata.
    congruence.
Qed.

Lemma reload_after_save_keeps_entries_witness :
  map entry_data
    (proxies
       (snd (fst (load_proxies_from_conf new_ProxyManager
          (snd (save_proxies_to_conf
                  (snd (fst (load_proxies_from_conf new_ProxyManager
                               (plain_fs (Some mixed_content)))))
                  (snd (load_proxies_from_conf new_ProxyManager
                          (plain_fs (Some mixed_content))))
                  false))))))
  = map entry_data
      (proxies (snd (fst (load_proxies_from_conf new_ProxyManager
                            (plain_fs (Some mixed_content)))))).
Proof.
  refine (proj1 (proj2 (reload_after_save_keeps_entries new_ProxyManager
                          new_ProxyManager (plain_fs (Some mixed_content))
                          false eq_refl eq_refl _))).
  intros content E. vm_compute in E. inversion E; subst content. vm_compute.
  constructor; [|constructor; [|constructor]].
  - exists (lit "Acquire::HTTP::Proxy " ++ [QUOTE] ++ lit "x" ++ [QUOTE]
            ++ [SEMI]).
    split; reflexivity.
  - exists (lit "keep"). split; reflexivity.
Defined.

(** ** What the corrector changes *)

Lemma visible_app (a b : str) : visible (a ++ b) = visible a ++ visible b.
Proof. apply filter_app. Qed.

Lemma visible_spaces (s : str) : forallb is_space s = true -> visible s = [].
Proof.
  induction s as [|c t IH]; [reflexivity|]. cbn [forallb]. intros H.
  apply andb_true_iff in H as [Hc Ht].
  unfold visible. cbn [filter]. rewrite Hc. cbn [negb]. now apply IH.
Qed.

Lemma visible_strip (s : str) : visible (strip s) = visible s.
Proof.
  destruct (dropwhile_split is_space s) as (d & Ed & Hd).
  destruct (rstrip_with_prefix_all is_space (dropwhile is_space s))
    as (t & Et & Ht).
  change (rstrip_with is_space (dropwhile is_space s)) with (strip s) in Et.
  apply (f_equal visible) in Ed, Et.
  rewrite visible_app, (visible_spaces d Hd) in Ed.
  rewrite visible_app, (visible_spaces t Ht), app_nil_r in Et.
  cbn [app] in Ed. congruence.
Qed.

Lemma correct_line_visible (l : str) :
  visible (fst (correct_line l)) = visible l.
Proof.
  unfold correct_line.
  destruct (re_match correction_pattern (rstrip_crlf l)) as [c|] eqn:E;
    [|reflexivity].
  destruct (nonempty (group c 2)); [|reflexivity].
  destruct (negb (str_eqb (rstrip_crlf l) (group c 1 ++ [SEMI])));
    [|reflexivity].
  cbn [fst].
  destruct (correction_match_strip l c E)
    as (mk & kw1 & kind & kw2 & sp1 & target & sp & _ & _ & Hsp & Es & H1).
  unfold group. rewrite H1, <- (visible_strip l), Es.
  rewrite !visible_app, (visible_spaces sp Hsp).
  change (visible [LF]) with (@nil ascii). now rewrite app_nil_r.
Qed.

Lemma temp_corrected_lines_visible (lines : list str) :
  visible (concat (temp_corrected_lines lines)) = visible (concat lines).
Proof.
  induction lines as [|l lines IH]; [reflexivity|].
  unfold temp_corrected_lines in *. cbn [map concat].
  now rewrite !visible_app, correct_line_visible, IH.
Qed.

Lemma universal_newlines_visible (s : str) :
  visible (universal_newlines s) = visible s.
Proof.
  assert (G : forall n s, length s <= n ->
                visible (universal_newlines s) = visible s).
  { induction n as [|n IH]; intros [|c t] Hl; try reflexivity;
      cbn [length] in Hl; try lia.
    cbn [universal_newlines].
    destruct (Ascii.eqb c CR) eqn:Ec.
    - apply Ascii.eqb_eq in Ec. subst c.
      destruct t as [|d t']; [reflexivity|].
      destruct (Ascii.eqb d LF) eqn:Ed.
      + apply Ascii.eqb_eq in Ed. subst d.
        change (visible (LF :: ?x)) with (visible x).
        change (visible (CR :: LF :: ?x)) with (visible x).
        apply IH. cbn [length] in *. lia.
      + change (visible (LF :: ?x)) with (visible x).
        change (visible (CR :: ?x)) with (visible x).
        apply IH. cbn [length] in *. lia.
    - unfold visible. cbn [filter]. fold (visible (universal_newlines t)).
      fold (visible t). rewrite (IH t) by lia. reflexivity. }
  apply (G (length s)). lia.
Qed.

(** X19. An auto-correction changes whitespace only.  When a load reports
    that corrections were made and saved, the file it leaves has the same
    number of lines as the file it found and, whitespace apart, the same
    characters in the same order. *)
Theorem correction_changes_whitespace_only
    (mg : ProxyManager) (fs : filesys) :
  fst (fst (load_proxies_from_conf mg fs)) = true ->
  exists before after,
    file fs = Some before /\
    file (snd (load_proxies_from_conf mg fs)) = Some after /\
    visible after = visible before /\
    length (readlines after) = length (readlines before).
Proof.
  intros H. destruct (load_saved_inv mg fs H) as (content & Ef & Ef' & _).
  exists content, (concat (temp_corrected_lines (readlines content))).
  split; [exact Ef|]. split; [exact Ef'|]. split.
  - rewrite temp_corrected_lines_visible. unfold readlines.
    rewrite concat_split_lines. apply universal_newlines_visible.
  - rewrite corrected_file_read_back. unfold temp_corrected_lines.
    apply length_map.
Qed.

Lemma correction_changes_whitespace_only_witness :
  exists before after,
    file defective_fs = Some before /\
    file (snd (load_proxies_from_conf new_ProxyManager defective_fs))
    = Some after /\
    visible after = visible before /\
    length (readlines after) = length (readlines before).
Proof.
  apply (correction_changes_whitespace_only new_ProxyManager defective_fs).
  vm_compute. reflexivity.
Defined.

(** ** Which placeholders are added *)

Lemma str_eqb_neq (a b : str) : a <> b -> str_eqb a b = false.
Proof.
  intros H. destruct (str_eqb a b) eqn:E; [|reflexivity].
  exfalso. apply H. now apply str_eqb_eq.
Qed.

Lemma fold_placeholder_step_fill e types :
  NoDup types -> (forall t, In t types -> upper t = t) ->
  forall mg,
    (forall t, In t types ->
       existsb (is_empty_entry_of t) (proxies mg) = false) ->
    map entry_data (proxies (fold_left (placeholder_step e) types mg))
    = map entry_data (proxies mg)
      ++ map (fun t => (t, [], false, []))
           (filter (fun t => negb (mem_str t e)) types).
Proof.
  induction 1 as [|t types Hnot Hnd IH]; intros Hup mg Hnone.
  - cbn. now rewrite app_nil_r.
  - cbn [fold_left filter]. unfold placeholder_step at 2.
    destruct (negb (mem_str t e)).
    + change (existsb _ (proxies mg))
        with (existsb (is_empty_entry_of t) (proxies mg)).
      rewrite (Hnone t (or_introl eq_refl)). cbn [negb].
      rewrite IH.
      * unfold _generate_id, append_proxy, set_proxies, new_ProxyEntry.
        cbn [proxies]. rewrite map_app, <- app_assoc. cbn [map app].
        unfold entry_data at 2. cbn [proxy_type url enabled name].
        now rewrite (Hup t (or_introl eq_refl)).
      * intros x Hx. apply Hup. now right.
      * intros x Hx.
        unfold _generate_id, append_proxy, set_proxies, new_ProxyEntry.
        cbn [proxies]. rewrite existsb_app, (Hnone x (or_intror Hx)).
        cbn [existsb orb]. unfold is_empty_entry_of.
        cbn [proxy_type]. rewrite upper_idem, (Hup t (or_introl eq_refl)).
        rewrite str_eqb_neq; [reflexivity|].
        intros ->. contradiction.
    + apply IH.
      * intros x Hx. apply Hup. now right.
      * intros x Hx. apply Hnone. now right.
Qed.

Lemma filter_all {T : Type} (f : T -> bool) (l : list T) :
  Forall (fun x => f x = true) l -> filter f l = l.
Proof.
  induction 1 as [|x l Hx Hl IH]; [reflexivity|].
  cbn [filter]. now rewrite Hx, IH.
Qed.

(** X20. Which placeholders are added.  When every entry in the list has a
    target or a label (as every entry read from a file has), the
    placeholders [_add_placeholder_proxies_if_needed] appends are exactly
    one empty disabled entry for each of HTTP, HTTPS, FTP and SOCKS that
    is not the kind of an entry in the list, in that order. *)
Theorem placeholders_fill_missing_kinds (mg : ProxyManager) :
  Forall (fun p => has_url_or_name p = true) (proxies mg) ->
  map entry_data (proxies (_add_placeholder_proxies_if_needed mg))
  = map entry_data (proxies mg)
    ++ map (fun t => (t, [], false, []))
         (filter
            (fun t =>
               negb (mem_str t (map (fun p => upper (proxy_type p))
                                  (proxies mg))))
            standard_types).
Proof.
  intros Hall. unfold _add_placeholder_proxies_if_needed.
  rewrite (filter_all has_url_or_name (proxies mg) Hall).
  apply fold_placeholder_step_fill.
  - repeat constructor; cbn; intuition discriminate.
  - apply standard_types_upper.
  - intros t _. apply not_true_is_false. intros H.
    apply existsb_exists in H as (p & Hp & He).
    rewrite Forall_forall in Hall. specialize (Hall p Hp).
    unfold is_empty_entry_of in He. unfold has_url_or_name in Hall.
    apply andb_true_iff in He as [He Hn]. apply andb_true_iff in He as [_ Hu].
    apply negb_true_iff in Hu, Hn. rewrite Hu, Hn in Hall.
    discriminate Hall.
Qed.

Lemma placeholders_fill_missing_kinds_witness :
  map entry_data
    (proxies (_add_placeholder_proxies_if_needed one_http_enabled))
  = [(lit "HTTP", lit "old", true, []); (lit "HTTPS", [], false, []);
     (lit "FTP", [], false, []); (lit "SOCKS", [], false, [])].
Proof.
  refine (placeholders_fill_missing_kinds one_http_enabled _).
  constructor; [reflexivity | constructor].
Defined.
